(** * meshrender: GridElements.cpp

    A shallow embedding of the mesh core of meshrender (the spherical
    polygonal mesh, its spatial index, topology builder, area
    accumulation, validator and grid-file reader) together with the
    properties of it that the design document states.

    Conventions.
    - [int] and [size_t] values are integers of [Z]; conversions between
      them are written out ([to_int], [to_size_t]).
    - [Real] (a typedef of Defines.h, which is not among the sources at
      hand) is a parameter: the class [RealArith] lists the arithmetic
      the code uses.  It is instantiated with IEEE binary64
      ([real_double], what [double] is) and with the real numbers
      ([real_exact], exact arithmetic).
    - A C++ exception, a failed assertion, an access outside a container
      and the use of a null pointer are the kinds of [Error]; functions
      that can run into one return [Exn].
    - Console output ([Announce], [printf]) is modelled in the reader
      only, where it is kept in a log together with the calls of
      [RemoveCoincidentNodes]; numbers that an exception message prints
      in floating-point format are left out of the message. *)

From Stdlib Require Import ZArith List Bool String DecimalString Floats Reals Lra Lia Sorted.
From stdpp Require Import base option list gmap strings.

Local Open Scope string_scope.
Local Open Scope list_scope.
Local Open Scope Z_scope.

(** ** Errors *)

Inductive Error :=
| Exception (msg : string)
| AssertionFailure
| OutOfBounds (what : string)
| NullPointer (what : string).

Inductive Exn (A : Type) :=
| Ok (a : A)
| Err (e : Error).
Arguments Ok {A} a.
Arguments Err {A} e.

#[global] Instance Exn_ret : MRet Exn := fun A a => Ok a.
#[global] Instance Exn_bind : MBind Exn := fun A B f m =>
  match m with
  | Ok a => f a
  | Err e => Err e
  end.

Definition is_Ok {A} (m : Exn A) : bool :=
  match m with Ok _ => true | Err _ => false end.

(** A [for] loop over a list of indices that threads a state and stops
    at the first error. *)
Fixpoint forM {A S : Type} (body : S -> A -> Exn S) (l : list A) (s : S) : Exn S :=
  match l with
  | [] => Ok s
  | a :: l' =>
      match body s a with
      | Ok s' => forM body l' s'
      | Err e => Err e
      end
  end.

(** ** Machine integers *)

Definition INT_MAX : Z := 2 ^ 31 - 1.

(** Conversion to a 32-bit [int] (two's complement). *)
Definition to_int (v : Z) : Z := (v + 2 ^ 31) mod 2 ^ 32 - 2 ^ 31.

(** Conversion to a 64-bit [size_t]. *)
Definition to_size_t (v : Z) : Z := v mod 2 ^ 64.

(** ** The scalar type [Real] *)

Class RealArith (Real : Type) := {
  r_lit : Z -> Z -> Real;            (* the literal  m e  stands for  m * 10^e *)
  r_pi : Real;                       (* M_PI *)
  r_add : Real -> Real -> Real;
  r_sub : Real -> Real -> Real;
  r_mul : Real -> Real -> Real;
  r_div : Real -> Real -> Real;
  r_opp : Real -> Real;
  r_sqrt : Real -> Real;
  r_fabs : Real -> Real;
  r_ltb : Real -> Real -> bool;
  r_leb : Real -> Real -> bool;
  r_eqb : Real -> Real -> bool
}.

Declare Scope real_scope.
Delimit Scope real_scope with real.
Notation "a + b" := (r_add a b) : real_scope.
Notation "a - b" := (r_sub a b) : real_scope.
Notation "a * b" := (r_mul a b) : real_scope.
Notation "a / b" := (r_div a b) : real_scope.
Notation "- a" := (r_opp a) : real_scope.
Notation "a <? b" := (r_ltb a b) : real_scope.
Notation "a >? b" := (r_ltb b a) : real_scope.
Notation "a <=? b" := (r_leb a b) : real_scope.
Notation "a =? b" := (r_eqb a b) : real_scope.

Definition r_zero {Real} `{RealArith Real} : Real := r_lit 0 0.
Definition r_one {Real} `{RealArith Real} : Real := r_lit 1 0.

(** *** IEEE binary64 *)

Definition float_of_Z (v : Z) : float :=
  if v <? 0 then PrimFloat.opp (PrimFloat.of_uint63 (Uint63.of_Z (- v)))
  else PrimFloat.of_uint63 (Uint63.of_Z v).

Definition float_lit (m e : Z) : float :=
  if 0 <=? e then PrimFloat.mul (float_of_Z m) (float_of_Z (10 ^ e))
  else PrimFloat.div (float_of_Z m) (float_of_Z (10 ^ (- e))).

#[global] Instance real_double : RealArith float := {|
  r_lit := float_lit;
  r_pi := 0x1.921fb54442d18p+1%float;
  r_add := PrimFloat.add;
  r_sub := PrimFloat.sub;
  r_mul := PrimFloat.mul;
  r_div := PrimFloat.div;
  r_opp := PrimFloat.opp;
  r_sqrt := PrimFloat.sqrt;
  r_fabs := PrimFloat.abs;
  r_ltb := PrimFloat.ltb;
  r_leb := PrimFloat.leb;
  r_eqb := PrimFloat.eqb
|}.

(** *** Exact arithmetic *)

Definition R_lit (m e : Z) : R := (IZR m * powerRZ 10 e)%R.
Definition R_ltb (a b : R) : bool := if Rlt_dec a b then true else false.
Definition R_leb (a b : R) : bool := if Rle_dec a b then true else false.
Definition R_eqb (a b : R) : bool := if Req_dec_T a b then true else false.

#[global] Instance real_exact : RealArith R := {|
  r_lit := R_lit;
  r_pi := PI;
  r_add := Rplus;
  r_sub := Rminus;
  r_mul := Rmult;
  r_div := Rdiv;
  r_opp := Ropp;
  r_sqrt := sqrt;
  r_fabs := Rabs;
  r_ltb := R_ltb;
  r_leb := R_leb;
  r_eqb := R_eqb
|}.

(** ** Geometric primitives *)

Record Node (Real : Type) := mkNode { x : Real; y : Real; z : Real }.
Arguments mkNode {Real} x y z.
Arguments x {Real} n.
Arguments y {Real} n.
Arguments z {Real} n.

Abbreviation NodeVector Real := (list (Node Real)).

(** Modelled from the spec: [InvalidNode] is declared in GridElements.h,
    which is not among the sources; it is the "not found" sentinel, the
    [int] -1. *)
Definition InvalidNode : Z := -1.

(** Edge types, as the integer codes the files store. *)
Definition Type_GreatCircleArc : Z := 0.
Definition Type_ConstantLatitude : Z := 1.
Definition Type_Default : Z := Type_GreatCircleArc.

(** An edge is a directed pair of node indices, [edge[0]] and [edge[1]],
    with a type tag. *)
Record Edge := mkEdge { node0 : Z; node1 : Z; type : Z }.

Record Face := mkFace { edges : list Edge }.

(** Modelled from the spec: Face's [operator[]] is declared in
    GridElements.h; a face is "indexable by position to obtain the origin
    node index". *)
Definition Face_at (f : Face) (i : nat) : Exn Z :=
  match edges f !! i with
  | Some e => Ok (node0 e)
  | None => Err (OutOfBounds "Face::operator[]")
  end.

(** [nodevec[ix]] for an [int] index.  The source does not check the
    index; an access outside the vector, which C++ leaves undefined, is
    the error [OutOfBounds] here. *)
Definition node_at {Real} (nodevec : NodeVector Real) (ix : Z) : Exn (Node Real) :=
  if ix <? 0 then Err (OutOfBounds "NodeVector")
  else match nodevec !! Z.to_nat ix with
       | Some n => Ok n
       | None => Err (OutOfBounds "NodeVector")
       end.


(** ** Node arithmetic *)

Section NodeArithmetic.
Context {Real : Type} `{RealArith Real}.

(** Modelled from the spec: the operators of [Node] are declared in
    GridElements.h, which is not among the sources; a node "supports +,
    -, scalar division, magnitude, dot, cross". *)
Definition Node_sub (a b : Node Real) : Node Real :=
  mkNode (x a - x b)%real (y a - y b)%real (z a - z b)%real.

Definition Magnitude (n : Node Real) : Real :=
  r_sqrt (x n * x n + y n * y n + z n * z n)%real.

Definition DotProduct (a b : Node Real) : Real :=
  (x a * x b + y a * y b + z a * z b)%real.

Definition CrossProduct (a b : Node Real) : Node Real :=
  mkNode (y a * z b - z a * y b)%real
         (z a * x b - x a * z b)%real
         (x a * y b - y a * x b)%real.

(** Modelled from the spec: [ReferenceTolerance] is a constant of
    Defines.h, which is not among the sources; its "reference value" is
    1e-8. *)
Definition ReferenceTolerance : Real := r_lit 1 (-8).

End NodeArithmetic.

(** A loop that replaces every element of a list. *)
Fixpoint mapM {A B : Type} (f : A -> Exn B) (l : list A) : Exn (list B) :=
  match l with
  | [] => Ok []
  | a :: l' =>
      match f a with
      | Ok b => match mapM f l' with
                | Ok bs => Ok (b :: bs)
                | Err e => Err e
                end
      | Err e => Err e
      end
  end.

(** ** Face::Contains *)

Section FaceContains.
Context {Real : Type} `{RealArith Real}.

(** The body of the loop of [Face::Contains] once [n1] and [n2] are
    bound: every [continue] leaves [nParity] as it is. *)
Definition Contains_body (n0 n1 n2 : Node Real) (nParity : Z) : Z :=
  if ((z n1 >? z n0) && (z n2 >? z n0))%real then nParity
  else if ((z n1 <? z n0) && (z n2 <? z n0))%real then nParity
  else if (z n1 =? z n2)%real then nParity
  else
    let nx :=
      if (z n1 <? z n2)%real then
        let dA := ((z n0 - z n1) / (z n2 - z n1))%real in
        mkNode ((r_one - dA) * x n1 + dA * x n2)%real
               ((r_one - dA) * y n1 + dA * y n2)%real
               (z n0)
      else
        let dA := ((z n0 - z n2) / (z n1 - z n2))%real in
        mkNode ((r_one - dA) * x n2 + dA * x n1)%real
               ((r_one - dA) * y n2 + dA * y n1)%real
               (z n0) in
    let dc := (x n0 * y nx - y n0 * x nx)%real in
    let dd := (x n0 * x nx + y n0 * y nx + z n0 * z nx)%real in
    let da := (dc / dd)%real in
    if (da <? r_zero)%real then nParity
    else if (z n1 <? z n2)%real then to_int (nParity + 1)
    else to_int (nParity - 1).

Definition Contains (f : Face) (n0 : Node Real) (nodevec : NodeVector Real)
  : Exn bool :=
  let nEdges := length (edges f) in
  nParity ← forM (fun nParity i1 =>
      let i2 := ((i1 + 1) mod nEdges)%nat in
      ix1 ← Face_at f i1;
      n1 ← node_at nodevec ix1;
      ix2 ← Face_at f i2;
      n2 ← node_at nodevec ix2;
      mret (Contains_body n0 n1 n2 nParity))
    (seq 0 nEdges) 0;
  mret (0 <? nParity).

(** *** The rule as the design document words it *)

(** Linear interpolation along the segment from [lo] to [hi], at the
    height of the query point. *)
Definition interpolate_at (n0 lo hi : Node Real) : Node Real :=
  let dA := ((z n0 - z lo) / (z hi - z lo))%real in
  mkNode ((r_one - dA) * x lo + dA * x hi)%real
         ((r_one - dA) * y lo + dA * y hi)%real
         (z n0).

(** The intersection of the edge with the plane of constant z through
    the query point, taken from the endpoint of smaller z. *)
Definition plane_intersection (n0 n1 n2 : Node Real) : Node Real :=
  if (z n1 <? z n2)%real then interpolate_at n0 n1 n2
  else interpolate_at n0 n2 n1.

Definition surrogate (n0 nx : Node Real) : Real :=
  ((x n0 * y nx - y n0 * x nx)
   / (x n0 * x nx + y n0 * y nx + z n0 * z nx))%real.

Definition edge_contribution (n0 n1 n2 : Node Real) : Z :=
  if ((z n1 >? z n0) && (z n2 >? z n0))%real
     || ((z n1 <? z n0) && (z n2 <? z n0))%real
     || (z n1 =? z n2)%real
  then 0
  else if (surrogate n0 (plane_intersection n0 n1 n2) <? r_zero)%real then 0
  else if (z n1 <? z n2)%real then 1
  else if (z n1 >? z n2)%real then -1
  else 0.

(** The node at the origin of the [i]-th edge of the face. *)
Definition origin_node (f : Face) (nodevec : NodeVector Real) (i : nat)
  : option (Node Real) :=
  match edges f !! i with
  | Some e => if node0 e <? 0 then None else nodevec !! Z.to_nat (node0 e)
  | None => None
  end.

Definition contribution_at (f : Face) (n0 : Node Real)
    (nodevec : NodeVector Real) (i1 : nat) : Z :=
  match origin_node f nodevec i1,
        origin_node f nodevec ((i1 + 1) mod length (edges f))%nat with
  | Some n1, Some n2 => edge_contribution n0 n1 n2
  | _, _ => 0
  end.

Definition signed_parity (f : Face) (n0 : Node Real)
    (nodevec : NodeVector Real) : Z :=
  fold_right Z.add 0
    (map (contribution_at f n0 nodevec) (seq 0 (length (edges f)))).

(** Two z coordinates can be compared: one is smaller, or they are
    equal.  (On binary64 this fails for NaN only.) *)
Definition comparable (a b : Real) : bool :=
  ((a <? b) || (a =? b) || (b <? a))%real.

End FaceContains.

(** *** Test data: the octant triangle *)

(** The spherical triangle with corners on the three coordinate axes, in
    binary64, wound counter-clockwise as seen from outside the sphere. *)
Definition octant_nodes : NodeVector float :=
  [ mkNode 1%float 0%float 0%float;
    mkNode 0%float 1%float 0%float;
    mkNode 0%float 0%float 1%float ].

Definition octant_face : Face :=
  mkFace [ mkEdge 0 1 Type_Default; mkEdge 1 2 Type_Default;
           mkEdge 2 0 Type_Default ].

(** A point inside the octant triangle, (0.6, 0.48, 0.64), and its
    antipode. *)
Definition octant_inner : Node float :=
  mkNode (r_lit 6 (-1)) (r_lit 48 (-2)) (r_lit 64 (-2)).

Definition octant_antipode : Node float :=
  mkNode (r_lit (-6) (-1)) (r_lit (-48) (-2)) (r_lit (-64) (-2)).

(** ** Mesh *)

(** Modelled from the spec: [FacePair] is declared in GridElements.h,
    which is not among the sources.  The edge map "records the face's id
    as incident to" an edge: a pair holds the ids of the faces added to
    it, in the order of their addition. *)
Definition FacePair := list Z.

Record Mesh (Real : Type) := mkMesh {
  strFileName : string;
  nodes : NodeVector Real;
  faces : list Face;
  edgemap : gmap (Z * Z) FacePair;
  revnodearray : list (gset Z);
  vecFaceArea : list Real;
  vecSourceFaceIx : list Z;
  vecTargetFaceIx : list Z;
  vecMask : list Z
}.
Arguments mkMesh {Real}.
Arguments strFileName {Real} m.
Arguments nodes {Real} m.
Arguments faces {Real} m.
Arguments edgemap {Real} m.
Arguments revnodearray {Real} m.
Arguments vecFaceArea {Real} m.
Arguments vecSourceFaceIx {Real} m.
Arguments vecTargetFaceIx {Real} m.
Arguments vecMask {Real} m.

(** The empty-constructed mesh. *)
Definition empty_mesh {Real} : Mesh Real :=
  mkMesh "" [] [] ∅ [] [] [] [] [].

Definition set_strFileName {Real} (m : Mesh Real) (s : string) : Mesh Real :=
  mkMesh s (nodes m) (faces m) (edgemap m) (revnodearray m)
    (vecFaceArea m) (vecSourceFaceIx m) (vecTargetFaceIx m) (vecMask m).

Definition set_nodes {Real} (m : Mesh Real) (v : NodeVector Real) : Mesh Real :=
  mkMesh (strFileName m) v (faces m) (edgemap m) (revnodearray m)
    (vecFaceArea m) (vecSourceFaceIx m) (vecTargetFaceIx m) (vecMask m).

Definition set_faces {Real} (m : Mesh Real) (v : list Face) : Mesh Real :=
  mkMesh (strFileName m) (nodes m) v (edgemap m) (revnodearray m)
    (vecFaceArea m) (vecSourceFaceIx m) (vecTargetFaceIx m) (vecMask m).

Definition set_edgemap {Real} (m : Mesh Real) (v : gmap (Z * Z) FacePair)
  : Mesh Real :=
  mkMesh (strFileName m) (nodes m) (faces m) v (revnodearray m)
    (vecFaceArea m) (vecSourceFaceIx m) (vecTargetFaceIx m) (vecMask m).

Definition set_revnodearray {Real} (m : Mesh Real) (v : list (gset Z))
  : Mesh Real :=
  mkMesh (strFileName m) (nodes m) (faces m) (edgemap m) v
    (vecFaceArea m) (vecSourceFaceIx m) (vecTargetFaceIx m) (vecMask m).

Definition set_vecFaceArea {Real} (m : Mesh Real) (v : list Real) : Mesh Real :=
  mkMesh (strFileName m) (nodes m) (faces m) (edgemap m) (revnodearray m)
    v (vecSourceFaceIx m) (vecTargetFaceIx m) (vecMask m).

Definition set_vecSourceFaceIx {Real} (m : Mesh Real) (v : list Z) : Mesh Real :=
  mkMesh (strFileName m) (nodes m) (faces m) (edgemap m) (revnodearray m)
    (vecFaceArea m) v (vecTargetFaceIx m) (vecMask m).

Definition set_vecTargetFaceIx {Real} (m : Mesh Real) (v : list Z) : Mesh Real :=
  mkMesh (strFileName m) (nodes m) (faces m) (edgemap m) (revnodearray m)
    (vecFaceArea m) (vecSourceFaceIx m) v (vecMask m).

Definition set_vecMask {Real} (m : Mesh Real) (v : list Z) : Mesh Real :=
  mkMesh (strFileName m) (nodes m) (faces m) (edgemap m) (revnodearray m)
    (vecFaceArea m) (vecSourceFaceIx m) (vecTargetFaceIx m) v.

(** [std::vector::resize]: keeps a prefix, or pads with [d]. *)
Definition resize {A} (n : nat) (d : A) (l : list A) : list A :=
  take n l ++ replicate (n - length l) d.

(** The faces of a list together with their positions, [int i]. *)
Definition indexed {A} (l : list A) : list (Z * A) :=
  zip (map Z.of_nat (seq 0 (length l))) l.

(** ** Topology builder *)

Section EdgeMap.

(** The ordering of [Edge] that keys the edge map and [FacePair::AddFace]
    are declared in GridElements.h, which is not among the sources; they
    are parameters: the key under which an edge is filed, and what adding
    a face id to a pair does. *)
Variable edge_key : Edge -> Z * Z.
Variable AddFace : FacePair -> Z -> Exn FacePair.

(** The inner loop of [Mesh::ConstructEdgeMap], for face [i]. *)
Definition ConstructEdgeMap_face (i : Z) (face : Face)
    (em : gmap (Z * Z) FacePair) : Exn (gmap (Z * Z) FacePair) :=
  let nEdges := length (edges face) in
  forM (fun em k =>
      a ← Face_at face k;
      b ← Face_at face ((k + 1) mod nEdges)%nat;
      if a =? b then mret em
      else
        let edge := mkEdge a b Type_Default in
        let facepair : FacePair := [] in
        (* insert leaves an entry that is there already as it is *)
        let fp := match em !! edge_key edge with
                  | Some fp => fp
                  | None => facepair
                  end in
        (* iter->second.AddFace(i) *)
        fp' ← AddFace fp i;
        mret (<[edge_key edge := fp']> em))
    (seq 0 nEdges) em.

Definition ConstructEdgeMap {Real} (m : Mesh Real) : Exn (Mesh Real) :=
  (* edgemap.clear() *)
  let m := set_edgemap m ∅ in
  em ← forM (fun em '(i, face) => ConstructEdgeMap_face i face em)
         (indexed (faces m)) (edgemap m);
  mret (set_edgemap m em).

End EdgeMap.

(** Modelled from the spec: the edge map records "the face's id as
    incident to that directed edge, keyed by (origin,destination)", and
    "does not enforce an at-most-2-incident-faces cap". *)
Definition edge_key_directed (e : Edge) : Z * Z := (node0 e, node1 e).

Definition AddFace_uncapped (fp : FacePair) (ixFace : Z) : Exn FacePair :=
  Ok (fp ++ [ixFace]).

(** [revnodearray[ixNode].insert(i)] *)
Definition revnodearray_insert (rev : list (gset Z)) (ixNode i : Z)
  : Exn (list (gset Z)) :=
  if ixNode <? 0 then Err (OutOfBounds "revnodearray")
  else match rev !! Z.to_nat ixNode with
       | Some s => Ok (<[Z.to_nat ixNode := {[i]} ∪ s]> rev)
       | None => Err (OutOfBounds "revnodearray")
       end.

Definition ConstructReverseNodeArray {Real} (m : Mesh Real) : Exn (Mesh Real) :=
  (* Initialize the object *)
  let rev := resize (length (nodes m)) ∅ (revnodearray m) in
  let rev := map (fun _ : gset Z => ∅) rev in
  (* Build set for each node *)
  rev ← forM (fun rev '(i, face) =>
           forM (fun rev e => revnodearray_insert rev (node0 e) i)
             (edges face) rev)
         (indexed (faces m)) rev;
  mret (set_revnodearray m rev).

(** *** Test data: the cube *)

(** The six faces of a cube over its eight corners, each wound
    counter-clockwise as seen from outside. *)
Definition quad (a b c d : Z) : Face :=
  mkFace [ mkEdge a b Type_Default; mkEdge b c Type_Default;
           mkEdge c d Type_Default; mkEdge d a Type_Default ].

Definition cube_faces : list Face :=
  [ quad 0 1 2 3; quad 4 7 6 5; quad 0 4 5 1;
    quad 1 5 6 2; quad 2 6 7 3; quad 3 7 4 0 ].

Definition cube_mesh : Mesh float :=
  set_faces
    (set_nodes empty_mesh (replicate 8 (mkNode 0%float 0%float 0%float)))
    cube_faces.

(** ** Face areas *)

(** Element access of a [std::vector], read and write. *)
Definition vec_get {A} (what : string) (v : list A) (i : nat) : Exn A :=
  match v !! i with
  | Some a => Ok a
  | None => Err (OutOfBounds what)
  end.

Definition vec_put {A} (what : string) (v : list A) (i : nat) (a : A)
  : Exn (list A) :=
  if (i <? length v)%nat then Ok (<[i := a]> v) else Err (OutOfBounds what).

Definition Jump : nat := 10.

Record AreaResult (Real : Type) := mkAreaResult {
  area_mesh : Mesh Real;        (* the mesh, its vecFaceArea filled in *)
  area_total : Real;            (* the value returned *)
  area_small : Z                (* nCount, the number announced in the warning *)
}.
Arguments mkAreaResult {Real}.
Arguments area_mesh {Real} a.
Arguments area_total {Real} a.
Arguments area_small {Real} a.

Section FaceAreas.
Context {Real : Type} `{RealArith Real}.

(** [GaussQuadrature::GetPoints] is defined in GaussQuadrature.cpp, which
    is not among the sources: the points and the weights of the rule of
    order 6 on the unit interval are parameters. *)
Variable dG : list Real.
Variable dW : list Real.

(** The term that one pair of quadrature points adds to the area of a
    triangle of the fan. *)
Definition quadrature_term (node1 node2 node3 : Node Real) (p q : nat) : Real :=
  let dA := nth p dG r_zero in
  let dB := nth q dG r_zero in
  let dF := mkNode
    ((r_one - dB) * ((r_one - dA) * x node1 + dA * x node2) + dB * x node3)%real
    ((r_one - dB) * ((r_one - dA) * y node1 + dA * y node2) + dB * y node3)%real
    ((r_one - dB) * ((r_one - dA) * z node1 + dA * z node2) + dB * z node3)%real in
  let dDaF := mkNode
    ((r_one - dB) * (x node2 - x node1))%real
    ((r_one - dB) * (y node2 - y node1))%real
    ((r_one - dB) * (z node2 - z node1))%real in
  let dDbF := mkNode
    (- (r_one - dA) * x node1 - dA * x node2 + x node3)%real
    (- (r_one - dA) * y node1 - dA * y node2 + y node3)%real
    (- (r_one - dA) * z node1 - dA * z node2 + z node3)%real in
  let dR := r_sqrt (x dF * x dF + y dF * y dF + z dF * z dF)%real in
  let dDaG := mkNode
    (x dDaF * (y dF * y dF + z dF * z dF)
     - x dF * (y dDaF * y dF + z dDaF * z dF))%real
    (y dDaF * (x dF * x dF + z dF * z dF)
     - y dF * (x dDaF * x dF + z dDaF * z dF))%real
    (z dDaF * (x dF * x dF + y dF * y dF)
     - z dF * (x dDaF * x dF + y dDaF * y dF))%real in
  let dDbG := mkNode
    (x dDbF * (y dF * y dF + z dF * z dF)
     - x dF * (y dDbF * y dF + z dDbF * z dF))%real
    (y dDbF * (x dF * x dF + z dF * z dF)
     - y dF * (x dDbF * x dF + z dDbF * z dF))%real
    (z dDbF * (x dF * x dF + y dF * y dF)
     - z dF * (x dDbF * x dF + y dDbF * y dF))%real in
  let dDenomTerm := (r_one / (dR * dR * dR))%real in
  let dDaG := mkNode (x dDaG * dDenomTerm)%real (y dDaG * dDenomTerm)%real
                     (z dDaG * dDenomTerm)%real in
  let dDbG := mkNode (x dDbG * dDenomTerm)%real (y dDbG * dDenomTerm)%real
                     (z dDbG * dDenomTerm)%real in
  (* Cross product gives local Jacobian *)
  let nodeCross := CrossProduct dDaG dDbG in
  let dJacobian :=
    r_sqrt (x nodeCross * x nodeCross + y nodeCross * y nodeCross
            + z nodeCross * z nodeCross)%real in
  (nth p dW r_zero * nth q dW r_zero * dJacobian)%real.

Definition CalculateFaceAreaQuadratureMethod (face : Face)
    (nodes : NodeVector Real) : Exn Real :=
  let nTriangles := (length (edges face) - 2)%nat in
  (* Loop over all sub-triangles of this Face *)
  forM (fun dFaceArea j =>
      ix1 ← Face_at face 0;
      node1 ← node_at nodes ix1;
      ix2 ← Face_at face (j + 1);
      node2 ← node_at nodes ix2;
      ix3 ← Face_at face (j + 2);
      node3 ← node_at nodes ix3;
      (* Calculate area at quadrature node *)
      mret (fold_left
              (fun dFaceArea p =>
                 fold_left
                   (fun dFaceArea q =>
                      (dFaceArea + quadrature_term node1 node2 node3 p q)%real)
                   (seq 0 (length dW)) dFaceArea)
              (seq 0 (length dW)) dFaceArea))
    (seq 0 nTriangles) r_zero.

Definition CalculateFaceArea (face : Face) (nodes : NodeVector Real) : Exn Real :=
  CalculateFaceAreaQuadratureMethod face nodes.

(** The loop over [j]: adds the entries that follow [ixRef] to entry [i],
    and breaks at the end of the array. *)
Fixpoint accumulate_block (v : list Real) (i ixRef : nat) (js : list nat)
  : Exn (list Real) :=
  match js with
  | [] => Ok v
  | j :: js' =>
      if (length v <=? ixRef + j)%nat then Ok v
      else
        a ← vec_get "vecFaceAreaBak" v i;
        b ← vec_get "vecFaceAreaBak" v (ixRef + j);
        v' ← vec_put "vecFaceAreaBak" v i (a + b)%real;
        accumulate_block v' i ixRef js'
  end.

(** One round of the [for (;;)] loop: every block of [Jump] entries is
    summed into the entry of the block's number, in place, and the array
    is cut down to the number of blocks. *)
Definition collapse_round (v : list Real) : Exn (list Real) :=
  let nBlocks := ((length v - 1) / Jump + 1)%nat in
  v' ← forM (fun v i =>
         let ixRef := (Jump * i)%nat in
         a ← vec_get "vecFaceAreaBak" v ixRef;
         v ← vec_put "vecFaceAreaBak" v i a;
         accumulate_block v i ixRef (seq 1 (Jump - 1)))
       (seq 0 nBlocks) v;
  mret (resize nBlocks r_zero v').

(** The [for (;;)] loop, with a bound on the number of rounds. *)
Fixpoint collapse (rounds : nat) (v : list Real) : option (Exn Real) :=
  match rounds with
  | O => None
  | S rounds' =>
      if (length v =? 1)%nat then Some (vec_get "vecFaceAreaBak" v 0%nat)
      else match collapse_round v with
           | Ok v' => collapse rounds' v'
           | Err e => Some (Err e)
           end
  end.

(** The areas of the faces, in the order of the faces. *)
Definition face_areas (m : Mesh Real) : Exn (list Real) :=
  mapM (fun face => CalculateFaceArea face (nodes m)) (faces m).

(** [Mesh::CalculateFaceAreas].  The flag [fContainsConcaveFaces] is not
    used by the body.  [None] stands for a loop that has not ended within
    as many rounds as there are faces. *)
Definition CalculateFaceAreas (m : Mesh Real) (fContainsConcaveFaces : bool)
  : option (Exn (AreaResult Real)) :=
  if (length (faces m) =? 0)%nat then
    Some (Ok (mkAreaResult (set_vecFaceArea m []) r_zero 0))
  else
    (* Calculate the area of each Face *)
    match face_areas m with
    | Err e => Some (Err e)
    | Ok areas =>
        let nCount :=
          Z.of_nat (length (filter (fun a => (a <? r_lit 1 (-13))%real = true)
                              areas)) in
        let m := set_vecFaceArea m areas in
        (* Calculate accumulated area carefully *)
        match collapse (S (length areas)) areas with
        | Some (Ok total) => Some (Ok (mkAreaResult m total nCount))
        | Some (Err e) => Some (Err e)
        | None => None
        end
    end.

(** The naive sum, from left to right. *)
Definition linear_sum (areas : list Real) : Real :=
  fold_left r_add areas r_zero.

(** The sum of a list, and the sum of the [k]-th block of [Jump]
    entries. *)
Definition total (l : list Real) : Real := fold_right r_add r_zero l.

Definition block_sum (v : list Real) (k : nat) : Real :=
  total (take Jump (drop (Jump * k) v)).

End FaceAreas.

(** *** Test data *)

(** A mesh of [n] octant triangles, one more with a face that names a
    node the mesh does not have, and the Gauss rule of two points on the
    unit interval. *)
Definition octant_copies (n : nat) : Mesh float :=
  set_faces (set_nodes empty_mesh octant_nodes) (replicate n octant_face).

Definition octant_stray : Mesh float :=
  set_faces (set_nodes empty_mesh octant_nodes)
    [ octant_face;
      mkFace [ mkEdge 0 1 Type_Default; mkEdge 1 5 Type_Default;
               mkEdge 5 0 Type_Default ] ].

Definition two_point_dG : list float :=
  [ 0.21132486540518713%float; 0.78867513459481287%float ].
Definition two_point_dW : list float := [ 0.5%float; 0.5%float ].

Definition area_view (r : option (Exn (AreaResult float)))
  : option (Exn (float * Z)) :=
  option_map (fun r => match r with
                       | Ok a => Ok (area_total a, area_small a)
                       | Err e => Err e
                       end) r.

(** Modelled from the spec: kdtree.cpp is not among the sources.  The
    index is "a 3-D index over node coordinates supporting find nearest
    within radius and find-or-insert"; a tree is modelled by its entries,
    a position and the payload stored with it, in the order of
    insertion. *)
Abbreviation kdtree Real := (list (Node Real * Z)).


(** ** Coincident nodes *)

Section CoincidentNodes.
Context {Real : Type} `{RealArith Real}.

(** ** The kd-tree *)

Definition kd_create : kdtree Real := [].

Definition kd_insert3 (kdt : kdtree Real) (pos : Node Real) (data : Z) : kdtree Real :=
  kdt ++ [(pos, data)].

Definition dist_sq (a b : Node Real) : Real :=
  ((x a - x b) * (x a - x b) + (y a - y b) * (y a - y b)
   + (z a - z b) * (z a - z b))%real.

(** Modelled from the spec: [kd_nearest3] answers the query for the
    "nearest neighbor among indexed uniques so far": an entry of least
    distance to [pos], and nothing for an empty tree. *)
Definition kd_nearest3 (kdt : kdtree Real) (pos : Node Real) : option (Node Real * Z) :=
  match kdt with
  | [] => None
  | e :: rest =>
      Some (fold_left
              (fun best e' =>
                 if (dist_sq (fst e') pos <? dist_sq (fst best) pos)%real
                 then e' else best)
              rest e)
  end.

(** Modelled from the spec: [kd_nearest_range3] answers with the entries
    "within a fixed minimum-spacing radius" of [pos]. *)
Definition kd_nearest_range3 (kdt : kdtree Real) (pos : Node Real) (range : Real)
  : list (Node Real * Z) :=
  filter (fun e => (dist_sq (fst e) pos <=? range * range)%real = true) kdt.

(** ** Mesh::RemoveCoincidentNodes *)

(** The state of the pass: the tree, [vecNewNodeIndex] and [vecUniques]. *)
Record DedupState := mkDedupState {
  kdt : kdtree Real;
  vecNewNodeIndex : list Z;
  vecUniques : list Z
}.

(** The body of the loop over [k]. *)
Definition RemoveCoincidentNodes_body (nodes : NodeVector Real)
    (st : DedupState) (k : nat) : Exn DedupState :=
  node ← vec_get "nodes" nodes k;
  match kd_nearest3 (kdt st) node with
  | None => Err (Exception "kd_nearest3() failed")
  | Some (nodeNearest, ixNodeNearestNewIx) =>
      let nodeDelta := Node_sub node nodeNearest in
      if (Magnitude nodeDelta <? ReferenceTolerance)%real then
        Ok (mkDedupState (kdt st)
              (vecNewNodeIndex st ++ [to_int ixNodeNearestNewIx])
              (vecUniques st))
      else
        let n := Z.of_nat (length (vecUniques st)) in
        Ok (mkDedupState (kd_insert3 (kdt st) node n)
              (vecNewNodeIndex st ++ [to_int n])
              (vecUniques st ++ [to_int (Z.of_nat k)]))
  end.

(** An element of a vector of [int]s at an [int] index. *)
Definition int_at (what : string) (v : list Z) (ix : Z) : Exn Z :=
  if ix <? 0 then Err (OutOfBounds what) else vec_get what v (Z.to_nat ix).

Definition RemoveCoincidentNodes (m : Mesh Real) : Exn (Mesh Real) :=
  (* Use kdtree to find shortest distance to other nodes *)
  let kdt := kd_create in
  n0 ← vec_get "nodes[0]" (nodes m) 0%nat;
  let st := mkDedupState (kd_insert3 kdt n0 0) [0] [0] in
  st ← forM (RemoveCoincidentNodes_body (nodes m))
         (seq 1 (length (nodes m) - 1)) st;
  (* Number of uniques *)
  if (length (vecUniques st) =? length (nodes m))%nat then Ok m
  else
    (* Remove duplicates from nodes vector *)
    let nodesOld := nodes m in
    nodes' ← mapM (fun u =>
                 if u <? 0 then Err (OutOfBounds "nodesOld")
                 else vec_get "nodesOld" nodesOld (Z.to_nat u))
               (vecUniques st);
    (* Adjust node indices in Faces *)
    faces' ← mapM (fun face =>
                 edges' ← mapM (fun edge =>
                     e0 ← int_at "vecNewNodeIndex" (vecNewNodeIndex st) (node0 edge);
                     e1 ← int_at "vecNewNodeIndex" (vecNewNodeIndex st) (node1 edge);
                     mret (mkEdge e0 e1 (type edge)))
                   (edges face);
                 mret (mkFace edges'))
               (faces m);
    Ok (set_faces (set_nodes m nodes') faces').

(** Every node index of every face edge is an index into a node list of
    length [n]. *)
Definition faces_in_range (n : nat) (faces : list Face) : Prop :=
  Forall (fun face =>
            Forall (fun edge => 0 <= node0 edge < Z.of_nat n
                                /\ 0 <= node1 edge < Z.of_nat n)
              (edges face))
    faces.

(** What holds of the state of the pass once the nodes before [k] have
    been gone through. *)
Record dedup_invariant (nodes : NodeVector Real) (k : nat) (st : DedupState)
  : Prop := mkDedupInvariant {
  inv_new_length : length (vecNewNodeIndex st) = k;
  inv_tree_length : length (kdt st) = length (vecUniques st);
  inv_uniques_bound : (1 <= length (vecUniques st) <= k)%nat;
  inv_uniques_all :
    length (vecUniques st) = k -> vecUniques st = map Z.of_nat (seq 0 k);
  inv_tree :
    forall j u, vecUniques st !! j = Some u ->
      0 <= u < Z.of_nat k
      /\ exists p, nodes !! Z.to_nat u = Some p
                   /\ kdt st !! j = Some (p, Z.of_nat j);
  inv_new_range :
    forall i v, vecNewNodeIndex st !! i = Some v ->
      0 <= v < Z.of_nat (length (vecUniques st));
  inv_spacing :
    forall i j p q di dj, (i < j)%nat ->
      kdt st !! i = Some (p, di) -> kdt st !! j = Some (q, dj) ->
      (Magnitude (Node_sub q p) <? ReferenceTolerance)%real = false
}.


End CoincidentNodes.

(** *** The value of a double *)



(** *** Test data *)




(** A triangle whose third corner repeats the first, in binary64 and in
    exact arithmetic. *)
Definition repeated_corner_mesh : Mesh float :=
  set_faces
    (set_nodes empty_mesh
       [ mkNode 1%float 0%float 0%float; mkNode 0%float 1%float 0%float;
         mkNode 1%float 0%float 0%float ])
    [ mkFace [ mkEdge 0 1 Type_Default; mkEdge 1 2 Type_Default;
               mkEdge 2 0 Type_Default ] ].


(** ** NodeTree *)

Record NodeTree (Real : Type) := mkNodeTree {
  m_minimum_spacing : Real;
  m_kdtree : kdtree Real;
  m_size : Z
}.
Arguments mkNodeTree {Real}.
Arguments m_minimum_spacing {Real} _.
Arguments m_kdtree {Real} _.
Arguments m_size {Real} _.

Section NodeTreeOps.
Context {Real : Type} `{RealArith Real}.

(** The constructor. *)
Definition NodeTree_new (minimum_spacing : Real) : NodeTree Real :=
  mkNodeTree minimum_spacing kd_create 0.

(** The loop of [NodeTree::find] over the result set: the running
    minimum of the payloads, read as [size_t]. *)
Definition find_minimal (res : list (Node Real * Z)) (iMinimalIndex : Z) : Z :=
  fold_left (fun iMinimalIndex e =>
               let j := to_size_t (snd e) in
               if j <? iMinimalIndex then j else iMinimalIndex)
    res iMinimalIndex.

(** [NodeTree::find].

    Modelled from the spec: [_ASSERT] is a macro of Exception.h, which is
    not among the sources; invariant errors are "fatal, signal internal
    contract violations": a failed assertion is the error
    [AssertionFailure]. *)
Definition NodeTree_find (t : NodeTree Real) (node : Node Real) : Exn Z :=
  let kdresNearestRange :=
    kd_nearest_range3 (m_kdtree t) node (m_minimum_spacing t) in
  let nResSize := Z.of_nat (length kdresNearestRange) in
  if nResSize =? 0 then Ok (to_size_t InvalidNode)
  else
    let iMinimalIndex := find_minimal kdresNearestRange (to_size_t INT_MAX) in
    if iMinimalIndex =? to_size_t INT_MAX then Err AssertionFailure
    else Ok iMinimalIndex.

(** [NodeTree::find_or_insert]: the index returned and the tree
    afterwards. *)
Definition NodeTree_find_or_insert (t : NodeTree Real) (node : Node Real)
    (index : Z) : Exn (Z * NodeTree Real) :=
  r ← NodeTree_find t node;
  let findindex := to_int r in
  if negb (to_size_t findindex =? to_size_t InvalidNode) then
    Ok (to_size_t findindex, t)
  else
    Ok (index,
        mkNodeTree (m_minimum_spacing t)
          (kd_insert3 (m_kdtree t) node index)
          (m_size t + 1)).

(** A sequence of calls of [find_or_insert], starting from [t]. *)
Definition insert_all (t : NodeTree Real) (points : list (Node Real * Z))
  : Exn (NodeTree Real) :=
  forM (fun t '(node, index) =>
          r ← NodeTree_find_or_insert t node index;
          mret (snd r))
    points t.

(** The indices stored with the points that lie within the minimum
    spacing of [node]. *)
Definition indices_in_range (t : NodeTree Real) (node : Node Real) : list Z :=
  map snd (kd_nearest_range3 (m_kdtree t) node (m_minimum_spacing t)).

(** [i] is the smallest element of [l]. *)
Definition is_smallest (i : Z) (l : list Z) : Prop :=
  i ∈ l /\ forall j, j ∈ l -> i <= j.

End NodeTreeOps.

(** *** Test data *)

Definition axis_x : Node float := mkNode 1%float 0%float 0%float.
Definition axis_y : Node float := mkNode 0%float 1%float 0%float.
Definition axis_z : Node float := mkNode 0%float 0%float 1%float.

(** Three insertions, the third at the place of the first. *)
Definition three_points : list (Node float * Z) :=
  [ (axis_x, 0); (axis_y, 1); (axis_x, 2) ].

(** ** Mesh::Validate *)

Section Validation.
Context {Real : Type} `{RealArith Real}.

(** The edges of a face with their positions, starting from position
    [jStart] and going round once. *)
Definition edges_round_from (face : Face) (jStart : nat) : list (nat * Edge) :=
  let ixs := zip (seq 0 (length (edges face))) (edges face) in
  drop jStart ixs ++ take jStart ixs.

(** The second [for (;;)] loop: [jNext] runs from its start position over
    the zero edges, wrapping round at the end; coming back to the start
    position is the exception. *)
Fixpoint next_nonzero_edge (candidates : list (nat * Edge)) : Exn nat :=
  match candidates with
  | [] => Err (Exception "Mesh validation failed: No edge information on Face")
  | (jNext, e) :: rest =>
      if node0 e =? node1 e then next_nonzero_edge rest else Ok jNext
  end.

(** The checks made at the non-zero edge [j] of a face. *)
Definition Validate_edge (nodes : NodeVector Real) (face : Face) (j : nat)
  : Exn unit :=
  let nEdges := length (edges face) in
  (* Find the next non-zero edge *)
  jNext ← next_nonzero_edge (edges_round_from face ((j + 1) mod nEdges));
  (* Get edges *)
  edge0 ← vec_get "face.edges" (edges face) j;
  edge1 ← vec_get "face.edges" (edges face) ((j + 1) mod nEdges);
  if negb (node1 edge0 =? node0 edge1) then
    Err (Exception "Mesh validation failed: Edge cyclicity error")
  else
    n0 ← node_at nodes (node0 edge0);
    n1 ← node_at nodes (node1 edge0);
    n2 ← node_at nodes (node1 edge1);
    (* Vectors along edges *)
    let nodeD1 := Node_sub n0 n1 in
    let nodeD2 := Node_sub n2 n1 in
    (* Compute cross-product *)
    let nodeCross := CrossProduct nodeD1 nodeD2 in
    (* Dot cross product with radial vector *)
    let dDot := DotProduct n1 nodeCross in
    if (dDot >? r_zero)%real then
      Err (Exception "Mesh validation failed: Clockwise or concave face detected")
    else Ok tt.

(** The loop over [j].  The first [for (;;)] loop moves [j] past zero
    edges and the loop statement moves it past the edge just checked, so
    that every non-zero edge is checked once, in order; [rest] holds the
    edges from position [j] on. *)
Fixpoint Validate_edges (nodes : NodeVector Real) (face : Face)
    (rest : list Edge) (j : nat) : Exn unit :=
  match rest with
  | [] => Ok tt
  | e :: rest' =>
      if node0 e =? node1 e then Validate_edges nodes face rest' (S j)
      else
        _ ← Validate_edge nodes face j;
        Validate_edges nodes face rest' (S j)
  end.

(** [Mesh::Validate].  The message for a node of non-unit magnitude
    comes without the numbers it prints, and the dump that [printf]
    writes before the last exception is left out. *)
Definition Validate (m : Mesh Real) : Exn unit :=
  (* Valid that Nodes have magnitude 1 *)
  _ ← forM (fun _ node =>
          let dMag := Magnitude node in
          if (r_fabs (dMag - r_one) >? ReferenceTolerance)%real then
            Err (Exception "Mesh validation failed: Node of non-unit magnitude detected")
          else Ok tt)
        (nodes m) tt;
  (* Validate that edges are oriented counter-clockwise *)
  forM (fun _ face => Validate_edges (nodes m) face (edges face) 0%nat)
    (faces m) tt.

(** *** The validator as the design document words it *)

(** The checks at the non-zero edge [j], made against the next non-zero
    edge: the destination of edge [j] is the origin of that edge, and the
    corner at the node they share does not turn clockwise. *)
Definition Validate_edge_as_specified (nodes : NodeVector Real) (face : Face)
    (j : nat) : Exn unit :=
  let nEdges := length (edges face) in
  jNext ← next_nonzero_edge (edges_round_from face ((j + 1) mod nEdges));
  edge0 ← vec_get "face.edges" (edges face) j;
  edge1 ← vec_get "face.edges" (edges face) jNext;
  if negb (node1 edge0 =? node0 edge1) then
    Err (Exception "Mesh validation failed: Edge cyclicity error")
  else
    n0 ← node_at nodes (node0 edge0);
    n1 ← node_at nodes (node1 edge0);
    n2 ← node_at nodes (node1 edge1);
    let dDot :=
      DotProduct n1 (CrossProduct (Node_sub n0 n1) (Node_sub n2 n1)) in
    if (dDot >? r_zero)%real then
      Err (Exception "Mesh validation failed: Clockwise or concave face detected")
    else Ok tt.

Fixpoint Validate_edges_as_specified (nodes : NodeVector Real) (face : Face)
    (rest : list Edge) (j : nat) : Exn unit :=
  match rest with
  | [] => Ok tt
  | e :: rest' =>
      if node0 e =? node1 e then
        Validate_edges_as_specified nodes face rest' (S j)
      else
        _ ← Validate_edge_as_specified nodes face j;
        Validate_edges_as_specified nodes face rest' (S j)
  end.

Definition Validate_as_specified (m : Mesh Real) : Exn unit :=
  _ ← forM (fun _ node =>
          if (r_fabs (Magnitude node - r_one) >? ReferenceTolerance)%real then
            Err (Exception "Mesh validation failed: Node of non-unit magnitude detected")
          else Ok tt)
        (nodes m) tt;
  forM (fun _ face =>
          Validate_edges_as_specified (nodes m) face (edges face) 0%nat)
    (faces m) tt.

End Validation.

(** *** Test data: the dart *)

(** The octant triangle with its edge from the y axis to the z axis bent
    inwards through (0.6, 0.48, 0.64): a quadrilateral that is
    counter-clockwise at three corners and turns clockwise at the
    fourth. *)
Definition dart_nodes : NodeVector float :=
  [ mkNode 1%float 0%float 0%float;
    mkNode 0%float 1%float 0%float;
    mkNode (r_lit 6 (-1)) (r_lit 48 (-2)) (r_lit 64 (-2));
    mkNode 0%float 0%float 1%float ].

Definition dart_mesh : Mesh float :=
  set_faces (set_nodes empty_mesh dart_nodes)
    [ mkFace [ mkEdge 0 1 Type_Default; mkEdge 1 2 Type_Default;
               mkEdge 2 3 Type_Default; mkEdge 3 0 Type_Default ] ].

(** The same dart, with a zero edge put in at the clockwise corner. *)
Definition dart_mesh_zero_edge : Mesh float :=
  set_faces (set_nodes empty_mesh dart_nodes)
    [ mkFace [ mkEdge 0 1 Type_Default; mkEdge 1 2 Type_Default;
               mkEdge 2 2 Type_Default;
               mkEdge 2 3 Type_Default; mkEdge 3 0 Type_Default ] ].

(** The octant triangle, as a mesh. *)
Definition octant_mesh : Mesh float :=
  set_faces (set_nodes empty_mesh octant_nodes) [ octant_face ].

(** The octant triangle wound the other way round. *)
Definition octant_mesh_clockwise : Mesh float :=
  set_faces (set_nodes empty_mesh octant_nodes)
    [ mkFace [ mkEdge 0 2 Type_Default; mkEdge 2 1 Type_Default;
               mkEdge 1 0 Type_Default ] ].

(** ** Grid files *)

(** The NetCDF library (netcdfcpp.h) is not among the sources.  A file is
    modelled by what the reader asks of it: its global attributes, its
    dimensions in the order of their ids, and its variables.  A variable
    carries its values both ways [NcVar::get] can hand them out, to a
    buffer of [int] and to a buffer of [double], in row-major order. *)
Inductive NcAtt :=
| AttString (s : string)        (* a text attribute *)
| AttFloat (bits : Z)           (* an attribute of type ncFloat, by its binary32 bits *)
| AttOther.                     (* an attribute of any other type *)

Record NcVar (Real : Type) := mkNcVar {
  var_dims : list (string * Z);
  var_atts : list (string * NcAtt);
  var_ints : list Z;
  var_reals : list Real
}.
Arguments mkNcVar {Real}.
Arguments var_dims {Real} _.
Arguments var_atts {Real} _.
Arguments var_ints {Real} _.
Arguments var_reals {Real} _.

Record NcFile (Real : Type) := mkNcFile {
  nc_atts : list (string * NcAtt);
  nc_dims : list (string * Z);
  nc_vars : list (string * NcVar Real)
}.
Arguments mkNcFile {Real}.
Arguments nc_atts {Real} _.
Arguments nc_dims {Real} _.
Arguments nc_vars {Real} _.

(** The first entry of a given name. *)
Fixpoint lookup_name {A} (name : string) (l : list (string * A)) : option A :=
  match l with
  | [] => None
  | (n, a) :: l' => if String.eqb n name then Some a else lookup_name name l'
  end.

Definition get_att {Real} (f : NcFile Real) (name : string) : option NcAtt :=
  lookup_name name (nc_atts f).

Definition get_dim {Real} (f : NcFile Real) (name : string) : option Z :=
  lookup_name name (nc_dims f).

Definition get_var {Real} (f : NcFile Real) (name : string)
  : option (NcVar Real) :=
  lookup_name name (nc_vars f).

Definition as_string (a : NcAtt) : string :=
  match a with
  | AttString s => s
  | _ => ""
  end.

(** [4.98f], the version of the earlier schema, as binary32 bits. *)
Definition version_4_98 : Z := 0x409f5c29.

(** [NcVar::get] into a zeroed buffer of [n] entries: where the variable
    holds fewer values, the rest of the buffer stays zero. *)
Definition read_ints {Real} (v : NcVar Real) (n : nat) : list Z :=
  resize n 0 (map to_int (var_ints v)).

Definition read_reals {Real} `{RealArith Real} (v : NcVar Real) (n : nat)
  : list Real :=
  resize n r_zero (var_reals v).

(** [%i] and a quoted [%s] of the exception messages. *)
Definition fmt_int (v : Z) : string := NilZero.string_of_int (Z.to_int v).

Definition quoted (s : string) : string :=
  String (Ascii.ascii_of_nat 34) s +:+ String (Ascii.ascii_of_nat 34) EmptyString.

(** [STLStringHelper::ToLower] (STLStringHelper.h is not among the
    sources): the letters A to Z are replaced by a to z. *)
Definition to_lower_ascii (c : Ascii.ascii) : Ascii.ascii :=
  let n := Ascii.nat_of_ascii c in
  if ((65 <=? n) && (n <=? 90))%nat then Ascii.ascii_of_nat (n + 32) else c.

Fixpoint ToLower (s : string) : string :=
  match s with
  | EmptyString => EmptyString
  | String c s' => String (to_lower_ascii c) (ToLower s')
  end.

(** *** Console output and calls *)

(** What a run of the reader leaves behind besides the mesh: the lines
    it announces and its calls of [RemoveCoincidentNodes]. *)
Inductive Event :=
| Announce (msg : string)
| Call_RemoveCoincidentNodes.

Record IO (A : Type) := mkIO { io_log : list Event; io_result : Exn A }.
Arguments mkIO {A}.
Arguments io_log {A} _.
Arguments io_result {A} _.

#[global] Instance IO_ret : MRet IO := fun A a => mkIO [] (Ok a).
#[global] Instance IO_bind : MBind IO := fun A B f m =>
  match io_result m with
  | Ok a => match f a with
            | mkIO log r => mkIO (io_log m ++ log) r
            end
  | Err e => mkIO (io_log m) (Err e)
  end.

Definition emit (e : Event) : IO unit := mkIO [e] (Ok tt).

Definition lift {A} (m : Exn A) : IO A := mkIO [] m.

Definition throw {A} (msg : string) : IO A := mkIO [] (Err (Exception msg)).

(** A run that does not call [RemoveCoincidentNodes], and a run that
    has called it whenever it ends without error. *)
Definition no_dedup_call {A} (m : IO A) : Prop :=
  Call_RemoveCoincidentNodes ∉ io_log m.

Definition dedup_called_if_ok {A} (m : IO A) : Prop :=
  is_Ok (io_result m) = true -> Call_RemoveCoincidentNodes ∈ io_log m.

(** *** Faces under construction *)

(** Modelled from the spec: the constructor of [Face] and [SetNode] are
    declared in GridElements.h, which is not among the sources.  A face
    is an "ordered sequence of Edges forming a closed cycle": a new face
    of [n] edges has no node set, and setting the node at position
    [ixLocal] sets the origin of that edge and the destination of the
    edge before it. *)
Definition Face_new (edge_count : nat) : Face :=
  mkFace (replicate edge_count (mkEdge InvalidNode InvalidNode Type_Default)).

Definition Face_SetNode (face : Face) (ixLocal : nat) (ixNode : Z) : Exn Face :=
  let nEdges := length (edges face) in
  if (ixLocal <? nEdges)%nat then
    let es := alter (fun e => mkEdge ixNode (node1 e) (type e)) ixLocal (edges face) in
    let ixPrev := ((ixLocal + nEdges - 1) mod nEdges)%nat in
    Ok (mkFace (alter (fun e => mkEdge (node0 e) ixNode (type e)) ixPrev es))
  else Err (OutOfBounds "Face::SetNode").

(** [face.edges[k].type = type] *)
Definition Face_set_type (face : Face) (k : nat) (t : Z) : Exn Face :=
  if (k <? length (edges face))%nat then
    Ok (mkFace (alter (fun e => mkEdge (node0 e) (node1 e) t) k (edges face)))
  else Err (OutOfBounds "face.edges").

(** An element of a vector at an [int] index, read and write. *)
Definition get_at {A} (what : string) (v : list A) (ix : Z) : Exn A :=
  if ix <? 0 then Err (OutOfBounds what) else vec_get what v (Z.to_nat ix).

Definition put_at {A} (what : string) (v : list A) (ix : Z) (a : A)
  : Exn (list A) :=
  if ix <? 0 then Err (OutOfBounds what) else vec_put what v (Z.to_nat ix) a.

(** The formats a grid file comes in. *)
Inductive Format := ICON | SCRIP | Exodus.

(** ** Mesh::Read *)

Section ReadGrid.
Context {Real : Type} `{RealArith Real}.

(** The cosine and the sine of <cmath>. *)
Variable r_cos : Real -> Real.
Variable r_sin : Real -> Real.

(** *** ICON *)

(** One of the three coordinate variables of an ICON file, checked and
    read into the buffer. *)
Definition ICON_coordinate (ncFile : NcFile Real) (strFile name : string)
    (nVertex : nat) : IO (list Real) :=
  match get_var ncFile name with
  | None =>
      throw ("ICON grid file " +:+ quoted strFile +:+ " missing variable "
             +:+ quoted name)
  | Some var =>
      if negb (length (var_dims var) =? 1)%nat then
        throw ("ICON grid file " +:+ quoted strFile +:+ " variable "
               +:+ quoted name +:+ " must have dimension 1")
      else if negb (String.eqb (nth 0 (map fst (var_dims var)) "") "vertex") then
        throw ("ICON grid file " +:+ quoted strFile +:+ " variable "
               +:+ quoted name +:+ " dimension 0 must have name "
               +:+ quoted "vertex")
      else mret (read_reals var nVertex)
  end.

(** The loop over the cells and the vertices of a cell. *)
Definition ICON_faces (strFile : string) (nNodes : nat)
    (lVerticesPerCell nCell : nat) (dVertexOfCellBuf : list Z)
    (faces : list Face) : Exn (list Face) :=
  forM (fun faces i =>
      forM (fun faces j =>
          let v := nth (j * nCell + i) dVertexOfCellBuf 0 in
          if (v <? 1) || (Z.of_nat nNodes <? v) then
            Err (Exception
                   ("ICON grid file " +:+ quoted strFile +:+ " vertex "
                    +:+ fmt_int (Z.of_nat j) +:+ " cell "
                    +:+ fmt_int (Z.of_nat i) +:+ " out of range ("
                    +:+ fmt_int v +:+ ")"))
          else
            face ← vec_get "faces" faces i;
            face ← Face_SetNode face j (to_int (v - 1));
            vec_put "faces" faces i face)
        (seq 0 lVerticesPerCell) faces)
    (seq 0 nCell) faces.

Definition Read_ICON (ncFile : NcFile Real) (strFile : string) (m : Mesh Real)
  : IO (Mesh Real) :=
  match get_dim ncFile "vertex" with
  | None =>
      throw ("ICON grid file " +:+ quoted strFile +:+ " missing dimension "
             +:+ quoted "vertex")
  | Some dimVertex =>
      (* the test that follows in the source looks at dimVertex again *)
      let dimCell := get_dim ncFile "cell" in
      let nVertex := Z.to_nat dimVertex in
      let nodes0 := resize nVertex (mkNode r_zero r_zero r_zero) (nodes m) in
      (* Load in x coordinates of vertices *)
      bufX ← ICON_coordinate ncFile strFile "cartesian_x_vertices" nVertex;
      let nodes1 := zip_with (fun n v => mkNode v (y n) (z n)) nodes0 bufX in
      (* Load in y coordinates of vertices *)
      bufY ← ICON_coordinate ncFile strFile "cartesian_y_vertices" nVertex;
      let nodes2 := zip_with (fun n v => mkNode (x n) v (z n)) nodes1 bufY in
      (* Load in z coordinates of vertices *)
      bufZ ← ICON_coordinate ncFile strFile "cartesian_z_vertices" nVertex;
      let nodes3 := zip_with (fun n v => mkNode (x n) (y n) v) nodes2 bufZ in
      (* Load in face vertex indices *)
      match get_var ncFile "vertex_of_cell" with
      | None =>
          throw ("ICON grid file " +:+ quoted strFile +:+ " missing variable "
                 +:+ quoted "vertex_of_cell")
      | Some varVertexOfCell =>
          if negb (length (var_dims varVertexOfCell) =? 2)%nat then
            throw ("ICON grid file " +:+ quoted strFile +:+ " variable "
                   +:+ quoted "vertex_of_cell" +:+ " must have dimension 2")
          else if negb (String.eqb
                          (nth 1 (map fst (var_dims varVertexOfCell)) "") "cell")
          then
            throw ("ICON grid file " +:+ quoted strFile +:+ " variable "
                   +:+ quoted "vertex_of_cell"
                   +:+ " dimension 1 must have name " +:+ quoted "cell")
          else
            let lVerticesPerCell :=
              Z.to_nat (nth 0 (map snd (var_dims varVertexOfCell)) 0) in
            match dimCell with
            | None => lift (Err (NullPointer "dimCell"))
            | Some dimCell =>
                let nCell := Z.to_nat dimCell in
                let faces0 :=
                  resize nCell (Face_new lVerticesPerCell) (faces m) in
                let dVertexOfCellBuf :=
                  read_ints varVertexOfCell (lVerticesPerCell * nCell) in
                faces1 ← lift (ICON_faces strFile (length nodes3)
                                 lVerticesPerCell nCell dVertexOfCellBuf faces0);
                mret (set_faces (set_nodes m nodes3) faces1)
            end
      end
  end.

(** *** SCRIP *)

(** The counter of the loop over the dimensions of the file. *)
Definition count_SCRIP_dims (dims : list (string * Z)) : Z :=
  fold_left (fun iSCRIPFormat dim =>
      let strDimName := fst dim in
      let c1 := if String.eqb strDimName "grid_size"
                then iSCRIPFormat + 1 else iSCRIPFormat in
      let c2 := if String.eqb strDimName "grid_corners" then c1 + 1 else c1 in
      if String.eqb strDimName "grid_rank" then c2 + 1 else c2)
    dims 0.

(** Whether the units attribute of a corner variable says degrees. *)
Definition units_are_degrees (var : NcVar Real) : bool :=
  match lookup_name "units" (var_atts var) with
  | Some att => String.eqb (ToLower (as_string att)) "degrees"
  | None => false
  end.

(** The node of a corner, from its longitude and latitude. *)
Definition SCRIP_corner (fConvertLonToRadians fConvertLatToRadians : bool)
    (dLon dLat : Real) : Node Real :=
  let dLon := if fConvertLonToRadians
              then (dLon / r_lit 180 0 * r_pi)%real else dLon in
  let dLat := if fConvertLatToRadians
              then (dLat / r_lit 180 0 * r_pi)%real else dLat in
  let dLat := if (dLat >? r_lit 5 (-1) * r_pi)%real
              then (r_lit 5 (-1) * r_pi)%real else dLat in
  let dLat := if (dLat <? r_lit (-5) (-1) * r_pi)%real
              then (r_lit (-5) (-1) * r_pi)%real else dLat in
  mkNode (r_cos dLon * r_cos dLat)%real (r_sin dLon * r_cos dLat)%real
         (r_sin dLat).

(** The loop over the faces of a SCRIP file and their corners. *)
Definition SCRIP_faces (nGridSize nGridCorners : nat)
    (fConvertLonToRadians fConvertLatToRadians : bool)
    (dCornerLon dCornerLat : list Real) (m : Mesh Real) : Exn (Mesh Real) :=
  forM (fun m i =>
      let ixNode := (i * nGridCorners)%nat in
      (* Create a new Face *)
      faceNew ← forM (fun face j =>
                    Face_SetNode face j (to_int (Z.of_nat (ixNode + j))))
                  (seq 0 nGridCorners) (Face_new nGridCorners);
      faces' ← vec_put "faces" (faces m) i faceNew;
      (* Insert Face corners into node table *)
      nodes' ← forM (fun nodes j =>
                   let dLon := nth (i * nGridCorners + j) dCornerLon r_zero in
                   let dLat := nth (i * nGridCorners + j) dCornerLat r_zero in
                   vec_put "nodes" nodes (ixNode + j)
                     (SCRIP_corner fConvertLonToRadians fConvertLatToRadians
                        dLon dLat))
                 (seq 0 nGridCorners) (nodes m);
      mret (set_nodes (set_faces m faces') nodes'))
    (seq 0 nGridSize) m.

Definition Read_SCRIP (ncFile : NcFile Real) (strFile : string)
    (fRemoveCoincidentNodes : bool) (m : Mesh Real) : IO (Mesh Real) :=
  _ ← emit (Announce "SCRIP Format File detected");
  let dimGridSize := get_dim ncFile "grid_size" in
  let dimGridCorners := get_dim ncFile "grid_corners" in
  (* Get the grid corners *)
  match get_var ncFile "grid_corner_lat", get_var ncFile "grid_corner_lon" with
  | None, _ =>
      throw ("SCRIP Grid file " +:+ quoted strFile +:+ " is missing variable "
             +:+ quoted "grid_corner_lat")
  | Some _, None =>
      throw ("SCRIP Grid file " +:+ quoted strFile +:+ " is missing variable "
             +:+ quoted "grid_corner_lon")
  | Some varGridCornerLat, Some varGridCornerLon =>
      match dimGridSize, dimGridCorners with
      | Some dimGridSize, Some dimGridCorners =>
          let nGridSize := Z.to_nat (to_int dimGridSize) in
          let nGridCorners := Z.to_nat (to_int dimGridCorners) in
          let dCornerLat :=
            read_reals varGridCornerLat (nGridSize * nGridCorners) in
          let dCornerLon :=
            read_reals varGridCornerLon (nGridSize * nGridCorners) in
          let m := set_faces m (resize nGridSize (Face_new 0) (faces m)) in
          let m := set_nodes m
                     (resize (nGridSize * nGridCorners)
                        (mkNode r_zero r_zero r_zero) (nodes m)) in
          (* Check for units attribute; if "degrees" then convert to radians *)
          let fConvertLonToRadians := units_are_degrees varGridCornerLon in
          let fConvertLatToRadians := units_are_degrees varGridCornerLat in
          (* Load mask variable *)
          m ← match get_var ncFile "grid_imask" with
              | None => mret m
              | Some varMask =>
                  if negb (length (var_dims varMask) =? 1)%nat then
                    throw ("Unknown format of variable " +:+ quoted "grid_imask"
                           +:+ ": More than one dimension")
                  else if negb (nth 0 (map snd (var_dims varMask)) 0
                                =? Z.of_nat nGridSize) then
                    throw ("Unknown format of variable " +:+ quoted "grid_imask"
                           +:+ ": Incorrect first dimension size")
                  else mret (set_vecMask m (read_ints varMask nGridSize))
              end;
          m ← lift (SCRIP_faces nGridSize nGridCorners
                      fConvertLonToRadians fConvertLatToRadians
                      dCornerLon dCornerLat m);
          (* SCRIP does not reference a node table, so we must remove
             coincident nodes. *)
          m ← (if fRemoveCoincidentNodes then
                 _ ← emit (Announce "Removing coincident nodes");
                 _ ← emit Call_RemoveCoincidentNodes;
                 lift (RemoveCoincidentNodes m)
               else mret m);
          (* Output size *)
          _ ← emit (Announce ("Mesh size: Nodes ["
                              +:+ fmt_int (Z.of_nat (length (nodes m)))
                              +:+ "] Elements ["
                              +:+ fmt_int (Z.of_nat (length (faces m))) +:+ "]"));
          mret m
      | _, _ => lift (Err (NullPointer "dimGridSize"))
      end
  end.

(** *** Exodus *)

(** Loading the parent variable of a block, for the A grid
    ([vecSourceFaceIx]) and for the B grid ([vecTargetFaceIx]) alike:
    [vecFaceIx] is the parent array as it stands, and the result is the
    array and the buffer [iParent]. *)
Definition Exodus_load_parent (ncFile : NcFile Real) (strFile szParent : string)
    (nTotalElementCount nElementCount : nat) (vecFaceIx : list Z)
  : Exn (list Z * list Z) :=
  match get_var ncFile szParent with
  | None =>
      if negb (length vecFaceIx =? 0)%nat then
        Err (Exception
               ("Exodus Grid file " +:+ quoted strFile
                +:+ " is missing variable " +:+ quoted szParent))
      else Ok (vecFaceIx, replicate nElementCount 0)
  | Some varParent =>
      let vecFaceIx :=
        if (length vecFaceIx =? 0)%nat
        then resize nTotalElementCount 0 vecFaceIx else vecFaceIx in
      Ok (vecFaceIx, read_ints varParent nElementCount)
  end.

(** The names of the parent variables of block [n]. *)
Definition szParentA (legacy : bool) (n : nat) : string :=
  if legacy then "face_source_1"
  else "el_parent_a" +:+ fmt_int (Z.of_nat n + 1).

Definition szParentB (legacy : bool) (n : nat) : string :=
  if legacy then "face_source_2"
  else "el_parent_b" +:+ fmt_int (Z.of_nat n + 1).

(** Put local data into global structures: the loop over the elements of
    a block. *)
Definition Exodus_assemble (nTotalElementCount : Z)
    (nElementCount nNodesPerElement : nat)
    (iConnect iGlobalId iEdgeType iParentA iParentB : list Z)
    (m : Mesh Real) : Exn (Mesh Real) :=
  forM (fun m i =>
      let gid := nth i iGlobalId 0 in
      if to_int (gid - 1) >=? nTotalElementCount then
        Err (Exception
               ("global_id " +:+ fmt_int gid +:+ " out of range [1,"
                +:+ fmt_int nTotalElementCount +:+ "]"))
      else
        faces' ← put_at "faces" (faces m) (to_int (gid - 1))
                   (Face_new nNodesPerElement);
        faces' ← forM (fun faces k =>
                     face ← get_at "faces" faces (to_int (gid - 1));
                     face ← Face_SetNode face k
                              (to_int (nth (i * nNodesPerElement + k) iConnect 0 - 1));
                     face ← Face_set_type face k
                              (nth (i * nNodesPerElement + k) iEdgeType 0);
                     put_at "faces" faces (to_int (gid - 1)) face)
                   (seq 0 nNodesPerElement) faces';
        let m := set_faces m faces' in
        m ← (if negb (length (vecSourceFaceIx m) =? 0)%nat then
               v ← put_at "vecSourceFaceIx" (vecSourceFaceIx m)
                     (to_int (gid - 1)) (to_int (nth i iParentA 0 - 1));
               mret (set_vecSourceFaceIx m v)
             else mret m);
        (if negb (length (vecTargetFaceIx m) =? 0)%nat then
           v ← put_at "vecTargetFaceIx" (vecTargetFaceIx m)
                 (to_int (gid - 1)) (to_int (nth i iParentB 0 - 1));
           mret (set_vecTargetFaceIx m v)
         else mret m))
    (seq 0 nElementCount) m.

(** The body of the loop over all blocks; [legacy] says that the version
    of the file is 4.98. *)
Definition Exodus_block (ncFile : NcFile Real) (strFile : string)
    (legacy : bool) (nTotalElementCount : Z) (m : Mesh Real) (n : nat)
  : Exn (Mesh Real) :=
  let suffix := fmt_int (Z.of_nat n + 1) in
  (* Determine number of nodes per element in this block *)
  let szNodesPerElement := "num_nod_per_el" +:+ suffix in
  match get_dim ncFile szNodesPerElement with
  | None =>
      Err (Exception ("Exodus Grid file " +:+ quoted strFile
                      +:+ " is missing dimension " +:+ quoted szNodesPerElement))
  | Some dimNodesPerElement =>
  let nNodesPerElement := Z.to_nat (to_int dimNodesPerElement) in
  (* Number of elements in block *)
  let szElementsInBlock := "num_el_in_blk" +:+ suffix in
  match get_dim ncFile szElementsInBlock with
  | None =>
      Err (Exception ("Exodus Grid file " +:+ quoted strFile
                      +:+ " is missing dimension " +:+ quoted szElementsInBlock))
  | Some dimBlockElements =>
  let nElementCount := Z.to_nat (to_int dimBlockElements) in
  (* Load in nodes for all elements in this block *)
  let szConnect := "connect" +:+ suffix in
  match get_var ncFile szConnect with
  | None =>
      Err (Exception ("Exodus Grid file " +:+ quoted strFile
                      +:+ " is missing variable " +:+ quoted szConnect))
  | Some varConnect =>
  let iConnect := read_ints varConnect (nElementCount * nNodesPerElement) in
  (* Earlier version didn't have global_id *)
  iGlobalId ←
    (if legacy then
       Ok (map (fun i => Z.of_nat i + 1) (seq 0 nElementCount))
     else
       let szGlobalId := "global_id" +:+ suffix in
       match get_var ncFile szGlobalId with
       | None =>
           Err (Exception ("Exodus Grid file " +:+ quoted strFile
                           +:+ " is missing variable " +:+ quoted szGlobalId))
       | Some varGlobalId => Ok (read_ints varGlobalId nElementCount)
       end);
  (* Load in edge type for all elements in this block *)
  let szEdgeType := if legacy then "edge_type" else "edge_type" +:+ suffix in
  let iEdgeType :=
    match get_var ncFile szEdgeType with
    | Some varEdgeType =>
        read_ints varEdgeType (nElementCount * nNodesPerElement)
    | None => replicate (nElementCount * nNodesPerElement) 0
    end in
  (* Load in parent from A grid for all elements in this block *)
  '(vecA, iParentA) ← Exodus_load_parent ncFile strFile (szParentA legacy n)
                         (Z.to_nat nTotalElementCount) nElementCount
                         (vecSourceFaceIx m);
  let m := set_vecSourceFaceIx m vecA in
  (* Load in parent from B grid for all elements in this block *)
  '(vecB, iParentB) ← Exodus_load_parent ncFile strFile (szParentB legacy n)
                         (Z.to_nat nTotalElementCount) nElementCount
                         (vecTargetFaceIx m);
  let m := set_vecTargetFaceIx m vecB in
  (* Put local data into global structures *)
  Exodus_assemble nTotalElementCount nElementCount nNodesPerElement
    iConnect iGlobalId iEdgeType iParentA iParentB m
  end end end.

Definition Read_Exodus (ncFile : NcFile Real) (strFile : string)
    (m : Mesh Real) : IO (Mesh Real) :=
  (* Get version number *)
  match get_att ncFile "version" with
  | None =>
      throw ("Exodus Grid file " +:+ quoted strFile
             +:+ " is missing attribute " +:+ quoted "version")
  | Some (AttFloat flVersion) =>
      let legacy := flVersion =? version_4_98 in
      (* Number of nodes *)
      match get_dim ncFile "num_nodes" with
      | None =>
          throw ("Exodus Grid file " +:+ quoted strFile
                 +:+ " is missing dimension " +:+ quoted "num_nodes")
      | Some dimNodes =>
      let nNodeCount := to_int dimNodes in
      (* Determine number of blocks *)
      match get_dim ncFile "num_el_blk" with
      | None =>
          throw ("Exodus Grid file " +:+ quoted strFile
                 +:+ " is missing dimension " +:+ quoted "num_el_blk")
      | Some dimElementBlocks =>
      let nElementBlocks := to_int dimElementBlocks in
      (* Total number of elements *)
      match get_dim ncFile "num_elem" with
      | None =>
          throw ("Exodus Grid file " +:+ quoted strFile
                 +:+ " is missing dimension " +:+ quoted "num_elem")
      | Some dimElements =>
      let nTotalElementCount := to_int dimElements in
      (* Output size *)
      _ ← emit (Announce ("Mesh size: Nodes [" +:+ fmt_int nNodeCount
                          +:+ "] Elements [" +:+ fmt_int nTotalElementCount
                          +:+ "]"));
      (* Allocate faces *)
      let m := set_faces m
                 (resize (Z.to_nat nTotalElementCount) (Face_new 0) (faces m)) in
      (* Loop over all blocks *)
      m ← lift (forM (Exodus_block ncFile strFile legacy nTotalElementCount)
                  (seq 0 (Z.to_nat nElementBlocks)) m);
      (* Earlier version had incorrect parent indexing *)
      let m :=
        if legacy then
          set_vecTargetFaceIx
            (set_vecSourceFaceIx m
               (map (fun v => to_int (v + 1)) (vecSourceFaceIx m)))
            (map (fun v => to_int (v + 1)) (vecTargetFaceIx m))
        else m in
      (* Load in node array *)
      let m := set_nodes m
                 (resize (Z.to_nat nNodeCount) (mkNode r_zero r_zero r_zero)
                    (nodes m)) in
      match get_var ncFile "coord" with
      | None =>
          throw ("Exodus Grid file " +:+ quoted strFile
                 +:+ " is missing variable " +:+ quoted "coord")
      | Some varNodes =>
          let n := Z.to_nat nNodeCount in
          let dNodeCoords := read_reals varNodes (3 * n) in
          let m := set_nodes m
                     (map (fun i => mkNode (nth i dNodeCoords r_zero)
                                      (nth (n + i) dNodeCoords r_zero)
                                      (nth (2 * n + i) dNodeCoords r_zero))
                        (seq 0 n)) in
          (* Remove coincident nodes. *)
          _ ← emit Call_RemoveCoincidentNodes;
          lift (RemoveCoincidentNodes m)
      end
      end end end
  | Some _ => throw "Exodus Grid type is not of type float"
  end.

(** *** The reader *)

(** [fs] stands for the file system: the file that opens under a name,
    if one does. *)
Definition Read (fs : string -> option (NcFile Real)) (strFile : string)
    (fRemoveCoincidentNodes : bool) (m : Mesh Real) : IO (Mesh Real) :=
  (* Store the file name *)
  let m := set_strFileName m strFile in
  (* Open the NetCDF file *)
  if String.eqb strFile "" then throw "No grid file specified for reading"
  else
    match fs strFile with
    | None =>
        throw ("Unable to open grid file " +:+ quoted strFile
               +:+ " for reading")
    | Some ncFile =>
        (* Check for global attribute title = "ICON grid description" *)
        let fICON :=
          match get_att ncFile "title" with
          | Some attICON =>
              String.eqb (as_string attICON) "ICON grid description"
          | None => false
          end in
        if fICON then Read_ICON ncFile strFile m
        else
          (* Check for dimension names "grid_size", "grid_rank" and
             "grid_corners" *)
          let iSCRIPFormat := count_SCRIP_dims (nc_dims ncFile) in
          if iSCRIPFormat =? 3 then
            (* Input from a NetCDF SCRIP file *)
            Read_SCRIP ncFile strFile fRemoveCoincidentNodes m
          else
            (* Input from a NetCDF Exodus file *)
            Read_Exodus ncFile strFile m
    end.

(** *** The detection rule as the design document words it *)

Definition has_dim (ncFile : NcFile Real) (name : string) : bool :=
  existsb (fun dim => String.eqb (fst dim) name) (nc_dims ncFile).

Definition DetectFormat (ncFile : NcFile Real) : Format :=
  if match get_att ncFile "title" with
     | Some att => String.eqb (as_string att) "ICON grid description"
     | None => false
     end
  then ICON
  else if has_dim ncFile "grid_size" && has_dim ncFile "grid_corners"
          && has_dim ncFile "grid_rank"
  then SCRIP
  else Exodus.

(** The number of dimensions of a given name. *)
Definition dim_occurrences (name : string) (dims : list (string * Z)) : Z :=
  Z.of_nat (length (filter (fun dim => fst dim = name) dims)).

End ReadGrid.

(** *** Test data *)

(** An Exodus file of three nodes and one triangle, whose connectivity
    names the node 7. *)
Definition exodus_version_5 : Z := 0x40a00000.

Definition exodus_file (connect global_id : list Z) : NcFile float :=
  mkNcFile
    [ ("version", AttFloat exodus_version_5) ]
    [ ("num_nodes", 3); ("num_elem", 1); ("num_el_blk", 1);
      ("num_el_in_blk1", 1); ("num_nod_per_el1", 3) ]
    [ ("connect1",
       mkNcVar [ ("num_el_in_blk1", 1); ("num_nod_per_el1", 3) ] [] connect []);
      ("global_id1", mkNcVar [ ("num_el_in_blk1", 1) ] [] global_id []);
      ("coord",
       mkNcVar [ ("num_dim", 3); ("num_nodes", 3) ] [] []
         [ 1%float; 0%float; 0%float;
           0%float; 1%float; 0%float;
           0%float; 0%float; 1%float ]) ].

(** A file system that holds one file. *)
Definition one_file {Real} (name : string) (f : NcFile Real)
  : string -> option (NcFile Real) :=
  fun s => if String.eqb s name then Some f else None.

(** A SCRIP file of two triangles that share an edge, corners in degrees,
    in exact arithmetic. *)
Definition scrip_file : NcFile R :=
  mkNcFile []
    [ ("grid_size", 2); ("grid_corners", 3); ("grid_rank", 1) ]
    [ ("grid_corner_lat",
       mkNcVar [ ("grid_size", 2); ("grid_corners", 3) ]
         [ ("units", AttString "degrees") ] []
         [ 0%R; 0%R; 90%R; 0%R; 0%R; 90%R ]);
      ("grid_corner_lon",
       mkNcVar [ ("grid_size", 2); ("grid_corners", 3) ]
         [ ("units", AttString "degrees") ] []
         [ 0%R; 90%R; 0%R; 90%R; 180%R; 0%R ]) ].

(** An Exodus file of two blocks, a triangle and a quadrilateral, of
    which only the first has a parent variable for the A grid. *)
Definition two_block_file : NcFile float :=
  mkNcFile
    [ ("version", AttFloat exodus_version_5) ]
    [ ("num_nodes", 4); ("num_elem", 2); ("num_el_blk", 2);
      ("num_el_in_blk1", 1); ("num_nod_per_el1", 3);
      ("num_el_in_blk2", 1); ("num_nod_per_el2", 4) ]
    [ ("connect1",
       mkNcVar [ ("num_el_in_blk1", 1); ("num_nod_per_el1", 3) ] []
         [1; 2; 3] []);
      ("global_id1", mkNcVar [ ("num_el_in_blk1", 1) ] [] [1] []);
      ("el_parent_a1", mkNcVar [ ("num_el_in_blk1", 1) ] [] [1] []);
      ("connect2",
       mkNcVar [ ("num_el_in_blk2", 1); ("num_nod_per_el2", 4) ] []
         [1; 2; 3; 4] []);
      ("global_id2", mkNcVar [ ("num_el_in_blk2", 1) ] [] [2] []);
      ("coord",
       mkNcVar [ ("num_dim", 3); ("num_nodes", 4) ] [] []
         [ 1%float; 0%float; 0%float; (-1)%float;
           0%float; 1%float; 0%float; 0%float;
           0%float; 0%float; 1%float; 0%float ]) ].

(** The same two blocks, of which only the second has a parent variable
    for the A grid. *)
Definition late_parent_file : NcFile float :=
  mkNcFile
    [ ("version", AttFloat exodus_version_5) ]
    [ ("num_nodes", 4); ("num_elem", 2); ("num_el_blk", 2);
      ("num_el_in_blk1", 1); ("num_nod_per_el1", 3);
      ("num_el_in_blk2", 1); ("num_nod_per_el2", 4) ]
    [ ("connect1",
       mkNcVar [ ("num_el_in_blk1", 1); ("num_nod_per_el1", 3) ] []
         [1; 2; 3] []);
      ("global_id1", mkNcVar [ ("num_el_in_blk1", 1) ] [] [1] []);
      ("connect2",
       mkNcVar [ ("num_el_in_blk2", 1); ("num_nod_per_el2", 4) ] []
         [1; 2; 3; 4] []);
      ("global_id2", mkNcVar [ ("num_el_in_blk2", 1) ] [] [2] []);
      ("el_parent_a2", mkNcVar [ ("num_el_in_blk2", 1) ] [] [5] []);
      ("coord",
       mkNcVar [ ("num_dim", 3); ("num_nodes", 4) ] [] []
         [ 1%float; 0%float; 0%float; (-1)%float;
           0%float; 1%float; 0%float; 0%float;
           0%float; 0%float; 1%float; 0%float ]) ].

(** An ICON file of three vertices and one cell, whose cell names the
    vertex 7. *)
Definition icon_file (vertex_of_cell : list Z) : NcFile float :=
  mkNcFile
    [ ("title", AttString "ICON grid description") ]
    [ ("vertex", 3); ("cell", 1); ("nv", 3) ]
    [ ("cartesian_x_vertices",
       mkNcVar [ ("vertex", 3) ] [] [] [ 1%float; 0%float; 0%float ]);
      ("cartesian_y_vertices",
       mkNcVar [ ("vertex", 3) ] [] [] [ 0%float; 1%float; 0%float ]);
      ("cartesian_z_vertices",
       mkNcVar [ ("vertex", 3) ] [] [] [ 0%float; 0%float; 1%float ]);
      ("vertex_of_cell",
       mkNcVar [ ("nv", 3); ("cell", 1) ] [] vertex_of_cell []) ].

(** ** Face::GetEdgeIndex *)

Section EdgeIndex.

(** The operator [==] of [Edge] is declared in GridElements.h, which is
    not among the sources; it is a parameter. *)
Variable Edge_eqb : Edge -> Edge -> bool.

(** The loop over [i]; [rest] holds the edges from position [i] on. *)
Fixpoint GetEdgeIndex_from (rest : list Edge) (i : Z) (edge : Edge) : Exn Z :=
  match rest with
  | [] => Err (Exception "Edge not found on Face")
  | e :: rest' =>
      if Edge_eqb e edge then Ok i
      else GetEdgeIndex_from rest' (i + 1) edge
  end.

Definition Face_GetEdgeIndex (face : Face) (edge : Edge) : Exn Z :=
  GetEdgeIndex_from (edges face) 0 edge.

End EdgeIndex.

(** ** Face::RemoveZeroEdges *)

(** The loop of [Face::RemoveZeroEdges], from the test of [i] against
    the number of edges on; the test converts the [int] to [size_t].
    [None] stands for a loop that has not ended within [rounds]
    rounds. *)
Fixpoint RemoveZeroEdges_loop (rounds : nat) (i : Z) (es : list Edge)
  : option (Exn (list Edge)) :=
  match rounds with
  | O => None
  | S rounds' =>
      if to_size_t i <? Z.of_nat (length es) then
        (* Remove zero edges *)
        match get_at "edges" es i with
        | Err e => Some (Err e)
        | Ok e =>
            if node0 e =? node1 e then
              (* edges.erase(edges.begin()+i); i--; and then i++ *)
              RemoveZeroEdges_loop rounds' (to_int (to_int (i - 1) + 1))
                (delete (Z.to_nat i) es)
            else RemoveZeroEdges_loop rounds' (to_int (i + 1)) es
        end
      else Some (Ok es)
  end.

Definition Face_RemoveZeroEdges (face : Face) : option (Exn Face) :=
  match RemoveZeroEdges_loop (S (length (edges face))) 0 (edges face) with
  | Some (Ok es) => Some (Ok (mkFace es))
  | Some (Err e) => Some (Err e)
  | None => None
  end.

(** The edges that the loop keeps. *)
Definition nonzero_edges (es : list Edge) : list Edge :=
  filter (fun e => node0 e <> node1 e) es.

(** ** Mesh::RemoveZeroEdges and Mesh::Clear *)

(** The loop of [Mesh::RemoveZeroEdges] over the faces. *)
Fixpoint RemoveZeroEdges_faces (faces : list Face) : option (Exn (list Face)) :=
  match faces with
  | [] => Some (Ok [])
  | face :: rest =>
      match Face_RemoveZeroEdges face with
      | Some (Ok face') =>
          match RemoveZeroEdges_faces rest with
          | Some (Ok rest') => Some (Ok (face' :: rest'))
          | Some (Err e) => Some (Err e)
          | None => None
          end
      | Some (Err e) => Some (Err e)
      | None => None
      end
  end.

Definition RemoveZeroEdges {Real} (m : Mesh Real) : option (Exn (Mesh Real)) :=
  match RemoveZeroEdges_faces (faces m) with
  | Some (Ok faces') => Some (Ok (set_faces m faces'))
  | Some (Err e) => Some (Err e)
  | None => None
  end.

Definition Clear {Real} (m : Mesh Real) : Mesh Real :=
  set_revnodearray (set_edgemap (set_faces (set_nodes m []) []) ∅) [].

(** ** Overlap meshes *)

(** [std::multimap<int,int>::insert]: the entries are kept in the order
    of their keys, and a new entry goes behind the entries of the same
    key. *)
Fixpoint multimap_insert (mm : list (Z * Z)) (k v : Z) : list (Z * Z) :=
  match mm with
  | [] => [(k, v)]
  | (k', v') :: rest =>
      if k <? k' then (k, v) :: mm
      else (k', v') :: multimap_insert rest k v
  end.

Section Overlap.
Context {Real : Type} `{RealArith Real}.

(** [GetRows] is declared in DataArray1D.h, which is not among the
    sources: whether the comparison of the [int] [ixFirstFace] with the
    number of rows is made on [size_t] is a parameter. *)
Variable GetRows_is_size_t : bool.

Definition beyond_rows (ixFirstFace : Z) (rows : nat) : bool :=
  if GetRows_is_size_t then to_size_t ixFirstFace >=? Z.of_nat rows
  else ixFirstFace >=? Z.of_nat rows.

(** The body of the loop over the faces of [meshOverlap]: the state is
    [vecFaceArea] and [dTotalArea]. *)
Definition CalculateFaceAreasFromOverlap_body (meshOverlap : Mesh Real)
    (st : list Real * Real) (i : nat) : Exn (list Real * Real) :=
  let '(areas, dTotalArea) := st in
  ixFirstFace ← vec_get "vecSourceFaceIx" (vecSourceFaceIx meshOverlap) i;
  if beyond_rows ixFirstFace (length areas) then
    Err (Exception "Overlap Mesh FirstFaceIx contains invalid Face index")
  else
    a ← vec_get "meshOverlap.vecFaceArea" (vecFaceArea meshOverlap) i;
    old ← get_at "vecFaceArea" areas ixFirstFace;
    areas ← put_at "vecFaceArea" areas ixFirstFace (old + a)%real;
    mret (areas, (dTotalArea + a)%real).

(** [Mesh::CalculateFaceAreasFromOverlap]: the mesh afterwards and the
    value returned. *)
Definition CalculateFaceAreasFromOverlap (m meshOverlap : Mesh Real)
  : Exn (Mesh Real * Real) :=
  if (length (vecFaceArea meshOverlap) =? 0)%nat then
    Err (Exception "MeshOverlap Face Areas have not been calculated")
  else
    (* Set all Face areas to zero *)
    let areas := replicate (length (faces m)) r_zero in
    (* Loop over all Faces in meshOverlap *)
    st ← forM (CalculateFaceAreasFromOverlap_body meshOverlap)
           (seq 0 (length (faces meshOverlap))) (areas, r_zero);
    mret (set_vecFaceArea m (fst st), snd st).

(** The sum of the areas of the overlap faces whose source face is
    [f]. *)
Definition overlap_area_of (srcs : list Z) (areas : list Real) (f : nat) : Real :=
  total (map snd (filter (fun p => fst p = Z.of_nat f) (zip srcs areas))).

(** [Mesh::ExchangeFirstAndSecondMesh] *)
Definition reordering_map (vecTargetFaceIx : list Z) : list (Z * Z) :=
  fold_left (fun mm '(i, t) => multimap_insert mm t i)
    (indexed vecTargetFaceIx) [].

(** The body of the loop that applies the reordering: the state is
    [faces], [vecSourceFaceIx] and [vecTargetFaceIx]. *)
Definition ExchangeFirstAndSecondMesh_body (facesOld : list Face)
    (vecSourceFaceIxOld : list Z) (st : list Face * list Z * list Z)
    (iterReorder : Z * Z) : Exn (list Face * list Z * list Z) :=
  let '(faces', src', tgt') := st in
  let '(first, second) := iterReorder in
  face ← get_at "facesOld" facesOld second;
  s ← get_at "vecSourceFaceIxOld" vecSourceFaceIxOld second;
  mret (faces' ++ [face], src' ++ [first], tgt' ++ [s]).

Definition ExchangeFirstAndSecondMesh (m : Mesh Real) : Exn (Mesh Real) :=
  (* Verify all vectors are the same size *)
  if negb (length (faces m) =? length (vecSourceFaceIx m))%nat
     || negb (length (faces m) =? length (vecTargetFaceIx m))%nat
  then Err (Exception "")
  else
    (* Reorder vectors *)
    let facesOld := faces m in
    let vecSourceFaceIxOld := vecSourceFaceIx m in
    (* Reordering map *)
    let multimapReorder := reordering_map (vecTargetFaceIx m) in
    (* Apply reordering *)
    '(faces', src', tgt') ←
      forM (ExchangeFirstAndSecondMesh_body facesOld vecSourceFaceIxOld)
        multimapReorder ([], [], []);
    mret (set_vecTargetFaceIx (set_vecSourceFaceIx (set_faces m faces') src')
            tgt').

(** The faces of an overlap mesh, each with its parent on the source
    mesh and its parent on the target mesh. *)
Definition parents (m : Mesh Real) : list (Face * (Z * Z)) :=
  zip (faces m) (zip (vecSourceFaceIx m) (vecTargetFaceIx m)).

Definition swap_parents (p : Face * (Z * Z)) : Face * (Z * Z) :=
  (fst p, (snd (snd p), fst (snd p))).

(** The order of the reordering map: by key, and among entries of one
    key by position. *)
Definition key_then_position (a b : Z * Z) : Prop :=
  fst a < fst b \/ (fst a = fst b /\ snd a < snd b).

End Overlap.

(** ** General purpose functions *)

Section GeneralPurpose.
Context {Real : Type} `{RealArith Real}.

Definition IsPositivelyOrientedEdge (nodeBegin nodeEnd : Node Real) : Exn bool :=
  let Tolerance : Real := ReferenceTolerance in
  if (r_fabs (x nodeBegin - x nodeEnd) <? Tolerance)%real
     && (r_fabs (y nodeBegin - y nodeEnd) <? Tolerance)%real
     && (r_fabs (z nodeBegin - z nodeEnd) <? Tolerance)%real
  then Err (Exception "Latitude line of zero length")
  (* Both nodes in positive y half-plane *)
  else if (r_zero <=? y nodeBegin)%real && (r_zero <=? y nodeEnd)%real then
    Ok (x nodeEnd <? x nodeBegin)%real
  (* Both nodes in negative y half-plane *)
  else if (y nodeBegin <=? r_zero)%real && (y nodeEnd <=? r_zero)%real then
    Ok (x nodeEnd >? x nodeBegin)%real
  (* Both nodes in positive x half-plane *)
  else if (r_zero <=? x nodeBegin)%real && (r_zero <=? x nodeEnd)%real then
    Ok (y nodeEnd >? y nodeBegin)%real
  (* Both nodes in negative x half-plane *)
  else if (x nodeBegin <=? r_zero)%real && (x nodeEnd <=? r_zero)%real then
    Ok (y nodeEnd <? y nodeBegin)%real
  (* Arc length too large *)
  else Err (Exception "Arc length too large to determine orientation.").

(** The direction along a line of constant latitude, which both
    overloads of [GetLocalDirection] compute alike. *)
Definition constant_latitude_direction (nodeBegin nodeEnd nodeDir : Node Real)
  : Exn (Node Real) :=
  let nodeDir := mkNode (x nodeDir) (y nodeDir) r_zero in
  positive ← IsPositivelyOrientedEdge nodeBegin nodeEnd;
  if positive : bool then
    mret (mkNode (- y nodeBegin)%real (x nodeBegin) (z nodeDir))
  else
    mret (mkNode (y nodeBegin) (- x nodeBegin)%real (z nodeDir)).

(** [GetLocalDirection] with a reference node; [nodeDir] is the node the
    caller hands in, and the result is that node afterwards. *)
Definition GetLocalDirection_ref (nodeBegin nodeEnd nodeRef : Node Real)
    (edgetype : Z) (nodeDir : Node Real) : Exn (Node Real) :=
  (* Direction along a great circle arc *)
  if edgetype =? Type_GreatCircleArc then
    (* Cartesian direction *)
    let nodeDir := Node_sub nodeEnd nodeBegin in
    (* Project onto surface of the sphere *)
    let dDotDirBegin := DotProduct nodeDir nodeRef in
    let dNormNodeBegin := DotProduct nodeRef nodeRef in
    mret (mkNode
            (x nodeDir - dDotDirBegin / dNormNodeBegin * x nodeRef)%real
            (y nodeDir - dDotDirBegin / dNormNodeBegin * y nodeRef)%real
            (z nodeDir - dDotDirBegin / dNormNodeBegin * z nodeRef)%real)
  (* Direction along a line of constant latitude *)
  else if edgetype =? Type_ConstantLatitude then
    constant_latitude_direction nodeBegin nodeEnd nodeDir
  else mret nodeDir.

(** [GetLocalDirection] without a reference node. *)
Definition GetLocalDirection (nodeBegin nodeEnd : Node Real)
    (edgetype : Z) (nodeDir : Node Real) : Exn (Node Real) :=
  (* Direction along a great circle arc *)
  if edgetype =? Type_GreatCircleArc then
    (* Cartesian direction *)
    let nodeDir := Node_sub nodeEnd nodeBegin in
    (* Project onto surface of the sphere *)
    let dDotDirBegin := DotProduct nodeDir nodeBegin in
    let dNormNodeBegin := DotProduct nodeBegin nodeBegin in
    mret (mkNode
            (x nodeDir - dDotDirBegin / dNormNodeBegin * x nodeBegin)%real
            (y nodeDir - dDotDirBegin / dNormNodeBegin * y nodeBegin)%real
            (z nodeDir - dDotDirBegin / dNormNodeBegin * z nodeBegin)%real)
  (* Direction along a line of constant latitude *)
  else if edgetype =? Type_ConstantLatitude then
    constant_latitude_direction nodeBegin nodeEnd nodeDir
  else mret nodeDir.

End GeneralPurpose.

(** *** Test data *)

(** A mesh of two faces, and an overlap mesh of three pieces: the first
    and the third lie in face 0, the second in face 1. *)
Definition two_faces {Real} : Mesh Real :=
  set_faces empty_mesh [ octant_face; octant_face ].

Definition three_pieces {Real} (areas : list Real) (vecSourceFaceIx : list Z)
  : Mesh Real :=
  mkMesh "" [] [ octant_face; octant_face; octant_face ] ∅ []
    areas vecSourceFaceIx [ 1; 0; 0 ] [].

(** An overlap mesh of four pieces with their parents on both sides. *)
Definition four_pieces {Real} : Mesh Real :=
  mkMesh "" []
    [ quad 0 1 2 3; quad 4 7 6 5; quad 0 4 5 1; quad 1 5 6 2 ] ∅ [] []
    [ 0; 0; 1; 1 ] [ 2; 0; 2; 0 ] [].

(** The three axes and the origin, in exact arithmetic. *)
Definition axis_x_exact : Node R := mkNode 1%R 0%R 0%R.
Definition axis_y_exact : Node R := mkNode 0%R 1%R 0%R.
Definition axis_z_exact : Node R := mkNode 0%R 0%R 1%R.
Definition origin_exact : Node R := mkNode 0%R 0%R 0%R.

(** ** Notions for the statements about the node tree *)

Section NodeTreeNotions.
Context {Real : Type} `{RealArith Real}.

(** No entry of the tree lies within the range of an entry stored before
    it: the test that the range query makes fails for every such pair. *)
Definition spaced_apart (range : Real) (kdt : kdtree Real) : Prop :=
  forall (i j : nat) (p q : Node Real * Z),
    (i < j)%nat -> kdt !! i = Some p -> kdt !! j = Some q ->
    (dist_sq (fst p) (fst q) <=? range * range)%real = false.

End NodeTreeNotions.

(** ** Notions for the statements about the topology builder *)

(** The origins of the edges of a face, and the steps round the face,
    each from the origin of an edge to the origin of the edge after
    it. *)
Definition origins (face : Face) : list Z := map node0 (edges face).

Definition boundary_steps (face : Face) : list (Z * Z) :=
  let nEdges := length (edges face) in
  map (fun k => (nth k (origins face) 0,
                 nth ((k + 1) mod nEdges) (origins face) 0))
    (seq 0 nEdges).

(** The uses of edges by the faces of a list, in the order of the faces
    and of the steps round a face: the index of a face with a step of it
    between two different nodes. *)
Definition edge_uses (faces : list Face) : list (Z * (Z * Z)) :=
  flat_map (fun '(i, face) =>
              map (fun ab => (i, ab))
                (filter (fun ab => fst ab <> snd ab) (boundary_steps face)))
    (indexed faces).

(** The faces that use the edge filed under [key], once for each
    use. *)
Definition faces_along (edge_key : Edge -> Z * Z) (faces : list Face)
    (key : Z * Z) : list Z :=
  map fst
    (filter (fun u => edge_key (mkEdge (fst (snd u)) (snd (snd u)) Type_Default)
                      = key)
       (edge_uses faces)).

(** The index of a face with the origin of an edge of it, for all edges
    of all faces. *)
Definition origin_uses (faces : list Face) : list (Z * Z) :=
  flat_map (fun '(i, face) => map (fun e => (i, node0 e)) (edges face))
    (indexed faces).

(** ** Notions for the statements about the validator *)

Section ValidatorNotions.
Context {Real : Type} `{RealArith Real}.

(** The test that a node passes whose magnitude is 1 up to the
    tolerance. *)
Definition unit_magnitude (node : Node Real) : Prop :=
  (r_fabs (Magnitude node - r_one) >? ReferenceTolerance)%real = false.

(** What holds at the edge [j] of a face that passes the checks made
    there: the edge ends at the origin of the edge that follows it, the
    three nodes of the corner are nodes of the mesh, and the corner does
    not turn clockwise. *)
Definition corner_passes (nodes : NodeVector Real) (face : Face) (j : nat)
  : Prop :=
  exists (edge0 edge1 : Edge) (n0 n1 n2 : Node Real),
    edges face !! j = Some edge0
    /\ edges face !! ((j + 1) mod length (edges face))%nat = Some edge1
    /\ node1 edge0 = node0 edge1
    /\ node_at nodes (node0 edge0) = Ok n0
    /\ node_at nodes (node1 edge0) = Ok n1
    /\ node_at nodes (node1 edge1) = Ok n2
    /\ (DotProduct n1 (CrossProduct (Node_sub n0 n1) (Node_sub n2 n1))
        >? r_zero)%real = false.

End ValidatorNotions.

(** ** Notions for the statements about the reader and the writer *)

(** The closed polygon of [n] edges over the nodes [f 0], ..., [f (n-1)],
    its edge [k] of type [t k]: every edge ends at the origin of the
    edge after it, the last at the origin of the first. *)
Definition closed_polygon (f t : nat -> Z) (n : nat) : Face :=
  mkFace (map (fun k => mkEdge (f k) (f ((k + 1) mod n)%nat) (t k)) (seq 0 n)).

(** A face of [n] edges of which the nodes at the positions below [jn]
    and the types of the edges below [jt] are set. *)
Definition partial_polygon (f t : nat -> Z) (n jn jt : nat) : Face :=
  mkFace
    (map (fun k =>
            mkEdge (if (k <? jn)%nat then f k else InvalidNode)
                   (if ((k + 1) mod n <? jn)%nat
                    then f ((k + 1) mod n)%nat else InvalidNode)
                   (if (k <? jt)%nat then t k else Type_Default))
       (seq 0 n)).

(** A face is closed when every edge of it ends at the origin of the
    edge after it, the last at the origin of the first. *)
Definition closed_face (face : Face) : Prop :=
  forall (k : nat) (e e' : Edge),
    edges face !! k = Some e ->
    edges face !! ((k + 1) mod length (edges face))%nat = Some e' ->
    node1 e = node0 e'.

(** *** Test data *)

(** The tree that the three insertions of [three_points] leave. *)
Definition two_axes_tree : NodeTree float :=
  mkNodeTree 0.5%float [ (axis_x, 0); (axis_y, 1) ] 2.

(** A mesh of two triangles that share the edge between the nodes 1
    and 2. *)
Definition two_triangles : Mesh float :=
  set_faces
    (set_nodes empty_mesh (replicate 4 (mkNode 0%float 0%float 0%float)))
    [ mkFace [ mkEdge 0 1 Type_Default; mkEdge 1 2 Type_Default;
               mkEdge 2 0 Type_Default ];
      mkFace [ mkEdge 2 1 Type_Default; mkEdge 1 3 Type_Default;
               mkEdge 3 2 Type_Default ] ].

(** The key of an edge whatever its direction. *)
Definition edge_key_undirected (e : Edge) : Z * Z :=
  (Z.min (node0 e) (node1 e), Z.max (node0 e) (node1 e)).

(** A mesh of two nodes a quarter turn apart, in exact arithmetic. *)
Definition two_axes_mesh_exact : Mesh R :=
  set_nodes empty_mesh [ axis_x_exact; axis_y_exact ].

(** The octant triangle and the Gauss rule of two points, in exact
    arithmetic. *)
Definition octant_nodes_exact : NodeVector R :=
  [ axis_x_exact; axis_y_exact; axis_z_exact ].

Definition two_point_dG_exact : list R :=
  [ (/ 2 - sqrt 3 / 6)%R; (/ 2 + sqrt 3 / 6)%R ].

Definition two_point_dW_exact : list R := [ (/ 2)%R; (/ 2)%R ].

(** * Properties *)

(** ** Face::Contains *)

Lemma to_int_small (v : Z) : - 2 ^ 31 <= v < 2 ^ 31 -> to_int v = v.
Proof.
  intros Hv. unfold to_int.
  rewrite Z.mod_small by lia. lia.
Qed.

Section FaceContainsFacts.
Context {Real : Type} `{RealArith Real}.

Lemma Contains_nx_plane_intersection (n0 n1 n2 : Node Real) :
  (if (z n1 <? z n2)%real then
     let dA := ((z n0 - z n1) / (z n2 - z n1))%real in
     mkNode ((r_one - dA) * x n1 + dA * x n2)%real
            ((r_one - dA) * y n1 + dA * y n2)%real (z n0)
   else
     let dA := ((z n0 - z n2) / (z n1 - z n2))%real in
     mkNode ((r_one - dA) * x n2 + dA * x n1)%real
            ((r_one - dA) * y n2 + dA * y n1)%real (z n0))
  = plane_intersection n0 n1 n2.
Proof.
  unfold plane_intersection, interpolate_at.
  destruct (z n1 <? z n2)%real; reflexivity.
Qed.

Lemma edge_contribution_bound (n0 n1 n2 : Node Real) :
  -1 <= edge_contribution n0 n1 n2 <= 1.
Proof.
  unfold edge_contribution.
  repeat match goal with |- context [if ?b then _ else _] => destruct b end; lia.
Qed.

Lemma Contains_body_contribution (n0 n1 n2 : Node Real) (nParity : Z) :
  comparable (z n1) (z n2) = true ->
  - 2 ^ 31 < nParity < 2 ^ 31 - 1 ->
  Contains_body n0 n1 n2 nParity = nParity + edge_contribution n0 n1 n2.
Proof.
  intros Hcmp Hrange.
  unfold Contains_body, edge_contribution.
  rewrite Contains_nx_plane_intersection.
  fold (surrogate n0 (plane_intersection n0 n1 n2)).
  unfold comparable in Hcmp.
  destruct ((z n1 >? z n0)%real && (z n2 >? z n0)%real); simpl; [lia|].
  destruct ((z n1 <? z n0)%real && (z n2 <? z n0)%real); simpl; [lia|].
  destruct (z n1 =? z n2)%real; simpl; [lia|].
  destruct (surrogate n0 (plane_intersection n0 n1 n2) <? r_zero)%real;
    [lia|].
  destruct (z n1 <? z n2)%real.
  - rewrite to_int_small by lia. reflexivity.
  - simpl in Hcmp. rewrite Hcmp.
    rewrite to_int_small by lia. lia.
Qed.

(** The intersection point does not depend on the direction of the edge. *)
Lemma plane_intersection_sym (n0 n1 n2 : Node Real) :
  xorb (z n1 <? z n2)%real (z n2 <? z n1)%real = true ->
  plane_intersection n0 n1 n2 = plane_intersection n0 n2 n1.
Proof.
  unfold plane_intersection.
  destruct (z n1 <? z n2)%real, (z n2 <? z n1)%real; simpl;
    intros; try discriminate; reflexivity.
Qed.

Lemma origin_node_fetch (f : Face) (nodevec : NodeVector Real) (i : nat) :
  Forall (fun e => 0 <= node0 e < Z.of_nat (length nodevec)) (edges f) ->
  (i < length (edges f))%nat ->
  exists n1, origin_node f nodevec i = Some n1
             /\ n1 ∈ nodevec
             /\ (Face_at f i ≫= node_at nodevec) = Ok n1.
Proof.
  intros Hidx Hi.
  destruct (lookup_lt_is_Some_2 (edges f) i Hi) as [e He].
  assert (Hin : e ∈ edges f) by (eapply list_elem_of_lookup_2; eassumption).
  rewrite Forall_forall in Hidx.
  specialize (Hidx e Hin).
  assert (Hlt : (Z.to_nat (node0 e) < length nodevec)%nat) by lia.
  destruct (lookup_lt_is_Some_2 nodevec _ Hlt) as [n1 Hn1].
  exists n1. unfold origin_node, Face_at, node_at. rewrite He. simpl.
  destruct (node0 e <? 0) eqn:Hneg; [lia|].
  rewrite Hn1. repeat split; try reflexivity.
  eapply list_elem_of_lookup_2; eassumption.
Qed.

Lemma Contains_loop (f : Face) (n0 : Node Real) (nodevec : NodeVector Real)
    (l : list nat) (nParity : Z) :
  Forall (fun e => 0 <= node0 e < Z.of_nat (length nodevec)) (edges f) ->
  (forall a b, a ∈ nodevec -> b ∈ nodevec -> comparable (z a) (z b) = true) ->
  Forall (fun i => (i < length (edges f))%nat) l ->
  Z.abs nParity + Z.of_nat (length l) < 2 ^ 31 ->
  forM (fun nParity i1 =>
        let i2 := ((i1 + 1) mod length (edges f))%nat in
        ix1 ← Face_at f i1;
        n1 ← node_at nodevec ix1;
        ix2 ← Face_at f i2;
        n2 ← node_at nodevec ix2;
        mret (Contains_body n0 n1 n2 nParity)) l nParity
  = Ok (nParity
        + fold_right Z.add 0 (map (contribution_at f n0 nodevec) l)).
Proof.
  intros Hidx Hcmp Hl. revert nParity.
  induction Hl as [|i1 l Hi1 Hl IH]; intros nParity Hrange; simpl.
  - f_equal. lia.
  - assert (Hi2 : ((i1 + 1) mod length (edges f) < length (edges f))%nat)
      by (apply Nat.mod_upper_bound; lia).
    destruct (origin_node_fetch f nodevec i1 Hidx Hi1) as (n1 & Ho1 & Hin1 & Hf1).
    destruct (origin_node_fetch f nodevec _ Hidx Hi2) as (n2 & Ho2 & Hin2 & Hf2).
    unfold Face_at, node_at in Hf1, Hf2 |- *.
    unfold mbind, Exn_bind in Hf1, Hf2 |- *.
    destruct (edges f !! i1) as [e1|]; [|discriminate]. simpl in *.
    destruct (node0 e1 <? 0); [discriminate|].
    destruct (nodevec !! Z.to_nat (node0 e1)) as [n1'|]; [|discriminate].
    injection Hf1 as ->.
    destruct (edges f !! ((i1 + 1) mod length (edges f))%nat) as [e2|];
      [|discriminate]. simpl in *.
    destruct (node0 e2 <? 0); [discriminate|].
    destruct (nodevec !! Z.to_nat (node0 e2)) as [n2'|]; [|discriminate].
    injection Hf2 as ->.
    unfold mret, Exn_ret.
    simpl in Hrange.
    rewrite Contains_body_contribution by (auto; lia).
    pose proof (edge_contribution_bound n0 n1 n2) as Hb.
    rewrite IH by lia.
    unfold contribution_at at 2. rewrite Ho1, Ho2.
    f_equal. lia.
Qed.

(** C1. [Face::Contains] answers true exactly when the signed parity
    accumulation is strictly positive.  An edge from [n1] to [n2]
    contributes nothing when both ends lie strictly above or strictly
    below the query's z, or when their z are equal; otherwise its
    intersection with the plane z = n0.z is interpolated from the
    endpoint of smaller z (so it does not depend on the direction of
    the edge), the edge contributes nothing when the surrogate is
    negative, and else +1 when n1.z < n2.z and -1 when n1.z > n2.z.
    The face has fewer than 2^31 edges (the counter is an [int]), its
    node indices are valid, and z coordinates are comparable. *)
Theorem Contains_iff_signed_parity_positive
    (f : Face) (n0 : Node Real) (nodevec : NodeVector Real) :
  Z.of_nat (length (edges f)) < 2 ^ 31 ->
  Forall (fun e => 0 <= node0 e < Z.of_nat (length nodevec)) (edges f) ->
  (forall a b, a ∈ nodevec -> b ∈ nodevec -> comparable (z a) (z b) = true) ->
  (exists b, Contains f n0 nodevec = Ok b
             /\ (b = true <-> 0 < signed_parity f n0 nodevec))
  /\ (forall n1 n2,
        xorb (z n1 <? z n2)%real (z n2 <? z n1)%real = true ->
        plane_intersection n0 n1 n2 = plane_intersection n0 n2 n1).
Proof.
  intros Hlen Hidx Hcmp. split.
  - exists (0 <? signed_parity f n0 nodevec). split.
    + unfold Contains.
      rewrite Contains_loop; [reflexivity|assumption|assumption| |].
      * apply Forall_forall. intros i Hi.
        apply list_elem_of_In, in_seq in Hi. lia.
      * rewrite length_seq. simpl. lia.
    + apply Z.ltb_lt.
  - intros n1 n2. apply plane_intersection_sym.
Qed.

End FaceContainsFacts.

Example Contains_octant_inner :
  Contains octant_face octant_inner octant_nodes = Ok true.
Proof. vm_compute. reflexivity. Qed.

Example Contains_octant_antipode :
  Contains octant_face octant_antipode octant_nodes = Ok false.
Proof. vm_compute. reflexivity. Qed.

Example signed_parity_octant_inner :
  signed_parity octant_face octant_inner octant_nodes = 1.
Proof. vm_compute. reflexivity. Qed.

Lemma Contains_iff_signed_parity_positive_witness :
  Z.of_nat (length (edges octant_face)) < 2 ^ 31
  /\ Forall (fun e => 0 <= node0 e < Z.of_nat (length octant_nodes))
       (edges octant_face)
  /\ (forall a b, a ∈ octant_nodes -> b ∈ octant_nodes ->
        comparable (z a) (z b) = true)
  /\ (exists b, Contains octant_face octant_inner octant_nodes = Ok b
        /\ (b = true <-> 0 < signed_parity octant_face octant_inner octant_nodes)).
Proof.
  assert (Hlen : Z.of_nat (length (edges octant_face)) < 2 ^ 31)
    by (vm_compute; reflexivity).
  assert (Hidx : Forall (fun e => 0 <= node0 e < Z.of_nat (length octant_nodes))
                   (edges octant_face))
    by (repeat constructor; vm_compute; congruence).
  assert (Hcmp : forall a b, a ∈ octant_nodes -> b ∈ octant_nodes ->
                   comparable (z a) (z b) = true).
  { intros a b Ha Hb. unfold octant_nodes in Ha, Hb.
    repeat (apply elem_of_cons in Ha as [->|Ha]);
      try (apply elem_of_nil in Ha; destruct Ha);
      repeat (apply elem_of_cons in Hb as [->|Hb]);
      try (apply elem_of_nil in Hb; destruct Hb);
      vm_compute; reflexivity. }
  repeat split; try assumption.
  exact (proj1 (Contains_iff_signed_parity_positive
                  octant_face octant_inner octant_nodes Hlen Hidx Hcmp)).
Defined.

(** ** Loops *)

Lemma forM_Ok {A S : Type} (body : S -> A -> Exn S) (l : list A) (s : S) :
  (forall s a, a ∈ l -> exists s', body s a = Ok s') ->
  exists s', forM body l s = Ok s'.
Proof.
  revert s. induction l as [|a l IH]; intros s Hbody; simpl.
  - eauto.
  - destruct (Hbody s a) as [s' Hs']; [left|].
    rewrite Hs'. apply IH. intros t b Hb. apply Hbody. by right.
Qed.

Lemma forM_ext {A S : Type} (body1 body2 : S -> A -> Exn S) (l : list A) (s : S) :
  (forall s a, a ∈ l -> body1 s a = body2 s a) ->
  forM body1 l s = forM body2 l s.
Proof.
  revert s. induction l as [|a l IH]; intros s Hbody; simpl.
  - reflexivity.
  - rewrite Hbody by left. destruct (body2 s a) as [s1|]; [|reflexivity].
    apply IH. intros t b Hb. apply Hbody. by right.
Qed.

(** ** Topology builder *)

Lemma length_resize {A} (n : nat) (d : A) (l : list A) :
  length (resize n d l) = n.
Proof.
  unfold resize. rewrite length_app, length_take, length_replicate. lia.
Qed.

Lemma map_const_replicate {A B} (d : B) (l : list A) :
  map (fun _ => d) l = replicate (length l) d.
Proof.
  induction l as [|a l IH]; simpl; [reflexivity|]. by rewrite IH.
Qed.

(** [Mesh::ConstructEdgeMap] leaves everything but the edge map as it
    is, and what it builds is determined by the face list. *)
Lemma ConstructEdgeMap_spec {Real} (edge_key : Edge -> Z * Z)
    (AddFace : FacePair -> Z -> Exn FacePair) (m : Mesh Real) :
  ConstructEdgeMap edge_key AddFace m
  = (em ← forM (fun em '(i, face) =>
                  ConstructEdgeMap_face edge_key AddFace i face em)
            (indexed (faces m)) ∅;
     mret (set_edgemap m em)).
Proof. reflexivity. Qed.

(** With the pairs of the design document, which take any number of
    faces, [Mesh::ConstructEdgeMap] does not fail. *)
Lemma ConstructEdgeMap_face_Ok (edge_key : Edge -> Z * Z) (i : Z) (face : Face)
    (em : gmap (Z * Z) FacePair) :
  exists em',
    ConstructEdgeMap_face edge_key AddFace_uncapped i face em = Ok em'.
Proof.
  unfold ConstructEdgeMap_face. apply forM_Ok.
  intros em0 k Hk. apply list_elem_of_In, in_seq in Hk.
  assert (Hk1 : (k < length (edges face))%nat) by lia.
  assert (Hk2 : ((k + 1) mod length (edges face) < length (edges face))%nat)
    by (apply Nat.mod_upper_bound; lia).
  unfold Face_at.
  destruct (lookup_lt_is_Some_2 _ _ Hk1) as [e1 ->].
  destruct (lookup_lt_is_Some_2 _ _ Hk2) as [e2 ->].
  simpl. destruct (node0 e1 =? node0 e2); eauto.
Qed.

Lemma ConstructEdgeMap_Ok {Real} (edge_key : Edge -> Z * Z) (m : Mesh Real) :
  exists m', ConstructEdgeMap edge_key AddFace_uncapped m = Ok m'.
Proof.
  rewrite ConstructEdgeMap_spec.
  destruct (forM_Ok (fun em '(i, face) =>
                       ConstructEdgeMap_face edge_key AddFace_uncapped i face em)
              (indexed (faces m)) ∅) as [em Hem].
  { intros em [i face] _. apply ConstructEdgeMap_face_Ok. }
  rewrite Hem. eauto.
Qed.

Lemma revnodearray_insert_length (rev rev' : list (gset Z)) (ixNode i : Z) :
  revnodearray_insert rev ixNode i = Ok rev' -> length rev' = length rev.
Proof.
  unfold revnodearray_insert.
  destruct (ixNode <? 0); [discriminate|].
  destruct (rev !! Z.to_nat ixNode); [|discriminate].
  intros [= <-]. apply length_insert.
Qed.

Lemma forM_invariant {A S : Type} (P : S -> Prop) (body : S -> A -> Exn S)
    (l : list A) (s s' : S) :
  (forall s a s', a ∈ l -> P s -> body s a = Ok s' -> P s') ->
  P s -> forM body l s = Ok s' -> P s'.
Proof.
  revert s. induction l as [|a l IH]; intros s Hbody Hs; simpl.
  - by intros [= <-].
  - destruct (body s a) as [s1|] eqn:Hs1; [|discriminate].
    apply IH.
    + intros t b t' Hb. apply Hbody. by right.
    + eapply Hbody; [left|exact Hs|exact Hs1].
Qed.

Lemma ConstructReverseNodeArray_length {Real} (m m' : Mesh Real) :
  ConstructReverseNodeArray m = Ok m' ->
  length (revnodearray m') = length (nodes m)
  /\ nodes m' = nodes m /\ faces m' = faces m
  /\ m' = set_revnodearray m (revnodearray m').
Proof.
  unfold ConstructReverseNodeArray.
  match goal with |- context [forM ?b ?l ?s] =>
    destruct (forM b l s) as [rev|] eqn:Hrev end; [|discriminate].
  simpl. intros [= <-]. simpl. repeat split.
  eapply (forM_invariant (fun r => length r = length (nodes m))) in Hrev;
    [exact Hrev| |].
  - intros r [i face] r' _ Hr Hin.
    eapply (forM_invariant (fun r => length r = length (nodes m))) in Hin;
      [exact Hin| |exact Hr].
    intros r0 e r0' _ Hr0 Hins.
    apply revnodearray_insert_length in Hins. congruence.
  - rewrite length_map, length_resize. reflexivity.
Qed.

(** C8. Running [ConstructEdgeMap] again on its own result (the face
    list untouched in between) yields the same edge map as running it
    once, and likewise for [ConstructReverseNodeArray] and the reverse
    node array: both derivations are idempotent.  This holds whatever the
    ordering of edges and [AddFace] are; with the pairs of the design
    document the edge map is always built. *)
Theorem Construct_idempotent {Real} (edge_key : Edge -> Z * Z)
    (AddFace : FacePair -> Z -> Exn FacePair) (m : Mesh Real) :
  (ConstructEdgeMap edge_key AddFace m ≫= ConstructEdgeMap edge_key AddFace)
  = ConstructEdgeMap edge_key AddFace m
  /\ (exists m1, ConstructEdgeMap edge_key AddFace_uncapped m = Ok m1
                 /\ ConstructEdgeMap edge_key AddFace_uncapped m1 = Ok m1)
  /\ (ConstructReverseNodeArray m ≫= ConstructReverseNodeArray)
     = ConstructReverseNodeArray m.
Proof.
  assert (Hidem : forall AddFace',
            (ConstructEdgeMap edge_key AddFace' m
             ≫= ConstructEdgeMap edge_key AddFace')
            = ConstructEdgeMap edge_key AddFace' m).
  { intros AddFace'. rewrite (ConstructEdgeMap_spec edge_key AddFace' m).
    destruct (forM _ (indexed (faces m)) ∅) as [em|e] eqn:Hem;
      [|reflexivity].
    cbn [mbind Exn_bind mret Exn_ret].
    rewrite ConstructEdgeMap_spec. cbn [faces set_edgemap].
    rewrite Hem. reflexivity. }
  split; [apply Hidem|]. split.
  - destruct (ConstructEdgeMap_Ok edge_key m) as [m1 Hm1].
    exists m1. split; [assumption|].
    specialize (Hidem AddFace_uncapped). rewrite Hm1 in Hidem.
    exact Hidem.
  - destruct (ConstructReverseNodeArray m) as [m1|e] eqn:Hm1; [|reflexivity].
    simpl. unfold mbind, Exn_bind.
    destruct (ConstructReverseNodeArray_length m m1 Hm1)
      as (Hlen & Hnodes & Hfaces & Hset).
    rewrite <- Hm1.
    unfold ConstructReverseNodeArray.
    rewrite Hnodes, Hfaces.
    rewrite !map_const_replicate, !length_resize.
    match goal with |- context [forM ?b ?l ?s] =>
      destruct (forM b l s) as [rev|] eqn:Hrev end; [|reflexivity].
    simpl. unfold mret, Exn_ret. f_equal.
    rewrite Hset. reflexivity.
Qed.

Example ConstructReverseNodeArray_cube :
  (m ← ConstructReverseNodeArray cube_mesh;
   mret (map (fun s : gset Z => size s) (revnodearray m)))
  = Ok [3; 3; 3; 3; 3; 3; 3; 3]%nat.
Proof. vm_compute. reflexivity. Qed.

Example ConstructEdgeMap_cube :
  (m ← ConstructEdgeMap edge_key_directed AddFace_uncapped cube_mesh;
   mret (size (edgemap m), edgemap m !! (0, 1), edgemap m !! (1, 0)))
  = Ok (24%nat, Some [0], Some [2]).
Proof. vm_compute. reflexivity. Qed.

(** ** Face areas *)

Ltac jlia := unfold Jump in *; lia.

Section CollapseExact.
Context {Real : Type} `{RealArith Real}.

(** What exact arithmetic means for the accumulation: addition is
    associative and zero is neutral. *)
Hypothesis add_assoc : forall a b c : Real, (a + (b + c) = (a + b) + c)%real.
Hypothesis add_0_l : forall a : Real, (r_zero + a = a)%real.
Hypothesis add_0_r : forall a : Real, (a + r_zero = a)%real.

Lemma total_app (l1 l2 : list Real) :
  total (l1 ++ l2) = (total l1 + total l2)%real.
Proof.
  induction l1 as [|a l1 IH]; simpl.
  - symmetry. apply add_0_l.
  - unfold total in *. simpl. rewrite IH. apply add_assoc.
Qed.

Lemma fold_left_total (l : list Real) (a : Real) :
  fold_left r_add l a = (a + total l)%real.
Proof.
  revert a. induction l as [|b l IH]; intros a; simpl.
  - symmetry. apply add_0_r.
  - rewrite IH. unfold total. simpl. symmetry. apply add_assoc.
Qed.

Lemma linear_sum_total (l : list Real) : linear_sum l = total l.
Proof. unfold linear_sum. rewrite fold_left_total. apply add_0_l. Qed.

Lemma accumulate_block_spec (c : nat) :
  forall (w : list Real) (i ixRef j0 : nat) (a : Real),
    w !! i = Some a ->
    (i < ixRef + j0)%nat ->
    accumulate_block w i ixRef (seq j0 c)
    = Ok (<[i := (a + total (take c (drop (ixRef + j0) w)))%real]> w).
Proof.
  induction c as [|c IH]; intros w i ixRef j0 a Hi Hlt; simpl.
  - unfold total. simpl. rewrite add_0_r.
    by rewrite list_insert_id.
  - destruct (length w <=? ixRef + j0)%nat eqn:Hend.
    + apply Nat.leb_le in Hend.
      rewrite drop_ge by lia. rewrite take_nil.
      unfold total. simpl. rewrite add_0_r. by rewrite list_insert_id.
    + apply Nat.leb_gt in Hend.
      destruct (lookup_lt_is_Some_2 w (ixRef + j0)%nat Hend) as [b Hb].
      unfold vec_get, vec_put. rewrite Hi, Hb. simpl.
      assert (Hil : (i < length w)%nat) by (eapply lookup_lt_Some; eauto).
      destruct (i <? length w)%nat eqn:Hil'; [|apply Nat.ltb_ge in Hil'; lia].
      simpl.
      rewrite (IH _ i ixRef (S j0) (a + b)%real).
      * rewrite list_insert_insert_eq. f_equal. f_equal.
        rewrite (drop_S w b (ixRef + j0)) by assumption.
        rewrite firstn_cons. unfold total at 2. simpl. fold (total).
        rewrite <- add_assoc. f_equal. f_equal. f_equal.
        replace (ixRef + S j0)%nat with (S (ixRef + j0)) by lia.
        rewrite drop_insert_lt by lia. reflexivity.
      * apply list_lookup_insert_eq. assumption.
      * lia.
Qed.

Lemma block_sum_unfold (v : list Real) (k : nat) (a : Real) :
  v !! (Jump * k)%nat = Some a ->
  block_sum v k
  = (a + total (take (Jump - 1) (drop (Jump * k + 1) v)))%real.
Proof.
  intros Ha. unfold block_sum.
  rewrite (drop_S v a (Jump * k)) by assumption.
  replace (Jump * k + 1)%nat with (S (Jump * k)) by lia.
  reflexivity.
Qed.

Lemma collapse_blocks_spec (c : nat) :
  forall (v : list Real) (i0 : nat),
    (Jump * (i0 + c) < length v + Jump)%nat ->
    (i0 <= length v)%nat ->
    forM (fun v i =>
         let ixRef := (Jump * i)%nat in
         a ← vec_get "vecFaceAreaBak" v ixRef;
         v ← vec_put "vecFaceAreaBak" v i a;
         accumulate_block v i ixRef (seq 1 (Jump - 1)))
      (seq i0 c) (map (block_sum v) (seq 0 i0) ++ drop i0 v)
    = Ok (map (block_sum v) (seq 0 (i0 + c)) ++ drop (i0 + c) v).
Proof.
  induction c as [|c IH]; intros v i0 Hrange Hi0.
  - simpl. by rewrite Nat.add_0_r.
  - cbn [seq forM].
    set (B := map (block_sum v) (seq 0 i0)).
    assert (HB : length B = i0) by (unfold B; by rewrite length_map, length_seq).
    assert (HJ : Jump = 10%nat) by reflexivity.
    assert (Hin : (Jump * i0 < length v)%nat) by jlia.
    destruct (lookup_lt_is_Some_2 v _ Hin) as [a Ha].
    assert (Hget : (B ++ drop i0 v) !! (Jump * i0)%nat = Some a).
    { rewrite lookup_app_r by jlia. rewrite lookup_drop.
      rewrite <- Ha. f_equal. lia. }
    unfold vec_get at 1. rewrite Hget. cbn [mbind Exn_bind].
    unfold vec_put at 1.
    assert (Hlen : length (B ++ drop i0 v) = length v)
      by (rewrite length_app, length_drop; jlia).
    rewrite Hlen.
    destruct (i0 <? length v)%nat eqn:Hlt; [|apply Nat.ltb_ge in Hlt; lia].
    cbn [mbind Exn_bind].
    rewrite (accumulate_block_spec (Jump - 1) _ i0 (Jump * i0) 1 a);
      [| apply list_lookup_insert_eq; lia | jlia].
    rewrite list_insert_insert_eq.
    rewrite drop_insert_lt by jlia.
    rewrite drop_app_ge by jlia.
    rewrite drop_drop.
    replace (i0 + (Jump * i0 + 1 - length B))%nat with (Jump * i0 + 1)%nat by jlia.
    rewrite <- (block_sum_unfold v i0 a Ha).
    assert (Hi0' : (i0 < length v)%nat) by jlia.
    destruct (lookup_lt_is_Some_2 v _ Hi0') as [b Hb].
    rewrite (drop_S v b i0 Hb).
    rewrite insert_app_r_alt by jlia.
    rewrite HB, Nat.sub_diag. cbn [insert list_insert].
    replace (B ++ block_sum v i0 :: drop (S i0) v)
      with (map (block_sum v) (seq 0 (S i0)) ++ drop (S i0) v).
    + rewrite IH by jlia.
      replace (S i0 + c)%nat with (i0 + S c)%nat by lia. reflexivity.
    + rewrite seq_S, map_app. simpl. rewrite <- app_assoc. reflexivity.
Qed.

Lemma collapse_round_spec (v : list Real) :
  (1 <= length v)%nat ->
  collapse_round v
  = Ok (map (block_sum v) (seq 0 ((length v - 1) / Jump + 1))).
Proof.
  intros Hlen. unfold collapse_round.
  set (nBlocks := ((length v - 1) / Jump + 1)%nat).
  assert (HJ : Jump = 10%nat) by reflexivity.
  assert (Hdiv : (Jump * ((length v - 1) / Jump) <= length v - 1)%nat)
    by (apply Nat.Div0.mul_div_le).
  assert (HnB : (nBlocks <= length v)%nat) by (unfold nBlocks; jlia).
  pose proof (collapse_blocks_spec nBlocks v 0%nat) as Hloop.
  cbn [seq map app Nat.add] in Hloop. rewrite drop_0 in Hloop.
  rewrite Hloop by (unfold nBlocks; jlia).
  cbn [mbind Exn_bind]. unfold mret, Exn_ret. f_equal.
  unfold resize.
  rewrite take_app_length' by (by rewrite length_map, length_seq).
  rewrite length_app, length_map, length_seq, length_drop.
  replace (nBlocks - (nBlocks + (length v - nBlocks)))%nat with 0%nat by jlia.
  simpl. by rewrite app_nil_r.
Qed.

Lemma total_blocks (v : list Real) (nb : nat) :
  total (map (block_sum v) (seq 0 nb)) = total (take (Jump * nb) v).
Proof.
  induction nb as [|nb IH].
  - replace (Jump * 0)%nat with 0%nat by lia. reflexivity.
  - rewrite seq_S, map_app, total_app, IH. cbn [Nat.add map].
    replace (Jump * S nb)%nat with (Jump * nb + Jump)%nat by lia.
    rewrite <- take_take_drop, total_app. f_equal.
    unfold block_sum, total at 1. cbn [fold_right]. apply add_0_r.
Qed.

Lemma collapse_round_total (v : list Real) :
  (1 <= length v)%nat ->
  exists v', collapse_round v = Ok v'
             /\ length v' = ((length v - 1) / Jump + 1)%nat
             /\ total v' = total v.
Proof.
  intros Hlen. eexists. split; [apply collapse_round_spec; assumption|].
  split; [by rewrite length_map, length_seq|].
  rewrite total_blocks. rewrite take_ge; [reflexivity|].
  pose proof (Nat.div_mod_eq (length v - 1) Jump) as Hdm.
  pose proof (Nat.mod_upper_bound (length v - 1) Jump) as Hmod.
  unfold Jump in *. lia.
Qed.

(** The loop ends, within as many rounds as the array is long, with the
    sum of the array. *)
Lemma collapse_total (rounds : nat) :
  forall v : list Real,
    (1 <= length v <= rounds)%nat ->
    collapse rounds v = Some (Ok (total v)).
Proof.
  induction rounds as [|rounds IH]; intros v Hlen; [lia|].
  cbn [collapse].
  destruct (length v =? 1)%nat eqn:Hone.
  - apply Nat.eqb_eq in Hone.
    destruct v as [|a [|b v]]; try discriminate.
    unfold vec_get, total. cbn. by rewrite add_0_r.
  - apply Nat.eqb_neq in Hone.
    destruct (collapse_round_total v) as (v' & -> & Hlen' & <-); [lia|].
    apply IH. rewrite Hlen'.
    assert (Hdiv : ((length v - 1) / Jump < length v - 1)%nat)
      by (apply Nat.div_lt; unfold Jump; lia).
    lia.
Qed.

End CollapseExact.

Lemma real_exact_zero : @r_zero R real_exact = 0%R.
Proof. unfold r_zero. cbn. unfold R_lit. cbn. lra. Qed.

Lemma mapM_length {A B : Type} (f : A -> Exn B) (l : list A) :
  forall bs, mapM f l = Ok bs -> length bs = length l.
Proof.
  induction l as [|a l IH]; intros bs Hbs; cbn in Hbs.
  - by inversion Hbs.
  - destruct (f a); [|discriminate].
    destruct (mapM f l) as [bs'|]; [|discriminate].
    inversion Hbs; subst. cbn. f_equal. by apply IH.
Qed.

Lemma mapM_total {A B : Type} (f : A -> Exn B) (l : list A) :
  Forall (fun a => exists b, f a = Ok b) l -> exists bs, mapM f l = Ok bs.
Proof.
  induction 1 as [|a l [b Hb] _ [bs Hbs]]; cbn.
  - by eexists.
  - rewrite Hb, Hbs. by eexists.
Qed.

Lemma forM_total {A S : Type} (body : S -> A -> Exn S) (l : list A) :
  Forall (fun a => forall s, exists s', body s a = Ok s') l ->
  forall s, exists s', forM body l s = Ok s'.
Proof.
  induction 1 as [|a l Ha _ IH]; intros s; cbn.
  - by eexists.
  - destruct (Ha s) as [s' ->]. apply IH.
Qed.

(** The area of a face whose node indices are indices of the node array
    is computed: no access is out of range. *)
Lemma CalculateFaceArea_in_range {Real : Type} `{RealArith Real}
    (dG dW : list Real) (face : Face) (nodes : NodeVector Real) :
  Forall (fun edge => 0 <= node0 edge < Z.of_nat (length nodes)
                      /\ 0 <= node1 edge < Z.of_nat (length nodes))
    (edges face) ->
  exists a, CalculateFaceArea dG dW face nodes = Ok a.
Proof.
  intros Hrange.
  assert (Hat : forall i, (i < length (edges face))%nat ->
              exists ix n, Face_at face i = Ok ix /\ node_at nodes ix = Ok n).
  { intros i Hi. unfold Face_at, node_at.
    destruct (lookup_lt_is_Some_2 (edges face) i Hi) as [e He].
    rewrite He.
    destruct (proj1 (Forall_lookup _ _) Hrange i e He) as [[Hlo Hhi] _].
    destruct (lookup_lt_is_Some_2 nodes (Z.to_nat (node0 e))) as [n Hn]; [lia|].
    exists (node0 e), n. split; [reflexivity|].
    destruct (Z.ltb_spec (node0 e) 0) as [|_]; [lia|]. by rewrite Hn. }
  unfold CalculateFaceArea, CalculateFaceAreaQuadratureMethod.
  apply forM_total. apply Forall_forall. intros j Hj s.
  apply elem_of_seq in Hj.
  destruct (Hat 0%nat) as (ix1 & n1 & -> & Hn1); [lia|].
  destruct (Hat (j + 1)%nat) as (ix2 & n2 & -> & Hn2); [lia|].
  destruct (Hat (j + 2)%nat) as (ix3 & n3 & -> & Hn3); [lia|].
  cbn [mbind Exn_bind]. rewrite Hn1. cbn [mbind Exn_bind]. rewrite Hn2.
  cbn [mbind Exn_bind]. rewrite Hn3. cbn [mbind Exn_bind mret Exn_ret].
  by eexists.
Qed.

Lemma face_areas_in_range {Real : Type} `{RealArith Real}
    (dG dW : list Real) (m : Mesh Real) :
  faces_in_range (length (nodes m)) (faces m) ->
  exists areas, face_areas dG dW m = Ok areas
                /\ length areas = length (faces m).
Proof.
  intros Hrange. unfold face_areas.
  destruct (mapM_total (fun face => CalculateFaceArea dG dW face (nodes m))
              (faces m)) as [areas Hareas].
  { eapply Forall_impl; [exact Hrange|]. intros face Hface.
    by apply CalculateFaceArea_in_range. }
  exists areas. split; [exact Hareas|]. by eapply mapM_length.
Qed.

(** C5. In exact arithmetic, for every face list whose areas are computed,
    the total that [CalculateFaceAreas] returns, obtained by collapsing the
    array of face areas in blocks of ten until one entry is left, is the
    plain left-to-right sum of the face areas; for an empty face list it
    is 0.  A face list with a node index outside the node array ends the
    call with the error of that access. *)
Theorem CalculateFaceAreas_total_exact (dG dW : list R) (m : Mesh R)
    (fContainsConcaveFaces : bool) :
  match face_areas dG dW m with
  | Ok areas =>
      exists r,
        CalculateFaceAreas dG dW m fContainsConcaveFaces = Some (Ok r)
        /\ area_total r = linear_sum areas
        /\ vecFaceArea (area_mesh r) = areas
        /\ (faces m = [] -> area_total r = 0%R)
  | Err e => CalculateFaceAreas dG dW m fContainsConcaveFaces = Some (Err e)
  end.
Proof.
  assert (Hassoc : forall a b c : R, (a + (b + c) = (a + b) + c)%real)
    by (intros; cbn; ring).
  assert (H0l : forall a : R, (r_zero + a = a)%real)
    by (intros; rewrite real_exact_zero; cbn; ring).
  assert (H0r : forall a : R, (a + r_zero = a)%real)
    by (intros; rewrite real_exact_zero; cbn; ring).
  unfold CalculateFaceAreas.
  destruct (length (faces m) =? 0)%nat eqn:Hempty.
  - apply Nat.eqb_eq in Hempty. unfold face_areas.
    destruct (faces m); [|discriminate]. cbn [mapM].
    eexists. split; [reflexivity|]. cbn.
    repeat split; auto using real_exact_zero.
  - apply Nat.eqb_neq in Hempty.
    destruct (face_areas dG dW m) as [areas|e] eqn:Hareas; [|reflexivity].
    apply mapM_length in Hareas.
    rewrite (collapse_total Hassoc H0l H0r) by lia.
    eexists. split; [reflexivity|]. cbn [area_total area_mesh].
    split; [symmetry; apply (linear_sum_total Hassoc H0l H0r)|].
    split; [reflexivity|].
    intros Hnil. rewrite Hnil in Hempty. cbn in Hempty. lia.
Qed.


(** The total of 123 octant triangles, and of no face. *)
Example CalculateFaceAreas_123_faces :
  area_view (CalculateFaceAreas two_point_dG two_point_dW (octant_copies 123) false)
  = Some (Ok (180.50508107759185%float, 0)).
Proof. vm_compute. reflexivity. Qed.

Example CalculateFaceAreas_no_face :
  area_view (CalculateFaceAreas two_point_dG two_point_dW (octant_copies 0) false)
  = Some (Ok (0%float, 0)).
Proof. vm_compute. reflexivity. Qed.

Example CalculateFaceAreas_stray_node :
  area_view (CalculateFaceAreas two_point_dG two_point_dW octant_stray false)
  = Some (Err (OutOfBounds "NodeVector")).
Proof. vm_compute. reflexivity. Qed.

(** In binary64 the collapsed sum and the sum from left to right differ:
    of 25 entries 0.1 the first is 2.5, the second is not. *)
Example collapse_rounds_differently :
  collapse 26 (replicate 25 0.1%float) = Some (Ok 2.5%float)
  /\ linear_sum (replicate 25 0.1%float) = 2.5000000000000009%float
  /\ PrimFloat.eqb (linear_sum (replicate 25 0.1%float)) 2.5%float = false.
Proof. vm_compute. repeat split. Qed.

(** ** Mesh::RemoveCoincidentNodes *)

Lemma forM_Err_inv {A S : Type} (body : S -> A -> Exn S) (l : list A) (s : S)
    (e : Error) :
  forM body l s = Err e -> exists s' a, a ∈ l /\ body s' a = Err e.
Proof.
  revert s. induction l as [|a l IH]; intros s; simpl; [discriminate|].
  destruct (body s a) as [s1|e1] eqn:Hbody.
  - intros Hl. destruct (IH _ Hl) as (s' & a' & Ha' & He).
    exists s', a'. split; [by right|assumption].
  - intros [= <-]. exists s, a. split; [left|assumption].
Qed.

Lemma mapM_Err_inv {A B : Type} (f : A -> Exn B) (l : list A) (e : Error) :
  mapM f l = Err e -> exists a, a ∈ l /\ f a = Err e.
Proof.
  induction l as [|a l IH]; simpl; [discriminate|].
  destruct (f a) as [b|e1] eqn:Hf.
  - destruct (mapM f l) as [bs|e2]; [discriminate|].
    intros [= <-]. destruct IH as (a' & Ha' & He); [reflexivity|].
    exists a'. split; [by right|assumption].
  - intros [= <-]. exists a. split; [left|assumption].
Qed.

Section DedupFacts.
Context {Real : Type} `{RealArith Real}.

Lemma RemoveCoincidentNodes_body_error (nodes : NodeVector Real)
    (st : DedupState) (k : nat) (e : Error) :
  RemoveCoincidentNodes_body nodes st k = Err e ->
  e <> OutOfBounds "nodes[0]".
Proof.
  unfold RemoveCoincidentNodes_body, vec_get.
  destruct (nodes !! k) as [node|]; cbn [mbind Exn_bind].
  - destruct (kd_nearest3 (kdt st) node) as [[nodeNearest ix]|].
    + destruct (Magnitude (Node_sub node nodeNearest) <? ReferenceTolerance)%real;
        discriminate.
    + intros [= <-]. discriminate.
  - intros [= <-]. discriminate.
Qed.

(** C9. [RemoveCoincidentNodes] reads [nodes[0]] before any check of the
    size: the access outside the node list happens exactly when the mesh
    has no node. *)
Theorem RemoveCoincidentNodes_reads_first_node (m : Mesh Real) :
  RemoveCoincidentNodes m = Err (OutOfBounds "nodes[0]") <-> nodes m = [].
Proof.
  unfold RemoveCoincidentNodes. split.
  - destruct (nodes m) as [|n0 rest] eqn:Hnodes; [reflexivity|].
    change (vec_get "nodes[0]" (n0 :: rest) 0%nat) with (Ok n0).
    cbn [mbind Exn_bind].
    match goal with |- context [forM ?b ?l ?s] =>
      destruct (forM b l s) as [st|e] eqn:Hloop end; cbn [mbind Exn_bind].
    + destruct (length (vecUniques st) =? length (n0 :: rest))%nat;
        [discriminate|].
      match goal with |- context [mapM ?f (vecUniques st)] =>
        destruct (mapM f (vecUniques st)) as [nodes'|e] eqn:Hnodes' end;
        cbn [mbind Exn_bind].
      * match goal with |- context [mapM ?f (faces m)] =>
          destruct (mapM f (faces m)) as [faces'|e] eqn:Hfaces' end;
          cbn [mbind Exn_bind]; [discriminate|].
        intros [= ->].
        apply mapM_Err_inv in Hfaces' as (face & _ & Hface).
        match type of Hface with context [mapM ?f (edges face)] =>
          destruct (mapM f (edges face)) as [edges'|e] eqn:Hedges' end;
          cbn [mbind Exn_bind] in Hface; [discriminate|].
        injection Hface as ->.
        apply mapM_Err_inv in Hedges' as (edge & _ & Hedge).
        unfold int_at, vec_get in Hedge.
        repeat match type of Hedge with
               | context [if ?b then _ else _] => destruct b
               | context [match ?o with Some _ => _ | None => _ end] => destruct o
               end; cbn [mbind Exn_bind] in Hedge; discriminate.
      * intros [= ->].
        apply mapM_Err_inv in Hnodes' as (u & _ & Hu).
        unfold vec_get in Hu.
        repeat match type of Hu with
               | context [if ?b then _ else _] => destruct b
               | context [match ?o with Some _ => _ | None => _ end] => destruct o
               end; discriminate.
    + intros [= ->].
      apply forM_Err_inv in Hloop as (st & k & _ & Hbody).
      by apply RemoveCoincidentNodes_body_error in Hbody.
  - intros ->. reflexivity.
Qed.

End DedupFacts.

(** ** Deduplication in exact arithmetic *)

Lemma R_ltb_false_iff (a b : R) : R_ltb a b = false <-> (b <= a)%R.
Proof. unfold R_ltb. destruct (Rlt_dec a b); split; intros; try lra; auto; discriminate. Qed.

Lemma R_ltb_true_iff (a b : R) : R_ltb a b = true <-> (a < b)%R.
Proof. unfold R_ltb. destruct (Rlt_dec a b); split; intros; try lra; auto; discriminate. Qed.

Lemma ReferenceTolerance_exact :
  @ReferenceTolerance R real_exact = (/ 100000000)%R.
Proof.
  unfold ReferenceTolerance. cbn. unfold R_lit. cbn.
  replace (Pos.to_nat 8) with 8%nat by reflexivity. cbn [pow].
  rewrite Rmult_1_l. f_equal. lra.
Qed.

Lemma Magnitude_dist_sq (a b : Node R) :
  Magnitude (Node_sub a b) = sqrt (dist_sq a b).
Proof. reflexivity. Qed.

Lemma dist_sq_sym (a b : Node R) : dist_sq a b = dist_sq b a.
Proof. unfold dist_sq. cbn. ring. Qed.


Lemma nearest_fold (pos : Node R) (rest : list (Node R * Z)) :
  forall e0 : Node R * Z,
    let r := fold_left
               (fun best e' =>
                  if (dist_sq (fst e') pos <? dist_sq (fst best) pos)%real
                  then e' else best) rest e0 in
    r ∈ e0 :: rest
    /\ (dist_sq (fst r) pos <= dist_sq (fst e0) pos)%R
    /\ forall e, e ∈ rest -> (dist_sq (fst r) pos <= dist_sq (fst e) pos)%R.
Proof.
  induction rest as [|e1 rest IH]; intros e0; cbn [fold_left]; cbv zeta.
  - repeat split; [left|lra|]. intros e He. by apply elem_of_nil in He.
  - cbn [r_ltb real_exact].
    destruct (R_ltb (dist_sq (fst e1) pos) (dist_sq (fst e0) pos)) eqn:Hlt.
    + apply R_ltb_true_iff in Hlt.
      destruct (IH e1) as (Hin & Hle & Hall). cbv zeta in *; cbn [r_ltb real_exact] in *.
      split; [by right|]. split; [lra|].
      intros e He. apply elem_of_cons in He as [->|He]; auto.
    + apply R_ltb_false_iff in Hlt.
      destruct (IH e0) as (Hin & Hle & Hall). cbv zeta in *; cbn [r_ltb real_exact] in *.
      split.
      { apply elem_of_cons in Hin as [->|Hin]; [left|right; by right]. }
      split; [lra|].
      intros e He. apply elem_of_cons in He as [->|He]; [lra|auto].
Qed.

(** The model of [kd_nearest3] answers with a nearest entry. *)
Lemma kd_nearest3_nearest (kdt : list (Node R * Z)) (pos : Node R) :
  kdt <> [] ->
  exists best, kd_nearest3 kdt pos = Some best
               /\ best ∈ kdt
               /\ forall e, e ∈ kdt ->
                    (dist_sq (fst best) pos <= dist_sq (fst e) pos)%R.
Proof.
  destruct kdt as [|e0 rest]; [congruence|]. intros _.
  destruct (nearest_fold pos rest e0) as (Hin & Hle & Hall).
  cbv zeta in *; cbn [r_ltb real_exact] in *. eexists. split; [reflexivity|]. split; [exact Hin|].
  intros e He. apply elem_of_cons in He as [->|He]; auto.
Qed.

Lemma forM_seq_invariant {S : Type} (I : nat -> S -> Prop)
    (body : S -> nat -> Exn S) (c : nat) :
  forall (a : nat) (s : S),
    (forall k s, (a <= k < a + c)%nat -> I k s ->
                 exists s', body s k = Ok s' /\ I (Datatypes.S k) s') ->
    I a s ->
    exists s', forM body (seq a c) s = Ok s' /\ I (a + c)%nat s'.
Proof.
  induction c as [|c IH]; intros a s Hbody Hs; cbn [seq forM].
  - exists s. rewrite Nat.add_0_r. auto.
  - destruct (Hbody a s) as (s1 & -> & Hs1); [lia|assumption|].
    destruct (IH (Datatypes.S a) s1) as (s' & Hs' & HI); [|assumption|].
    + intros k s0 Hk. apply Hbody. lia.
    + exists s'. split; [assumption|].
      replace (a + Datatypes.S c)%nat with (Datatypes.S a + c)%nat by lia.
      assumption.
Qed.

(** Every entry of the tree carries its own position as payload. *)
Lemma dedup_invariant_entry (nodes : NodeVector R) (k : nat) (st : DedupState)
    (e : Node R * Z) :
  dedup_invariant nodes k st -> e ∈ kdt st ->
  exists j, kdt st !! j = Some e /\ snd e = Z.of_nat j
            /\ (j < length (vecUniques st))%nat.
Proof.
  intros Hinv He.
  apply list_elem_of_lookup_1 in He as [j Hj].
  assert (Hlt : (j < length (vecUniques st))%nat).
  { rewrite <- (inv_tree_length _ _ _ Hinv). eapply lookup_lt_Some; eauto. }
  destruct (lookup_lt_is_Some_2 _ _ Hlt) as [u Hu].
  destruct (inv_tree _ _ _ Hinv j u Hu) as (_ & p & _ & Hp).
  rewrite Hp in Hj. injection Hj as <-.
  exists j. auto.
Qed.

Lemma dedup_step (nodes : NodeVector R) (k : nat) (st : DedupState) :
  (1 <= k < length nodes)%nat ->
  Z.of_nat (length nodes) < 2 ^ 31 ->
  dedup_invariant nodes k st ->
  exists st', RemoveCoincidentNodes_body nodes st k = Ok st'
              /\ dedup_invariant nodes (S k) st'.
Proof.
  intros Hk Hsmall Hinv.
  pose proof Hinv as [Hnew Htree Hbound Hall Hent Hrange Hspace].
  unfold RemoveCoincidentNodes_body.
  destruct (lookup_lt_is_Some_2 nodes k) as [node Hnode]; [lia|].
  unfold vec_get. rewrite Hnode. cbn [mbind Exn_bind].
  destruct (kd_nearest3_nearest (kdt st) node) as (best & -> & Hin & Hnear).
  { intros Hnil. rewrite Hnil in Htree. cbn in Htree. lia. }
  destruct (dedup_invariant_entry nodes k st best Hinv Hin) as (jb & Hjb & Hpay & Hjlt).
  destruct best as [nodeNearest ix]. cbn [fst snd] in *. subst ix.
  cbn [r_ltb real_exact].
  destruct (R_ltb (Magnitude (Node_sub node nodeNearest)) ReferenceTolerance)
    eqn:Hclose.
  - (* the node is merged into an earlier one *)
    eexists. split; [reflexivity|].
    rewrite to_int_small by lia.
    constructor; cbn [kdt vecNewNodeIndex vecUniques].
    + rewrite length_app, Hnew. cbn. lia.
    + assumption.
    + lia.
    + intros Hlen. lia.
    + intros j u Hu. destruct (Hent j u Hu) as (Hu' & p & Hp & Hkd).
      split; [lia|]. eauto.
    + intros i v Hv. apply lookup_snoc_Some in Hv as [[_ Hv]|[_ <-]]; eauto.
      lia.
    + assumption.
  - (* the node is a new unique *)
    apply R_ltb_false_iff in Hclose.
    eexists. split; [reflexivity|].
    rewrite !to_int_small by lia.
    constructor; cbn [kdt vecNewNodeIndex vecUniques].
    + rewrite length_app, Hnew. cbn. lia.
    + unfold kd_insert3. rewrite !length_app, Htree. reflexivity.
    + rewrite length_app. cbn. lia.
    + rewrite length_app. cbn [length]. intros Hlen.
      rewrite Hall by lia. rewrite seq_S, map_app. reflexivity.
    + intros j u Hu.
      apply lookup_snoc_Some in Hu as [[Hj Hu]|[-> <-]].
      * destruct (Hent j u Hu) as (Hu' & p & Hp & Hkd).
        split; [lia|]. exists p. split; [assumption|].
        unfold kd_insert3. rewrite lookup_app_l by lia. assumption.
      * split; [lia|]. exists node. rewrite Nat2Z.id. split; [assumption|].
        unfold kd_insert3. rewrite <- Htree.
        rewrite lookup_app_r by lia. rewrite Nat.sub_diag. cbn.
        rewrite Htree. reflexivity.
    + intros i v Hv. rewrite length_app. cbn.
      apply lookup_snoc_Some in Hv as [[_ Hv]|[_ <-]].
      * specialize (Hrange i v Hv). lia.
      * lia.
    + intros i j p q di dj Hij Hi Hj. cbn [r_ltb real_exact].
      unfold kd_insert3 in Hi, Hj.
      apply lookup_snoc_Some in Hj as [[Hjl Hj]|[Hjl Hj]].
      * apply lookup_snoc_Some in Hi as [[Hil Hi]|[Hil _]]; [|lia].
        exact (Hspace i j p q di dj Hij Hi Hj).
      * injection Hj as <- <-.
        apply lookup_snoc_Some in Hi as [[Hil Hi]|[Hil _]]; [|lia].
        apply R_ltb_false_iff.
        assert (Hp : (p, di) ∈ kdt st) by (eapply list_elem_of_lookup_2; eauto).
        specialize (Hnear _ Hp). cbn [fst] in Hnear.
        rewrite Magnitude_dist_sq in Hclose |- *.
        rewrite (dist_sq_sym node nodeNearest) in Hclose.
        rewrite (dist_sq_sym node p).
        pose proof (sqrt_le_1_alt _ _ Hnear). lra.
Qed.


Lemma dedup_initial (n0 : Node R) (rest : NodeVector R) :
  dedup_invariant (n0 :: rest) 1
    (mkDedupState (kd_insert3 kd_create n0 0) [0] [0]).
Proof.
  constructor; cbn [kdt vecNewNodeIndex vecUniques kd_insert3 kd_create app].
  - reflexivity.
  - reflexivity.
  - cbn. lia.
  - reflexivity.
  - intros j u Hu. apply list_lookup_singleton_Some in Hu as [-> <-].
    split; [lia|]. exists n0. split; reflexivity.
  - intros i v Hv. apply list_lookup_singleton_Some in Hv as [-> <-].
    cbn. lia.
  - intros i j p q di dj Hij Hi Hj.
    apply list_lookup_singleton_Some in Hj as [-> _]. lia.
Qed.



Example RemoveCoincidentNodes_repeated_corner :
  RemoveCoincidentNodes repeated_corner_mesh
  = Ok (set_faces
          (set_nodes empty_mesh
             [ mkNode 1%float 0%float 0%float; mkNode 0%float 1%float 0%float ])
          [ mkFace [ mkEdge 0 1 Type_Default; mkEdge 1 0 Type_Default;
                     mkEdge 0 0 Type_Default ] ]).
Proof. vm_compute. reflexivity. Qed.

Example RemoveCoincidentNodes_empty :
  RemoveCoincidentNodes (@empty_mesh float) = Err (OutOfBounds "nodes[0]").
Proof. vm_compute. reflexivity. Qed.

(** ** Deduplication in any arithmetic *)

Section DedupIndices.
Context {Real : Type} `{RealArith Real}.






End DedupIndices.

(** ** Deduplication in binary64 *)





(** ** NodeTree *)

Lemma to_size_t_small (v : Z) : 0 <= v < 2 ^ 64 -> to_size_t v = v.
Proof. intros Hv. unfold to_size_t. apply Z.mod_small. assumption. Qed.

Section NodeTreeFacts.
Context {Real : Type} `{RealArith Real}.

Lemma find_minimal_cons (e : Node Real * Z) (res : list (Node Real * Z))
    (m0 : Z) :
  find_minimal (e :: res) m0
  = find_minimal res
      (if to_size_t (snd e) <? m0 then to_size_t (snd e) else m0).
Proof. reflexivity. Qed.

(** The running minimum ends at the least of its start value and the
    payloads. *)
Lemma find_minimal_spec (res : list (Node Real * Z)) :
  forall m0 : Z,
    find_minimal res m0 <= m0
    /\ (forall e, e ∈ res -> find_minimal res m0 <= to_size_t (snd e))
    /\ (find_minimal res m0 = m0
        \/ exists e, e ∈ res /\ find_minimal res m0 = to_size_t (snd e)).
Proof.
  induction res as [|e res IH]; intros m0.
  - cbn. split; [lia|]. split; [|by left].
    intros e He. by apply elem_of_nil in He.
  - rewrite find_minimal_cons.
    destruct (to_size_t (snd e) <? m0) eqn:Hlt.
    + apply Z.ltb_lt in Hlt.
      destruct (IH (to_size_t (snd e))) as (Hle & Hall & Hmem).
      split; [lia|]. split.
      * intros e' He'. apply elem_of_cons in He' as [->|He']; auto.
      * right. destruct Hmem as [Heq|(e' & He' & Heq)].
        -- exists e. split; [left|assumption].
        -- exists e'. split; [by right|assumption].
    + apply Z.ltb_ge in Hlt.
      destruct (IH m0) as (Hle & Hall & Hmem).
      split; [lia|]. split.
      * intros e' He'. apply elem_of_cons in He' as [->|He']; [lia|auto].
      * destruct Hmem as [Heq|(e' & He' & Heq)]; [by left|].
        right. exists e'. split; [by right|assumption].
Qed.

(** The running minimum does not depend on the order of the result set. *)
Lemma find_minimal_perm (res res' : list (Node Real * Z)) (m0 : Z) :
  res ≡ₚ res' -> find_minimal res m0 = find_minimal res' m0.
Proof.
  intros Hperm.
  destruct (find_minimal_spec res m0) as (Hle & Hall & Hmem).
  destruct (find_minimal_spec res' m0) as (Hle' & Hall' & Hmem').
  apply Z.le_antisymm.
  - destruct Hmem' as [->|(e & He & ->)]; [assumption|].
    apply Hall. by rewrite Hperm.
  - destruct Hmem as [->|(e & He & ->)]; [assumption|].
    apply Hall'. by rewrite <- Hperm.
Qed.

Lemma kd_nearest_range3_perm (kdt kdt' : kdtree Real) (pos : Node Real)
    (range : Real) :
  kdt ≡ₚ kdt' ->
  kd_nearest_range3 kdt pos range ≡ₚ kd_nearest_range3 kdt' pos range.
Proof. intros Hperm. unfold kd_nearest_range3. by rewrite Hperm. Qed.

Lemma NodeTree_find_perm (t t' : NodeTree Real) (node : Node Real) :
  m_kdtree t' ≡ₚ m_kdtree t ->
  m_minimum_spacing t' = m_minimum_spacing t ->
  NodeTree_find t' node = NodeTree_find t node.
Proof.
  intros Hperm Hspacing. unfold NodeTree_find. rewrite Hspacing.
  pose proof (kd_nearest_range3_perm _ _ node (m_minimum_spacing t) Hperm)
    as Hres.
  rewrite (Permutation_length Hres).
  rewrite (find_minimal_perm _ _ _ Hres). reflexivity.
Qed.

Lemma NodeTree_find_smallest (t : NodeTree Real) (node : Node Real) :
  Forall (fun e => 0 <= snd e < INT_MAX) (m_kdtree t) ->
  (indices_in_range t node = [] ->
   NodeTree_find t node = Ok (to_size_t InvalidNode))
  /\ (indices_in_range t node <> [] ->
      exists i, NodeTree_find t node = Ok i
                /\ is_smallest i (indices_in_range t node)).
Proof.
  intros Hrange. unfold indices_in_range, NodeTree_find.
  remember (kd_nearest_range3 (m_kdtree t) node (m_minimum_spacing t))
    as res eqn:Hdef.
  assert (Hres : forall e, e ∈ res -> 0 <= snd e < INT_MAX).
  { intros e He. rewrite Forall_forall in Hrange. apply Hrange.
    rewrite Hdef in He. unfold kd_nearest_range3 in He.
    apply list_elem_of_filter in He. tauto. }
  clear Hdef.
  assert (Hsz : forall e, e ∈ res -> to_size_t (snd e) = snd e).
  { intros e He. apply to_size_t_small. specialize (Hres e He).
    unfold INT_MAX in Hres. lia. }
  split.
  - intros Hnil. destruct res; [reflexivity|discriminate].
  - intros Hne.
    destruct res as [|e0 res0] eqn:Hres0; [cbn in Hne; congruence|].
    rewrite <- Hres0 in *.
    assert (Hlen : (Z.of_nat (length res) =? 0) = false).
    { rewrite Hres0. cbn [length]. apply Z.eqb_neq. lia. }
    rewrite Hlen.
    destruct (find_minimal_spec res (to_size_t INT_MAX)) as (Hle & Hall & Hmem).
    assert (He0 : e0 ∈ res) by (rewrite Hres0; left).
    assert (Hmax : to_size_t INT_MAX = INT_MAX) by reflexivity.
    assert (Hlt : find_minimal res (to_size_t INT_MAX) < INT_MAX).
    { specialize (Hall e0 He0). rewrite (Hsz e0 He0) in Hall.
      specialize (Hres e0 He0). lia. }
    destruct (find_minimal res (to_size_t INT_MAX) =? to_size_t INT_MAX) eqn:Heq.
    { apply Z.eqb_eq in Heq. lia. }
    eexists. split; [reflexivity|]. split.
    + destruct Hmem as [Hm|(e & He & Hm)]; [lia|].
      rewrite Hm, (Hsz e He). apply list_elem_of_fmap. eauto.
    + intros j Hj. apply list_elem_of_fmap in Hj as (e & -> & He).
      rewrite <- (Hsz e He). auto.
Qed.

Lemma NodeTree_find_or_insert_range (t : NodeTree Real) (node : Node Real)
    (index : Z) :
  Forall (fun e => 0 <= snd e < INT_MAX) (m_kdtree t) ->
  0 <= index < INT_MAX ->
  exists r t',
    NodeTree_find_or_insert t node index = Ok (r, t')
    /\ Forall (fun e => 0 <= snd e < INT_MAX) (m_kdtree t')
    /\ m_minimum_spacing t' = m_minimum_spacing t
    /\ (forall e, e ∈ m_kdtree t' -> e ∈ m_kdtree t \/ e = (node, index)).
Proof.
  intros Hrange Hindex. unfold NodeTree_find_or_insert.
  destruct (NodeTree_find_smallest t node Hrange) as [Hnone Hsome].
  destruct (indices_in_range t node) as [|i0 l] eqn:Hind.
  - rewrite Hnone by reflexivity. cbn [mbind Exn_bind].
    change (negb (to_size_t (to_int (to_size_t InvalidNode))
                  =? to_size_t InvalidNode)) with false.
    cbn iota. eexists _, _. split; [reflexivity|].
    cbn [m_kdtree m_minimum_spacing]. unfold kd_insert3.
    split; [|split; [reflexivity|]].
    + apply Forall_app. split; [assumption|].
      constructor; [exact Hindex|constructor].
    + intros e He. apply elem_of_app in He as [He|He]; [by left|].
      right. by apply list_elem_of_singleton in He.
  - destruct Hsome as (i & -> & Hi & _); [discriminate|].
    cbn [mbind Exn_bind].
    assert (Hi' : 0 <= i < INT_MAX).
    { unfold indices_in_range in Hind. rewrite <- Hind in Hi.
      apply list_elem_of_fmap in Hi as (e & -> & He).
      rewrite Forall_forall in Hrange. apply Hrange.
      unfold kd_nearest_range3 in He. apply list_elem_of_filter in He. tauto. }
    unfold INT_MAX in Hi'.
    rewrite to_int_small by lia. rewrite (to_size_t_small i) by lia.
    destruct (i =? to_size_t InvalidNode) eqn:Heq.
    { apply Z.eqb_eq in Heq. change (to_size_t InvalidNode) with (2 ^ 64 - 1) in Heq.
      lia. }
    cbn [negb]. eexists _, _. split; [reflexivity|]. auto.
Qed.

Lemma insert_all_range (points : list (Node Real * Z)) :
  forall t : NodeTree Real,
    Forall (fun e => 0 <= snd e < INT_MAX) (m_kdtree t) ->
    Forall (fun p => 0 <= snd p < INT_MAX) points ->
    exists t',
      insert_all t points = Ok t'
      /\ Forall (fun e => 0 <= snd e < INT_MAX) (m_kdtree t')
      /\ m_minimum_spacing t' = m_minimum_spacing t
      /\ (forall e, e ∈ m_kdtree t' -> e ∈ m_kdtree t \/ e ∈ points).
Proof.
  induction points as [|[node index] points IH]; intros t Ht Hpoints.
  - exists t. repeat split; auto.
  - inversion Hpoints as [|? ? Hindex Hpoints']; subst.
    destruct (NodeTree_find_or_insert_range t node index Ht Hindex)
      as (r & t1 & Hins & Ht1 & Hsp1 & Hsub1).
    destruct (IH t1 Ht1 Hpoints') as (t' & Hall & Ht' & Hsp' & Hsub').
    exists t'. unfold insert_all in *. cbn [forM].
    rewrite Hins. cbn [mbind Exn_bind mret Exn_ret snd].
    split; [assumption|]. split; [assumption|]. split; [congruence|].
    intros e He. destruct (Hsub' e He) as [He1|He1].
    + destruct (Hsub1 e He1) as [He0| ->]; [by left|right; left].
    + right. by right.
Qed.

(** Where code and claim agree.  After any sequence of [find_or_insert]
    calls whose indices lie below [INT_MAX], on a fresh tree, [find]
    returns the smallest index among the points that the tree holds
    within the minimum spacing of the query, and the sentinel
    [InvalidNode] when there is none; the answer is the same for every
    order of the entries of the tree. *)
Theorem NodeTree_find_smallest_index (minimum_spacing : Real)
    (points : list (Node Real * Z)) (node : Node Real) :
  Forall (fun p => 0 <= snd p < INT_MAX) points ->
  exists t,
    insert_all (NodeTree_new minimum_spacing) points = Ok t
    /\ (forall e, e ∈ m_kdtree t -> e ∈ points)
    /\ (indices_in_range t node = [] ->
        NodeTree_find t node = Ok (to_size_t InvalidNode))
    /\ (indices_in_range t node <> [] ->
        exists i, NodeTree_find t node = Ok i
                  /\ is_smallest i (indices_in_range t node))
    /\ (forall t', m_kdtree t' ≡ₚ m_kdtree t ->
                   m_minimum_spacing t' = m_minimum_spacing t ->
                   NodeTree_find t' node = NodeTree_find t node).
Proof.
  intros Hpoints.
  destruct (insert_all_range points (NodeTree_new minimum_spacing))
    as (t & Hall & Ht & _ & Hsub); [constructor|assumption|].
  exists t. split; [assumption|]. split.
  { intros e He. destruct (Hsub e He) as [He0|He0]; [|assumption].
    by apply elem_of_nil in He0. }
  destruct (NodeTree_find_smallest t node Ht) as [Hnone Hsome].
  split; [assumption|]. split; [assumption|].
  intros t'. apply NodeTree_find_perm.
Qed.

End NodeTreeFacts.

Example insert_all_three_points :
  insert_all (NodeTree_new ReferenceTolerance) three_points
  = Ok (mkNodeTree ReferenceTolerance [ (axis_x, 0); (axis_y, 1) ] 2).
Proof. vm_compute. reflexivity. Qed.

Example find_three_points :
  (t ← insert_all (NodeTree_new ReferenceTolerance) three_points;
   NodeTree_find t axis_y) = Ok 1
  /\ (t ← insert_all (NodeTree_new ReferenceTolerance) three_points;
      NodeTree_find t axis_z) = Ok (2 ^ 64 - 1).
Proof. split; vm_compute; reflexivity. Qed.

Lemma NodeTree_find_smallest_index_witness :
  Forall (fun p : Node float * Z => 0 <= snd p < INT_MAX) three_points
  /\ exists t,
       insert_all (NodeTree_new ReferenceTolerance) three_points = Ok t
       /\ (forall e, e ∈ m_kdtree t -> e ∈ three_points)
       /\ (indices_in_range t axis_x = [] ->
           NodeTree_find t axis_x = Ok (to_size_t InvalidNode))
       /\ (indices_in_range t axis_x <> [] ->
           exists i, NodeTree_find t axis_x = Ok i
                     /\ is_smallest i (indices_in_range t axis_x))
       /\ (forall t', m_kdtree t' ≡ₚ m_kdtree t ->
                      m_minimum_spacing t' = m_minimum_spacing t ->
                      NodeTree_find t' axis_x = NodeTree_find t axis_x).
Proof.
  assert (Hrange : Forall (fun p : Node float * Z => 0 <= snd p < INT_MAX)
                     three_points)
    by (repeat constructor; vm_compute; congruence).
  split; [exact Hrange|].
  exact (NodeTree_find_smallest_index ReferenceTolerance three_points axis_x
           Hrange).
Defined.

(** C4.  [find] seeds its running minimum, a [size_t], with the largest
    [int] and asserts that the minimum has moved, while [find_or_insert]
    stores any [size_t] index as it comes.  The point inserted with the
    index 2^31 on a fresh tree is the only one in range of the query, and
    [find] fails its own assertion instead of returning 2^31, the
    smallest index in range. *)
Lemma NodeTree_find_index_beyond_INT_MAX :
  exists t,
    NodeTree_find_or_insert (NodeTree_new ReferenceTolerance) axis_x (2 ^ 31)
    = Ok (2 ^ 31, t)
    /\ indices_in_range t axis_x = [2 ^ 31]
    /\ NodeTree_find t axis_x = Err AssertionFailure
    /\ NodeTree_find t axis_x <> Ok (2 ^ 31).
Proof.
  exists (mkNodeTree ReferenceTolerance [ (axis_x, 2 ^ 31) ] 1).
  repeat split; try (vm_compute; reflexivity).
  vm_compute. discriminate.
Qed.

(** ** Mesh::Validate *)

Example Validate_octant : Validate octant_mesh = Ok tt.
Proof. vm_compute. reflexivity. Qed.

Example Validate_octant_clockwise :
  Validate octant_mesh_clockwise
  = Err (Exception "Mesh validation failed: Clockwise or concave face detected").
Proof. vm_compute. reflexivity. Qed.

Example Validate_dart :
  Validate dart_mesh
  = Err (Exception "Mesh validation failed: Clockwise or concave face detected").
Proof. vm_compute. reflexivity. Qed.

Section ValidationFacts.
Context {Real : Type} `{RealArith Real}.

Lemma next_nonzero_edge_immediate (face : Face) (k : nat) (e : Edge) :
  edges face !! k = Some e -> node0 e <> node1 e ->
  next_nonzero_edge (edges_round_from face k) = Ok k.
Proof.
  intros He Hnz. unfold edges_round_from.
  assert (Hk : zip (seq 0 (length (edges face))) (edges face) !! k
               = Some (k, e)).
  { rewrite lookup_zip_with, He.
    rewrite lookup_seq_lt by (eapply lookup_lt_Some; eauto).
    reflexivity. }
  rewrite (drop_S _ _ _ Hk). cbn [app next_nonzero_edge].
  destruct (Z.eqb_spec (node0 e) (node1 e)); [contradiction|reflexivity].
Qed.

(** On a face without zero edges the code checks every edge against the
    next non-zero edge, as the stated rule has it. *)
Lemma Validate_edge_agrees (nodes : NodeVector Real) (face : Face) (j : nat) :
  Forall (fun e => node0 e <> node1 e) (edges face) ->
  (j < length (edges face))%nat ->
  Validate_edge nodes face j = Validate_edge_as_specified nodes face j.
Proof.
  intros Hnz Hj.
  assert (Hk : ((j + 1) mod length (edges face) < length (edges face))%nat)
    by (apply Nat.mod_upper_bound; lia).
  destruct (lookup_lt_is_Some_2 _ _ Hk) as [e He].
  assert (Hne : node0 e <> node1 e).
  { rewrite Forall_forall in Hnz. apply Hnz.
    eapply list_elem_of_lookup_2; eauto. }
  unfold Validate_edge, Validate_edge_as_specified.
  rewrite (next_nonzero_edge_immediate face _ e He Hne).
  reflexivity.
Qed.

Lemma Validate_edges_agree (nodes : NodeVector Real) (face : Face)
    (rest : list Edge) :
  forall j : nat,
    Forall (fun e => node0 e <> node1 e) (edges face) ->
    (j + length rest = length (edges face))%nat ->
    Validate_edges nodes face rest j
    = Validate_edges_as_specified nodes face rest j.
Proof.
  induction rest as [|e rest IH]; intros j Hnz Hlen; [reflexivity|].
  cbn [Validate_edges Validate_edges_as_specified length] in *.
  rewrite IH by (auto; lia).
  rewrite Validate_edge_agrees by (auto; lia).
  reflexivity.
Qed.

Lemma Validate_agrees_without_zero_edges (m : Mesh Real) :
  Forall (fun face => Forall (fun e => node0 e <> node1 e) (edges face))
    (faces m) ->
  Validate m = Validate_as_specified m.
Proof.
  intros Hnz. unfold Validate, Validate_as_specified.
  f_equal.
  match goal with |- (fun _ => ?a) = (fun _ => ?b) => assert (Heq : a = b) end;
    [|by rewrite Heq].
  apply forM_ext. intros [] face Hface.
  apply Validate_edges_agree; [|reflexivity].
  rewrite Forall_forall in Hnz. auto.
Qed.

End ValidationFacts.

(** C2. At the dart with a zero edge after its clockwise corner, the
    code passes a face that the stated rule rejects: the edge that ends
    at the clockwise corner is checked against the zero edge that follows
    it, not against the next non-zero edge. *)
Theorem Validate_skips_corner_before_zero_edge :
  Validate dart_mesh_zero_edge = Ok tt
  /\ Validate_as_specified dart_mesh_zero_edge
     = Err (Exception "Mesh validation failed: Clockwise or concave face detected").
Proof. split; vm_compute; reflexivity. Qed.

(** ** Mesh::Read *)

Example Read_scrip_file_log :
  io_log (Read cos sin (one_file "grid.nc" scrip_file) "grid.nc" false empty_mesh)
  = [ Announce "SCRIP Format File detected";
      Announce "Mesh size: Nodes [6] Elements [2]" ].
Proof. vm_compute. reflexivity. Qed.

Example Read_exodus_file :
  forall r_cos r_sin,
  Read r_cos r_sin (one_file "mesh.g" (exodus_file [1; 2; 3] [1])) "mesh.g" true
    empty_mesh
  = mkIO [ Announce "Mesh size: Nodes [3] Elements [1]";
           Call_RemoveCoincidentNodes ]
      (Ok (set_strFileName octant_mesh "mesh.g")).
Proof. intros. vm_compute. reflexivity. Qed.

Example Read_icon_file :
  forall r_cos r_sin : float -> float,
    Read r_cos r_sin (one_file "icon.nc" (icon_file [1; 2; 3])) "icon.nc" true
      empty_mesh
    = mkIO [] (Ok (set_strFileName octant_mesh "icon.nc")).
Proof. intros. vm_compute. reflexivity. Qed.

(** The ICON branch holds every vertex id of a cell against the range of
    the node list. *)
Example Read_icon_file_out_of_range :
  forall r_cos r_sin : float -> float,
    io_result (Read r_cos r_sin (one_file "icon.nc" (icon_file [1; 2; 7]))
                 "icon.nc" true empty_mesh)
    = Err (Exception ("ICON grid file " +:+ quoted "icon.nc"
                      +:+ " vertex 2 cell 0 out of range (7)")).
Proof. intros. vm_compute. reflexivity. Qed.

(** C7. Ids out of range in an Exodus file are not all fatal read errors:
    a connectivity entry that names node 7 of 3, or node 0, is taken as
    it is, and the read ends normally with a face that points outside the
    node list; a global id of 0 is a write before the face list; only a
    global id above the number of elements raises an exception, whose
    message names the field and not the file. *)
Theorem Read_Exodus_ids_out_of_range :
  forall r_cos r_sin : float -> float,
    Read r_cos r_sin (one_file "mesh.g" (exodus_file [1; 2; 7] [1])) "mesh.g"
      true empty_mesh
    = mkIO [ Announce "Mesh size: Nodes [3] Elements [1]";
             Call_RemoveCoincidentNodes ]
        (Ok (set_strFileName
               (set_faces octant_mesh
                  [ mkFace [ mkEdge 0 1 Type_Default; mkEdge 1 6 Type_Default;
                             mkEdge 6 0 Type_Default ] ])
               "mesh.g"))
    /\ Read r_cos r_sin (one_file "mesh.g" (exodus_file [1; 2; 0] [1])) "mesh.g"
         true empty_mesh
       = mkIO [ Announce "Mesh size: Nodes [3] Elements [1]";
                Call_RemoveCoincidentNodes ]
           (Ok (set_strFileName
                  (set_faces octant_mesh
                     [ mkFace [ mkEdge 0 1 Type_Default;
                                mkEdge 1 (-1) Type_Default;
                                mkEdge (-1) 0 Type_Default ] ])
                  "mesh.g"))
    /\ io_result
         (Read r_cos r_sin (one_file "mesh.g" (exodus_file [1; 2; 3] [0]))
            "mesh.g" true empty_mesh)
       = Err (OutOfBounds "faces")
    /\ io_result
         (Read r_cos r_sin (one_file "mesh.g" (exodus_file [1; 2; 3] [2]))
            "mesh.g" true empty_mesh)
       = Err (Exception "global_id 2 out of range [1,1]").
Proof. intros. repeat split; vm_compute; reflexivity. Qed.

Section ExodusParents.
Context {Real : Type} `{RealArith Real}.

Lemma forM_app {A S : Type} (body : S -> A -> Exn S) (l1 l2 : list A) (s : S) :
  forM body (l1 ++ l2) s = (forM body l1 s ≫= forM body l2).
Proof.
  revert s. induction l1 as [|a l1 IH]; intros s; cbn [forM app].
  - reflexivity.
  - destruct (body s a) as [s'|e]; [apply IH|reflexivity].
Qed.

Lemma vec_put_length {A} (what : string) (v v' : list A) (i : nat) (a : A) :
  vec_put what v i a = Ok v' -> length v' = length v.
Proof.
  unfold vec_put. destruct (i <? length v)%nat; [|discriminate].
  intros [= <-]. apply length_insert.
Qed.

Lemma put_at_length {A} (what : string) (v v' : list A) (ix : Z) (a : A) :
  put_at what v ix a = Ok v' -> length v' = length v.
Proof.
  unfold put_at. destruct (ix <? 0); [discriminate|]. apply vec_put_length.
Qed.

(** The rule for the parent variable of one block. *)
Lemma Exodus_load_parent_absent (ncFile : NcFile Real) (strFile szParent : string)
    (nTotalElementCount nElementCount : nat) (vecFaceIx : list Z) :
  get_var ncFile szParent = None ->
  Exodus_load_parent ncFile strFile szParent nTotalElementCount nElementCount
    vecFaceIx
  = match vecFaceIx with
    | [] => Ok ([], replicate nElementCount 0)
    | _ :: _ =>
        Err (Exception ("Exodus Grid file " +:+ quoted strFile
                        +:+ " is missing variable " +:+ quoted szParent))
    end.
Proof.
  intros Hvar. unfold Exodus_load_parent. rewrite Hvar.
  destruct vecFaceIx; reflexivity.
Qed.

Lemma Exodus_load_parent_present (ncFile : NcFile Real)
    (strFile szParent : string) (nTotalElementCount nElementCount : nat)
    (vecFaceIx : list Z) (varParent : NcVar Real) :
  get_var ncFile szParent = Some varParent ->
  Exodus_load_parent ncFile strFile szParent nTotalElementCount nElementCount
    vecFaceIx
  = Ok (match vecFaceIx with
        | [] => replicate nTotalElementCount 0
        | _ :: _ => vecFaceIx
        end,
        read_ints varParent nElementCount).
Proof.
  intros Hvar. unfold Exodus_load_parent. rewrite Hvar.
  destruct vecFaceIx; [|reflexivity].
  cbn. unfold resize. rewrite take_nil. cbn [length app].
  by rewrite Nat.sub_0_r.
Qed.

(** The parent array that comes out of the loading is empty only if it
    went in empty. *)
Lemma Exodus_load_parent_nonempty (ncFile : NcFile Real)
    (strFile szParent : string) (nTotalElementCount nElementCount : nat)
    (vecFaceIx vec' iParent : list Z) :
  Exodus_load_parent ncFile strFile szParent nTotalElementCount nElementCount
    vecFaceIx = Ok (vec', iParent) ->
  (vecFaceIx <> [] -> vec' <> [])
  /\ (is_Some (get_var ncFile szParent) -> (0 < nTotalElementCount)%nat ->
      vec' <> []).
Proof.
  destruct (get_var ncFile szParent) as [var|] eqn:Hvar.
  - rewrite (Exodus_load_parent_present _ _ _ _ _ _ _ Hvar).
    intros [= <- <-]. split.
    + destruct vecFaceIx; congruence.
    + intros _ Hpos. destruct vecFaceIx; [|discriminate].
      destruct nTotalElementCount; [lia|discriminate].
  - rewrite (Exodus_load_parent_absent _ _ _ _ _ _ Hvar).
    destruct vecFaceIx; [|discriminate].
    intros [= <- <-]. split; [congruence|].
    intros [? ?]. discriminate.
Qed.

Lemma Exodus_assemble_parent_lengths (nTotalElementCount : Z)
    (nElementCount nNodesPerElement : nat)
    (iConnect iGlobalId iEdgeType iParentA iParentB : list Z)
    (m m' : Mesh Real) :
  Exodus_assemble nTotalElementCount nElementCount nNodesPerElement
    iConnect iGlobalId iEdgeType iParentA iParentB m = Ok m' ->
  length (vecSourceFaceIx m') = length (vecSourceFaceIx m)
  /\ length (vecTargetFaceIx m') = length (vecTargetFaceIx m).
Proof.
  unfold Exodus_assemble.
  apply (forM_invariant
           (fun m0 => length (vecSourceFaceIx m0) = length (vecSourceFaceIx m)
                      /\ length (vecTargetFaceIx m0) = length (vecTargetFaceIx m)));
    [|split; reflexivity].
  intros m0 i m1 _ [HA HB].
  destruct (to_int (nth i iGlobalId 0 - 1) >=? nTotalElementCount);
    [discriminate|].
  destruct (put_at "faces" (faces m0) _ _) as [faces1|]; [|discriminate].
  cbn [mbind Exn_bind].
  match goal with |- context [forM ?b ?l ?s] =>
    destruct (forM b l s) as [faces2|] end; [|discriminate].
  cbn [mbind Exn_bind vecSourceFaceIx vecTargetFaceIx set_faces].
  destruct (length (vecSourceFaceIx m0) =? 0)%nat eqn:HeA; cbn [negb].
  - cbn [mbind Exn_bind mret Exn_ret vecSourceFaceIx vecTargetFaceIx set_faces].
    destruct (length (vecTargetFaceIx m0) =? 0)%nat eqn:HeB; cbn [negb].
    + intros [= <-]. cbn. auto.
    + destruct (put_at "vecTargetFaceIx" _ _ _) as [v|] eqn:Hput;
        [|discriminate].
      cbn [mbind Exn_bind mret Exn_ret]. intros [= <-]. cbn.
      apply put_at_length in Hput. split; congruence.
  - destruct (put_at "vecSourceFaceIx" _ _ _) as [vA|] eqn:HputA;
      [|discriminate].
    cbn [mbind Exn_bind mret Exn_ret vecSourceFaceIx vecTargetFaceIx
         set_faces set_vecSourceFaceIx].
    apply put_at_length in HputA.
    destruct (length (vecTargetFaceIx m0) =? 0)%nat eqn:HeB; cbn [negb].
    + intros [= <-]. cbn. split; congruence.
    + destruct (put_at "vecTargetFaceIx" _ _ _) as [v|] eqn:Hput;
        [|discriminate].
      cbn [mbind Exn_bind mret Exn_ret]. intros [= <-]. cbn.
      apply put_at_length in Hput. split; congruence.
Qed.

(** What a block that is read without error has gone through. *)
Lemma Exodus_block_Ok_inv (ncFile : NcFile Real) (strFile : string)
    (legacy : bool) (nTotalElementCount : Z) (m m' : Mesh Real) (n : nat) :
  Exodus_block ncFile strFile legacy nTotalElementCount m n = Ok m' ->
  exists nElementCount nNodesPerElement iConnect iGlobalId iEdgeType
         vecA iParentA vecB iParentB,
    Exodus_load_parent ncFile strFile (szParentA legacy n)
      (Z.to_nat nTotalElementCount) nElementCount (vecSourceFaceIx m)
    = Ok (vecA, iParentA)
    /\ Exodus_load_parent ncFile strFile (szParentB legacy n)
         (Z.to_nat nTotalElementCount) nElementCount (vecTargetFaceIx m)
       = Ok (vecB, iParentB)
    /\ Exodus_assemble nTotalElementCount nElementCount nNodesPerElement
         iConnect iGlobalId iEdgeType iParentA iParentB
         (set_vecTargetFaceIx (set_vecSourceFaceIx m vecA) vecB)
       = Ok m'.
Proof.
  unfold Exodus_block.
  destruct (get_dim ncFile _) as [dimNodesPerElement|]; [|discriminate].
  destruct (get_dim ncFile _) as [dimBlockElements|]; [|discriminate].
  destruct (get_var ncFile ("connect" +:+ _)) as [varConnect|]; [|discriminate].
  match goal with |- context [mbind _ ?g] =>
    destruct g as [iGlobalId|] end; [|discriminate].
  cbn [mbind Exn_bind].
  destruct (Exodus_load_parent ncFile strFile (szParentA legacy n) _ _ _)
    as [[vecA iParentA]|] eqn:HA; [|discriminate].
  cbn [mbind Exn_bind vecTargetFaceIx set_vecSourceFaceIx].
  destruct (Exodus_load_parent ncFile strFile (szParentB legacy n) _ _ _)
    as [[vecB iParentB]|] eqn:HB; [|discriminate].
  cbn [mbind Exn_bind].
  intros Hassemble. eexists _, _, _, _, _, _, _, _, _. eauto.
Qed.

(** A block whose parent variable is missing while the parent array is
    populated raises an exception. *)
Lemma Exodus_block_parent_missing (ncFile : NcFile Real) (strFile : string)
    (legacy : bool) (nTotalElementCount : Z) (m : Mesh Real) (n : nat) :
  (get_var ncFile (szParentA legacy n) = None /\ vecSourceFaceIx m <> [])
  \/ (get_var ncFile (szParentB legacy n) = None /\ vecTargetFaceIx m <> []) ->
  exists msg,
    Exodus_block ncFile strFile legacy nTotalElementCount m n
    = Err (Exception msg).
Proof.
  intros Hmissing. unfold Exodus_block.
  destruct (get_dim ncFile _) as [dimNodesPerElement|]; [|eauto].
  destruct (get_dim ncFile _) as [dimBlockElements|]; [|eauto].
  destruct (get_var ncFile ("connect" +:+ _)) as [varConnect|]; [|eauto].
  match goal with |- context [mbind _ ?g] =>
    assert (Hgid : (exists l, g = Ok l) \/ (exists msg, g = Err (Exception msg)))
  end.
  { destruct legacy; [left; eauto|].
    destruct (get_var ncFile ("global_id" +:+ _)); [left|right]; eauto. }
  destruct Hgid as [[iGlobalId ->]|[msg ->]]; [|eauto].
  cbn [mbind Exn_bind].
  destruct (get_var ncFile (szParentA legacy n)) as [varA|] eqn:HvarA.
  - rewrite (Exodus_load_parent_present _ _ _ _ _ _ _ HvarA).
    cbn [mbind Exn_bind vecTargetFaceIx set_vecSourceFaceIx].
    destruct Hmissing as [[? _]|[HvarB HB]]; [discriminate|].
    rewrite (Exodus_load_parent_absent _ _ _ _ _ _ HvarB).
    destruct (vecTargetFaceIx m); [congruence|]. eauto.
  - rewrite (Exodus_load_parent_absent _ _ _ _ _ _ HvarA).
    destruct (vecSourceFaceIx m) as [|a vec] eqn:Hvec; [|eauto].
    cbn [mbind Exn_bind vecTargetFaceIx set_vecSourceFaceIx].
    destruct Hmissing as [[_ HA]|[HvarB HB]]; [congruence|].
    rewrite (Exodus_load_parent_absent _ _ _ _ _ _ HvarB).
    destruct (vecTargetFaceIx m); [congruence|]. eauto.
Qed.

(** A parent array, once populated, stays populated, and a block that has
    the parent variable populates it. *)
Lemma Exodus_block_populates (ncFile : NcFile Real) (strFile : string)
    (legacy : bool) (nTotalElementCount : Z) (m m' : Mesh Real) (n : nat) :
  Exodus_block ncFile strFile legacy nTotalElementCount m n = Ok m' ->
  (vecSourceFaceIx m <> [] -> vecSourceFaceIx m' <> [])
  /\ (vecTargetFaceIx m <> [] -> vecTargetFaceIx m' <> [])
  /\ (is_Some (get_var ncFile (szParentA legacy n)) ->
      0 < nTotalElementCount -> vecSourceFaceIx m' <> [])
  /\ (is_Some (get_var ncFile (szParentB legacy n)) ->
      0 < nTotalElementCount -> vecTargetFaceIx m' <> []).
Proof.
  intros Hblock.
  apply Exodus_block_Ok_inv in Hblock
    as (nE & nN & iC & iG & iT & vecA & iPA & vecB & iPB & HA & HB & Hasm).
  apply Exodus_assemble_parent_lengths in Hasm as [HlenA HlenB].
  cbn [vecSourceFaceIx vecTargetFaceIx set_vecSourceFaceIx
       set_vecTargetFaceIx] in HlenA, HlenB.
  apply Exodus_load_parent_nonempty in HA as [HA1 HA2].
  apply Exodus_load_parent_nonempty in HB as [HB1 HB2].
  assert (Hne : forall v v' : list Z, length v' = length v -> v <> [] -> v' <> []).
  { intros v v' Hlen Hv ->. destruct v; [congruence|discriminate]. }
  repeat split; intros; eapply Hne; eauto; (apply HA2 || apply HB2); auto; lia.
Qed.

Lemma Exodus_blocks_populated (ncFile : NcFile Real) (strFile : string)
    (legacy : bool) (nTotalElementCount : Z) (blocks : list nat) :
  forall m m' : Mesh Real,
    forM (Exodus_block ncFile strFile legacy nTotalElementCount) blocks m
    = Ok m' ->
    (vecSourceFaceIx m <> []
     \/ (0 < nTotalElementCount
         /\ exists k, k ∈ blocks
                      /\ is_Some (get_var ncFile (szParentA legacy k))) ->
     vecSourceFaceIx m' <> [])
    /\ (vecTargetFaceIx m <> []
        \/ (0 < nTotalElementCount
            /\ exists k, k ∈ blocks
                         /\ is_Some (get_var ncFile (szParentB legacy k))) ->
        vecTargetFaceIx m' <> []).
Proof.
  induction blocks as [|b blocks IH]; intros m m'; cbn [forM].
  - intros [= <-]. split; intros [Hne|(_ & k & Hk & _)]; auto;
      by apply elem_of_nil in Hk.
  - destruct (Exodus_block ncFile strFile legacy nTotalElementCount m b)
      as [m1|] eqn:Hblock; [|discriminate].
    intros Hrest.
    destruct (Exodus_block_populates _ _ _ _ _ _ _ Hblock)
      as (HA & HB & HA' & HB').
    destruct (IH _ _ Hrest) as [IHA IHB].
    split.
    + intros [Hne|(Hpos & k & Hk & Hvar)]; apply IHA.
      * left. auto.
      * apply elem_of_cons in Hk as [->|Hk]; [left; auto|right; eauto].
    + intros [Hne|(Hpos & k & Hk & Hvar)]; apply IHB.
      * left. auto.
      * apply elem_of_cons in Hk as [->|Hk]; [left; auto|right; eauto].
Qed.

(** C10, as amended.  In an Exodus read the parent variable of a block
    may be missing only while the parent array it feeds is still empty.
    Once the array is populated, by the state the mesh came with or by
    an earlier block that had the variable, a block without the variable
    raises an exception, and the loop over the blocks fails.  A block
    that has the variable is accepted whatever the blocks before it had:
    a parent array that is still empty is allocated, filled with zeros,
    at that block. *)
Theorem Exodus_parent_variable_missing_after_present (ncFile : NcFile Real)
    (strFile : string) (legacy : bool) (nTotalElementCount : Z) :
  (forall szParent nElementCount,
      get_var ncFile szParent = None ->
      Exodus_load_parent ncFile strFile szParent
        (Z.to_nat nTotalElementCount) nElementCount []
      = Ok ([], replicate nElementCount 0))
  /\ (forall szParent nElementCount v vec,
        get_var ncFile szParent = None ->
        Exodus_load_parent ncFile strFile szParent
          (Z.to_nat nTotalElementCount) nElementCount (v :: vec)
        = Err (Exception ("Exodus Grid file " +:+ quoted strFile
                          +:+ " is missing variable " +:+ quoted szParent)))
  /\ (forall szParent nElementCount vecFaceIx varParent,
        get_var ncFile szParent = Some varParent ->
        Exodus_load_parent ncFile strFile szParent
          (Z.to_nat nTotalElementCount) nElementCount vecFaceIx
        = Ok (match vecFaceIx with
              | [] => replicate (Z.to_nat nTotalElementCount) 0
              | _ :: _ => vecFaceIx
              end,
              read_ints varParent nElementCount))
  /\ (forall (blocks1 blocks2 : list nat) (n : nat) (m : Mesh Real),
        (get_var ncFile (szParentA legacy n) = None
         /\ (vecSourceFaceIx m <> []
             \/ (0 < nTotalElementCount
                 /\ exists k, k ∈ blocks1
                      /\ is_Some (get_var ncFile (szParentA legacy k)))))
        \/ (get_var ncFile (szParentB legacy n) = None
            /\ (vecTargetFaceIx m <> []
                \/ (0 < nTotalElementCount
                    /\ exists k, k ∈ blocks1
                         /\ is_Some (get_var ncFile (szParentB legacy k))))) ->
        (exists e,
            forM (Exodus_block ncFile strFile legacy nTotalElementCount)
              (blocks1 ++ n :: blocks2) m = Err e)
        /\ (forall m1,
              forM (Exodus_block ncFile strFile legacy nTotalElementCount)
                blocks1 m = Ok m1 ->
              exists msg,
                Exodus_block ncFile strFile legacy nTotalElementCount m1 n
                = Err (Exception msg))).
Proof.
  split; [|split; [|split]].
  - intros szParent nElementCount Hvar.
    by rewrite (Exodus_load_parent_absent _ _ _ _ _ _ Hvar).
  - intros szParent nElementCount v vec Hvar.
    by rewrite (Exodus_load_parent_absent _ _ _ _ _ _ Hvar).
  - intros szParent nElementCount vecFaceIx varParent Hvar.
    by apply Exodus_load_parent_present.
  - intros blocks1 blocks2 n m Hmissing.
    assert (Hat : forall m1,
              forM (Exodus_block ncFile strFile legacy nTotalElementCount)
                blocks1 m = Ok m1 ->
              exists msg,
                Exodus_block ncFile strFile legacy nTotalElementCount m1 n
                = Err (Exception msg)).
    { intros m1 Hm1. apply Exodus_block_parent_missing.
      destruct (Exodus_blocks_populated _ _ _ _ _ _ _ Hm1) as [HA HB].
      destruct Hmissing as [[Hvar Hpop]|[Hvar Hpop]]; [left|right]; auto. }
    split; [|exact Hat].
    rewrite forM_app.
    destruct (forM (Exodus_block ncFile strFile legacy nTotalElementCount)
                blocks1 m) as [m1|e] eqn:Hm1; cbn [mbind Exn_bind]; [|eauto].
    destruct (Hat m1 eq_refl) as [msg Hmsg].
    cbn [forM]. rewrite Hmsg. eauto.
Qed.

End ExodusParents.

Example Read_two_block_file :
  forall r_cos r_sin : float -> float,
    io_result (Read r_cos r_sin (one_file "overlap.g" two_block_file)
                 "overlap.g" true empty_mesh)
    = Err (Exception ("Exodus Grid file " +:+ quoted "overlap.g"
                      +:+ " is missing variable " +:+ quoted "el_parent_a2")).
Proof. intros. vm_compute. reflexivity. Qed.

(** C10, as stated, fails for a file whose first block has no parent
    variable and whose second block has one: presence is not the same
    for all blocks, and the file is read without error; the parent of
    the first face stays 0, that of the second is 5 - 1. *)
Lemma Read_Exodus_parent_variable_in_later_block :
  get_var late_parent_file (szParentA false 0) = None
  /\ is_Some (get_var late_parent_file (szParentA false 1))
  /\ exists m',
       io_result (Read_Exodus late_parent_file "late.g" empty_mesh) = Ok m'
       /\ vecSourceFaceIx m' = [ 0; 4 ].
Proof.
  split; [vm_compute; reflexivity|]. split; [vm_compute; eauto|].
  eexists. split; vm_compute; reflexivity.
Qed.

Lemma Exodus_parent_variable_missing_after_present_witness :
  (get_var two_block_file (szParentA false 1) = None
   /\ (vecSourceFaceIx (@empty_mesh float) <> []
       \/ (0 < 2
           /\ exists k, k ∈ [0%nat]
                /\ is_Some (get_var two_block_file (szParentA false k)))))
  /\ (exists e,
        forM (Exodus_block two_block_file "overlap.g" false 2)
          ([0%nat] ++ 1%nat :: [])
          (set_faces empty_mesh (resize 2 (Face_new 0) [])) = Err e).
Proof.
  assert (Hmissing :
    get_var two_block_file (szParentA false 1) = None
    /\ (vecSourceFaceIx (set_faces (@empty_mesh float)
                           (resize 2 (Face_new 0) [])) <> []
        \/ (0 < 2
            /\ exists k, k ∈ [0%nat]
                 /\ is_Some (get_var two_block_file (szParentA false k))))).
  { split; [vm_compute; reflexivity|]. right. split; [lia|].
    exists 0%nat. split; [left|]. vm_compute. eauto. }
  split; [exact Hmissing|].
  exact (proj1 (proj2 (proj2 (proj2
                  (Exodus_parent_variable_missing_after_present
                     two_block_file "overlap.g" false 2)))
                  [0%nat] [] 1%nat _ (or_introl Hmissing))).
Defined.

(** ** Format detection *)

Lemma dim_occurrences_cons (name : string) (dim : string * Z)
    (dims : list (string * Z)) :
  dim_occurrences name (dim :: dims)
  = (if String.eqb (fst dim) name then 1 else 0) + dim_occurrences name dims.
Proof.
  unfold dim_occurrences. rewrite filter_cons.
  destruct (String.eqb_spec (fst dim) name) as [Heq|Hne].
  - rewrite decide_True by assumption. cbn [length]. lia.
  - rewrite decide_False by assumption. lia.
Qed.

Lemma count_SCRIP_dims_from (dims : list (string * Z)) :
  forall c : Z,
    fold_left (fun iSCRIPFormat dim =>
        let strDimName := fst dim in
        let c1 := if String.eqb strDimName "grid_size"
                  then iSCRIPFormat + 1 else iSCRIPFormat in
        let c2 := if String.eqb strDimName "grid_corners" then c1 + 1 else c1 in
        if String.eqb strDimName "grid_rank" then c2 + 1 else c2)
      dims c
    = c + dim_occurrences "grid_size" dims
      + dim_occurrences "grid_corners" dims
      + dim_occurrences "grid_rank" dims.
Proof.
  induction dims as [|dim dims IH]; intros c.
  - unfold dim_occurrences. cbn. lia.
  - cbn [fold_left]. rewrite IH. rewrite !dim_occurrences_cons.
    cbv zeta.
    destruct (String.eqb (fst dim) "grid_size");
      destruct (String.eqb (fst dim) "grid_corners");
      destruct (String.eqb (fst dim) "grid_rank"); lia.
Qed.

(** The counter of the loop is the number of dimensions that carry one
    of the three names. *)
Lemma count_SCRIP_dims_occurrences (dims : list (string * Z)) :
  count_SCRIP_dims dims
  = dim_occurrences "grid_size" dims + dim_occurrences "grid_corners" dims
    + dim_occurrences "grid_rank" dims.
Proof. unfold count_SCRIP_dims. rewrite count_SCRIP_dims_from. lia. Qed.

(** With names that are distinct, a name occurs once or not at all. *)
Lemma dim_occurrences_NoDup (name : string) (dims : list (string * Z)) :
  NoDup (map fst dims) ->
  dim_occurrences name dims
  = if existsb (fun dim => String.eqb (fst dim) name) dims then 1 else 0.
Proof.
  induction dims as [|dim dims IH]; intros Hnodup.
  - reflexivity.
  - cbn [map] in Hnodup. apply NoDup_cons in Hnodup as [Hnotin Hnodup].
    rewrite dim_occurrences_cons. cbn [existsb]. rewrite IH by assumption.
    destruct (String.eqb_spec (fst dim) name) as [Heq|Hne]; cbn [orb].
    + destruct (existsb (fun dim0 => String.eqb (fst dim0) name) dims) eqn:Hex;
        [|reflexivity].
      exfalso. apply Hnotin.
      apply existsb_exists in Hex as (dim' & Hin & Heq').
      apply String.eqb_eq in Heq'. rewrite Heq, <- Heq'.
      apply list_elem_of_fmap. exists dim'. split; [reflexivity|].
      by apply list_elem_of_In.
    + lia.
Qed.

(** The test of the counter against 3 is the test for the three
    dimensions being there together. *)
Lemma count_SCRIP_dims_triad {Real} (ncFile : NcFile Real) :
  NoDup (map fst (nc_dims ncFile)) ->
  (count_SCRIP_dims (nc_dims ncFile) =? 3)
  = has_dim ncFile "grid_size" && has_dim ncFile "grid_corners"
    && has_dim ncFile "grid_rank".
Proof.
  intros Hnodup. rewrite count_SCRIP_dims_occurrences.
  rewrite !dim_occurrences_NoDup by assumption.
  unfold has_dim.
  destruct (existsb _ (nc_dims ncFile));
    destruct (existsb _ (nc_dims ncFile));
    destruct (existsb _ (nc_dims ncFile)); reflexivity.
Qed.

(** ** The log of a run *)

Lemma io_log_bind {A B} (m : IO A) (f : A -> IO B) :
  io_log (m ≫= f)
  = io_log m ++ match io_result m with
                | Ok a => io_log (f a)
                | Err _ => []
                end.
Proof.
  unfold mbind, IO_bind. destruct (io_result m) as [a|e].
  - destruct (f a). reflexivity.
  - cbn. by rewrite app_nil_r.
Qed.

Lemma io_result_bind {A B} (m : IO A) (f : A -> IO B) :
  io_result (m ≫= f)
  = match io_result m with
    | Ok a => io_result (f a)
    | Err e => Err e
    end.
Proof.
  unfold mbind, IO_bind. destruct (io_result m) as [a|e].
  - destruct (f a). reflexivity.
  - reflexivity.
Qed.

Lemma no_dedup_call_bind {A B} (m : IO A) (f : A -> IO B) :
  no_dedup_call m -> (forall a, no_dedup_call (f a)) ->
  no_dedup_call (m ≫= f).
Proof.
  unfold no_dedup_call. intros Hm Hf. rewrite io_log_bind.
  intros Hin. apply elem_of_app in Hin as [Hin|Hin]; [auto|].
  destruct (io_result m) as [a|e]; [by apply (Hf a)|].
  by apply elem_of_nil in Hin.
Qed.

Lemma no_dedup_call_throw {A} (msg : string) : no_dedup_call (@throw A msg).
Proof. unfold no_dedup_call. cbn. apply not_elem_of_nil. Qed.

Lemma no_dedup_call_ret {A} (a : A) : no_dedup_call (mret a).
Proof. unfold no_dedup_call. cbn. apply not_elem_of_nil. Qed.

Lemma no_dedup_call_lift {A} (m : Exn A) : no_dedup_call (lift m).
Proof. unfold no_dedup_call. cbn. apply not_elem_of_nil. Qed.

Lemma no_dedup_call_announce (msg : string) : no_dedup_call (emit (Announce msg)).
Proof.
  unfold no_dedup_call. cbn. intros Hin.
  apply list_elem_of_singleton in Hin. discriminate.
Qed.

Lemma dedup_called_bind_l {A B} (m : IO A) (f : A -> IO B) :
  dedup_called_if_ok m -> dedup_called_if_ok (m ≫= f).
Proof.
  unfold dedup_called_if_ok. rewrite io_log_bind, io_result_bind.
  intros Hm Hok. apply elem_of_app. left. apply Hm.
  destruct (io_result m); [reflexivity|discriminate].
Qed.

Lemma dedup_called_bind_r {A B} (m : IO A) (f : A -> IO B) :
  (forall a, dedup_called_if_ok (f a)) -> dedup_called_if_ok (m ≫= f).
Proof.
  unfold dedup_called_if_ok. rewrite io_log_bind, io_result_bind.
  intros Hf Hok. apply elem_of_app. right.
  destruct (io_result m) as [a|e]; [auto|discriminate].
Qed.

Lemma dedup_called_throw {A} (msg : string) : dedup_called_if_ok (@throw A msg).
Proof. unfold dedup_called_if_ok. cbn. discriminate. Qed.

Lemma dedup_called_emit : dedup_called_if_ok (emit Call_RemoveCoincidentNodes).
Proof. unfold dedup_called_if_ok. cbn. intros _. left. Qed.

Ltac no_call :=
  repeat first
    [ apply no_dedup_call_throw
    | apply no_dedup_call_ret
    | apply no_dedup_call_lift
    | apply no_dedup_call_announce
    | apply no_dedup_call_bind; [|intros ?]
    | match goal with
      | |- no_dedup_call (match ?x with _ => _ end) => destruct x
      | |- no_dedup_call (if ?b then _ else _) => destruct b
      end ].

Section ReadFacts.
Context {Real : Type} `{RealArith Real}.
Variable r_cos : Real -> Real.
Variable r_sin : Real -> Real.

Lemma Read_ICON_no_dedup (ncFile : NcFile Real) (strFile : string)
    (m : Mesh Real) :
  no_dedup_call (Read_ICON ncFile strFile m).
Proof. unfold Read_ICON, ICON_coordinate. no_call. Qed.

Lemma Read_SCRIP_no_dedup (ncFile : NcFile Real) (strFile : string)
    (m : Mesh Real) :
  no_dedup_call (Read_SCRIP r_cos r_sin ncFile strFile false m).
Proof. unfold Read_SCRIP. no_call. Qed.

Lemma Read_SCRIP_dedup (ncFile : NcFile Real) (strFile : string)
    (m : Mesh Real) :
  dedup_called_if_ok (Read_SCRIP r_cos r_sin ncFile strFile true m).
Proof.
  unfold Read_SCRIP. apply dedup_called_bind_r. intros _.
  destruct (get_var ncFile "grid_corner_lat"); [|apply dedup_called_throw].
  destruct (get_var ncFile "grid_corner_lon"); [|apply dedup_called_throw].
  destruct (get_dim ncFile "grid_size"); [|discriminate].
  destruct (get_dim ncFile "grid_corners"); [|discriminate].
  apply dedup_called_bind_r. intros m1.
  apply dedup_called_bind_r. intros m2.
  apply dedup_called_bind_l.
  apply dedup_called_bind_r. intros _.
  apply dedup_called_bind_l. apply dedup_called_emit.
Qed.

Lemma Read_Exodus_dedup (ncFile : NcFile Real) (strFile : string)
    (m : Mesh Real) :
  dedup_called_if_ok (Read_Exodus ncFile strFile m).
Proof.
  unfold Read_Exodus.
  destruct (get_att ncFile "version") as [[s|bits|]|];
    try apply dedup_called_throw.
  destruct (get_dim ncFile "num_nodes"); [|apply dedup_called_throw].
  destruct (get_dim ncFile "num_el_blk"); [|apply dedup_called_throw].
  destruct (get_dim ncFile "num_elem"); [|apply dedup_called_throw].
  apply dedup_called_bind_r. intros _.
  apply dedup_called_bind_r. intros m1.
  destruct (get_var ncFile "coord"); [|apply dedup_called_throw].
  apply dedup_called_bind_l. apply dedup_called_emit.
Qed.

(** C6, as amended.  [Read] takes a file for ICON when its title is the
    sentinel, else for SCRIP when the three dimensions are there, else
    for Exodus.  For an ICON file coincident-node removal never runs; for
    a SCRIP file it runs only when [fRemoveCoincidentNodes] is set, and
    then in every read that ends without error; for an Exodus file it
    runs in every read that ends without error.  (The names of the
    dimensions of a file are distinct.) *)
Theorem Read_format_precedence_and_dedup
    (fs : string -> option (NcFile Real)) (strFile : string)
    (fRemoveCoincidentNodes : bool) (m : Mesh Real) (ncFile : NcFile Real) :
  strFile <> "" ->
  fs strFile = Some ncFile ->
  NoDup (map fst (nc_dims ncFile)) ->
  match DetectFormat ncFile with
  | ICON =>
      Read r_cos r_sin fs strFile fRemoveCoincidentNodes m
      = Read_ICON ncFile strFile (set_strFileName m strFile)
      /\ no_dedup_call (Read r_cos r_sin fs strFile fRemoveCoincidentNodes m)
  | SCRIP =>
      Read r_cos r_sin fs strFile fRemoveCoincidentNodes m
      = Read_SCRIP r_cos r_sin ncFile strFile fRemoveCoincidentNodes
          (set_strFileName m strFile)
      /\ (fRemoveCoincidentNodes = false ->
          no_dedup_call (Read r_cos r_sin fs strFile fRemoveCoincidentNodes m))
      /\ (fRemoveCoincidentNodes = true ->
          dedup_called_if_ok
            (Read r_cos r_sin fs strFile fRemoveCoincidentNodes m))
  | Exodus =>
      Read r_cos r_sin fs strFile fRemoveCoincidentNodes m
      = Read_Exodus ncFile strFile (set_strFileName m strFile)
      /\ dedup_called_if_ok
           (Read r_cos r_sin fs strFile fRemoveCoincidentNodes m)
  end.
Proof.
  intros Hname Hopen Hnodup.
  unfold Read, DetectFormat. rewrite Hopen.
  destruct (String.eqb_spec strFile "") as [Hempty|_]; [contradiction|].
  destruct (match get_att ncFile "title" with
            | Some attICON =>
                String.eqb (as_string attICON) "ICON grid description"
            | None => false
            end).
  - split; [reflexivity|]. apply Read_ICON_no_dedup.
  - rewrite (count_SCRIP_dims_triad ncFile Hnodup).
    destruct (has_dim ncFile "grid_size" && has_dim ncFile "grid_corners"
              && has_dim ncFile "grid_rank").
    + split; [reflexivity|]. split; intros ->.
      * apply Read_SCRIP_no_dedup.
      * apply Read_SCRIP_dedup.
    + split; [reflexivity|]. apply Read_Exodus_dedup.
Qed.

End ReadFacts.

Lemma Read_format_precedence_and_dedup_witness :
  "grid.nc" <> ""
  /\ one_file "grid.nc" scrip_file "grid.nc" = Some scrip_file
  /\ NoDup (map fst (nc_dims scrip_file))
  /\ DetectFormat scrip_file = SCRIP
  /\ Read cos sin (one_file "grid.nc" scrip_file) "grid.nc" true empty_mesh
     = Read_SCRIP cos sin scrip_file "grid.nc" true
         (set_strFileName empty_mesh "grid.nc")
  /\ dedup_called_if_ok
       (Read cos sin (one_file "grid.nc" scrip_file) "grid.nc" true empty_mesh).
Proof.
  assert (Hname : "grid.nc" <> "") by discriminate.
  assert (Hopen : one_file "grid.nc" scrip_file "grid.nc" = Some scrip_file)
    by reflexivity.
  assert (Hnodup : NoDup (map fst (nc_dims scrip_file))).
  { apply (bool_decide_unpack _). vm_compute. exact I. }
  pose proof (Read_format_precedence_and_dedup cos sin
                (one_file "grid.nc" scrip_file) "grid.nc" true empty_mesh
                scrip_file Hname Hopen Hnodup) as Hread.
  change (DetectFormat scrip_file) with SCRIP in Hread.
  destruct Hread as (Heq & _ & Hcalled).
  repeat split; try assumption. exact (Hcalled eq_refl).
Defined.

(** C6, as stated, fails for a SCRIP file read with
    [fRemoveCoincidentNodes] false: the file is not an ICON file, the
    read ends without error, and [RemoveCoincidentNodes] has not run;
    the six corners of the two triangles are all kept, although the
    triangles share an edge. *)
Lemma Read_SCRIP_without_dedup :
  DetectFormat scrip_file = SCRIP
  /\ io_log (Read cos sin (one_file "grid.nc" scrip_file) "grid.nc" false
               empty_mesh)
     = [ Announce "SCRIP Format File detected";
         Announce "Mesh size: Nodes [6] Elements [2]" ]
  /\ (Call_RemoveCoincidentNodes
      ∉ io_log (Read cos sin (one_file "grid.nc" scrip_file) "grid.nc" false
                  empty_mesh))
  /\ is_Ok (io_result (Read cos sin (one_file "grid.nc" scrip_file) "grid.nc"
                         false empty_mesh)) = true.
Proof.
  split; [reflexivity|]. split; [vm_compute; reflexivity|].
  split; [|vm_compute; reflexivity].
  assert (Hlog : io_log (Read cos sin (one_file "grid.nc" scrip_file) "grid.nc"
                           false empty_mesh)
                 = [ Announce "SCRIP Format File detected";
                     Announce "Mesh size: Nodes [6] Elements [2]" ])
    by (vm_compute; reflexivity).
  rewrite Hlog. intros Hin.
  repeat (apply elem_of_cons in Hin as [Hin|Hin]; [discriminate|]).
  by apply elem_of_nil in Hin.
Qed.

(** ** Face::GetEdgeIndex and RemoveZeroEdges *)

Lemma GetEdgeIndex_from_spec (Edge_eqb : Edge -> Edge -> bool) (edge : Edge)
    (rest : list Edge) :
  forall i : Z,
    match GetEdgeIndex_from Edge_eqb rest i edge with
    | Ok r =>
        exists (k : nat) (e : Edge),
          r = i + Z.of_nat k /\ rest !! k = Some e /\ Edge_eqb e edge = true
          /\ Forall (fun e' => Edge_eqb e' edge = false) (take k rest)
    | Err err =>
        err = Exception "Edge not found on Face"
        /\ Forall (fun e' => Edge_eqb e' edge = false) rest
    end.
Proof.
  induction rest as [|e rest IH]; intros i; cbn [GetEdgeIndex_from].
  - split; [reflexivity|constructor].
  - destruct (Edge_eqb e edge) eqn:He.
    + exists 0%nat, e. repeat split; [lia|assumption|constructor].
    + specialize (IH (i + 1)).
      destruct (GetEdgeIndex_from Edge_eqb rest (i + 1) edge) as [r|err].
      * destruct IH as (k & e' & -> & Hk & He' & Hbefore).
        exists (S k), e'. repeat split; [lia|assumption|assumption|].
        cbn [take]. by constructor.
      * destruct IH as [-> Hall]. split; [reflexivity|by constructor].
Qed.

(** X1. [Face::GetEdgeIndex] returns the position of the first edge of
    the face that equals the given edge, and throws "Edge not found on
    Face" exactly when no edge of the face equals it. *)
Theorem Face_GetEdgeIndex_first_match (Edge_eqb : Edge -> Edge -> bool)
    (face : Face) (edge : Edge) :
  match Face_GetEdgeIndex Edge_eqb face edge with
  | Ok r =>
      exists (k : nat) (e : Edge),
        r = Z.of_nat k /\ edges face !! k = Some e /\ Edge_eqb e edge = true
        /\ Forall (fun e' => Edge_eqb e' edge = false) (take k (edges face))
  | Err err =>
      err = Exception "Edge not found on Face"
      /\ Forall (fun e' => Edge_eqb e' edge = false) (edges face)
  end.
Proof.
  unfold Face_GetEdgeIndex.
  pose proof (GetEdgeIndex_from_spec Edge_eqb edge (edges face) 0) as Hspec.
  destruct (GetEdgeIndex_from Edge_eqb (edges face) 0 edge); [|exact Hspec].
  destruct Hspec as (k & e & -> & Hrest). exists k, e.
  split; [lia|exact Hrest].
Qed.

Lemma RemoveZeroEdges_loop_spec (rest : list Edge) :
  forall (kept : list Edge) (rounds : nat),
    (length rest < rounds)%nat ->
    Z.of_nat (length kept + length rest) < 2 ^ 31 ->
    RemoveZeroEdges_loop rounds (Z.of_nat (length kept)) (kept ++ rest)
    = Some (Ok (kept ++ nonzero_edges rest)).
Proof.
  induction rest as [|e rest IH]; intros kept rounds Hrounds Hlen;
    (destruct rounds as [|rounds]; [cbn in Hrounds; lia|]);
    cbn [RemoveZeroEdges_loop].
  - rewrite to_size_t_small by lia.
    rewrite length_app. cbn [length].
    destruct (Z.ltb_spec (Z.of_nat (length kept))
                (Z.of_nat (length kept + 0))) as [Hlt|_]; [lia|].
    reflexivity.
  - cbn [length] in *. rewrite to_size_t_small by lia.
    rewrite length_app. cbn [length].
    destruct (Z.ltb_spec (Z.of_nat (length kept))
                (Z.of_nat (length kept + S (length rest)))) as [_|Hge]; [|lia].
    unfold get_at, vec_get.
    destruct (Z.ltb_spec (Z.of_nat (length kept)) 0) as [Hneg|_]; [lia|].
    rewrite Nat2Z.id.
    rewrite lookup_app_r by lia. rewrite Nat.sub_diag. cbn [lookup list_lookup].
    unfold nonzero_edges. rewrite filter_cons.
    destruct (Z.eqb_spec (node0 e) (node1 e)) as [Heq|Hne].
    + rewrite decide_False by (intros Hc; contradiction).
      rewrite (to_int_small (Z.of_nat (length kept) - 1)) by lia.
      replace (Z.of_nat (length kept) - 1 + 1) with (Z.of_nat (length kept))
        by lia.
      rewrite to_int_small by lia.
      replace (delete (length kept) (kept ++ e :: rest)) with (kept ++ rest).
      { apply IH; lia. }
      rewrite delete_middle. reflexivity.
    + rewrite decide_True by assumption.
      rewrite to_int_small by lia.
      replace (Z.of_nat (length kept) + 1)
        with (Z.of_nat (length (kept ++ [e])))
        by (rewrite length_app; cbn [length]; lia).
      replace (kept ++ e :: rest) with ((kept ++ [e]) ++ rest)
        by (by rewrite <- app_assoc).
      rewrite IH by (try rewrite length_app; cbn [length]; lia).
      by rewrite <- app_assoc.
Qed.

Lemma Face_RemoveZeroEdges_spec (face : Face) :
  Z.of_nat (length (edges face)) < 2 ^ 31 ->
  Face_RemoveZeroEdges face
  = Some (Ok (mkFace (nonzero_edges (edges face)))).
Proof.
  intros Hlen. unfold Face_RemoveZeroEdges.
  change (RemoveZeroEdges_loop (S (length (edges face))) 0 (edges face))
    with (RemoveZeroEdges_loop (S (length (edges face)))
            (Z.of_nat (length (@nil Edge))) ([] ++ edges face)).
  rewrite RemoveZeroEdges_loop_spec by (cbn [length]; lia).
  reflexivity.
Qed.

Lemma nonzero_edges_idemp (es : list Edge) :
  nonzero_edges (nonzero_edges es) = nonzero_edges es.
Proof.
  unfold nonzero_edges. induction es as [|e es IH]; [reflexivity|].
  rewrite filter_cons. destruct (decide (node0 e <> node1 e)) as [Hne|Heq].
  - rewrite filter_cons, decide_True by assumption. by rewrite IH.
  - exact IH.
Qed.

Lemma nonzero_edges_Forall (es : list Edge) :
  Forall (fun e => node0 e <> node1 e) (nonzero_edges es).
Proof.
  unfold nonzero_edges. apply Forall_forall. intros e He.
  apply list_elem_of_filter in He. tauto.
Qed.

Lemma nonzero_edges_length (es : list Edge) :
  (length (nonzero_edges es) <= length es)%nat.
Proof. unfold nonzero_edges. apply length_filter. Qed.

Lemma RemoveZeroEdges_faces_spec (faces : list Face) :
  Forall (fun face => Z.of_nat (length (edges face)) < 2 ^ 31) faces ->
  RemoveZeroEdges_faces faces
  = Some (Ok (map (fun face => mkFace (nonzero_edges (edges face))) faces)).
Proof.
  induction 1 as [|face faces Hface _ IH]; [reflexivity|].
  cbn [RemoveZeroEdges_faces map].
  by rewrite Face_RemoveZeroEdges_spec, IH.
Qed.

(** X2. [Face::RemoveZeroEdges] ends, and leaves of the edges of the face
    exactly those whose two nodes differ, in their order. *)
Theorem Face_RemoveZeroEdges_keeps_nonzero (face : Face) :
  Z.of_nat (length (edges face)) < 2 ^ 31 ->
  Face_RemoveZeroEdges face
  = Some (Ok (mkFace (filter (fun e => node0 e <> node1 e) (edges face)))).
Proof. apply Face_RemoveZeroEdges_spec. Qed.

Lemma Face_RemoveZeroEdges_keeps_nonzero_witness :
  Face_RemoveZeroEdges
    (mkFace [ mkEdge 0 1 Type_Default; mkEdge 1 1 Type_Default;
              mkEdge 1 2 Type_Default; mkEdge 2 2 Type_Default;
              mkEdge 2 0 Type_Default ])
  = Some (Ok (mkFace [ mkEdge 0 1 Type_Default; mkEdge 1 2 Type_Default;
                       mkEdge 2 0 Type_Default ])).
Proof.
  exact (Face_RemoveZeroEdges_keeps_nonzero
           (mkFace [ mkEdge 0 1 Type_Default; mkEdge 1 1 Type_Default;
                     mkEdge 1 2 Type_Default; mkEdge 2 2 Type_Default;
                     mkEdge 2 0 Type_Default ])
           ltac:(vm_compute; reflexivity)).
Defined.

(** X3. [Mesh::RemoveZeroEdges] ends; it keeps the nodes and the number
    of faces, no face has a zero edge afterwards, and a second call
    changes nothing. *)
Theorem RemoveZeroEdges_idempotent {Real : Type} (m : Mesh Real) :
  Forall (fun face => Z.of_nat (length (edges face)) < 2 ^ 31) (faces m) ->
  exists m',
    RemoveZeroEdges m = Some (Ok m')
    /\ nodes m' = nodes m
    /\ length (faces m') = length (faces m)
    /\ Forall (fun face => Forall (fun e => node0 e <> node1 e) (edges face))
         (faces m')
    /\ RemoveZeroEdges m' = Some (Ok m').
Proof.
  intros Hlen. unfold RemoveZeroEdges at 1.
  rewrite RemoveZeroEdges_faces_spec by assumption.
  eexists. split; [reflexivity|]. cbn [nodes faces set_faces].
  split; [reflexivity|]. split; [by rewrite length_map|]. split.
  - apply Forall_map. apply Forall_forall. intros face _. cbn [edges].
    apply nonzero_edges_Forall.
  - unfold RemoveZeroEdges. cbn [faces set_faces].
    rewrite RemoveZeroEdges_faces_spec.
    + rewrite map_map. cbn [edges].
      unfold set_faces. cbn. do 3 f_equal.
      apply map_ext. intros face. by rewrite nonzero_edges_idemp.
    + apply Forall_map. eapply Forall_impl; [exact Hlen|].
      intros face Hface. cbn beta in *. cbn [edges].
      pose proof (nonzero_edges_length (edges face)). lia.
Qed.

Lemma RemoveZeroEdges_idempotent_witness :
  exists m',
    RemoveZeroEdges dart_mesh_zero_edge = Some (Ok m')
    /\ nodes m' = nodes dart_mesh_zero_edge
    /\ length (faces m') = length (faces dart_mesh_zero_edge)
    /\ Forall (fun face => Forall (fun e => node0 e <> node1 e) (edges face))
         (faces m')
    /\ RemoveZeroEdges m' = Some (Ok m').
Proof.
  apply (RemoveZeroEdges_idempotent dart_mesh_zero_edge).
  repeat constructor.
Defined.

(** X4. On a mesh that [Mesh::RemoveZeroEdges] has gone over,
    [Mesh::Validate] checks every edge against the next edge that is not
    a zero edge: it gives the verdict of the rule of the design
    document. *)
Theorem Validate_after_RemoveZeroEdges {Real : Type} `{RealArith Real}
    (m : Mesh Real) :
  Forall (fun face => Z.of_nat (length (edges face)) < 2 ^ 31) (faces m) ->
  exists m',
    RemoveZeroEdges m = Some (Ok m')
    /\ Validate m' = Validate_as_specified m'.
Proof.
  intros Hlen. unfold RemoveZeroEdges.
  rewrite RemoveZeroEdges_faces_spec by assumption.
  eexists. split; [reflexivity|].
  apply Validate_agrees_without_zero_edges. cbn [faces set_faces].
  apply Forall_map. apply Forall_forall. intros face _. cbn [edges].
  apply nonzero_edges_Forall.
Qed.

Lemma Validate_after_RemoveZeroEdges_witness :
  exists m',
    RemoveZeroEdges dart_mesh_zero_edge = Some (Ok m')
    /\ Validate m' = Validate_as_specified m'.
Proof.
  apply (Validate_after_RemoveZeroEdges dart_mesh_zero_edge).
  repeat constructor.
Defined.

Example Validate_dart_after_RemoveZeroEdges :
  match RemoveZeroEdges dart_mesh_zero_edge with
  | Some (Ok m') => Validate m'
  | _ => Ok tt
  end
  = Err (Exception "Mesh validation failed: Clockwise or concave face detected").
Proof. vm_compute. reflexivity. Qed.

(** ** Overlap meshes *)

Lemma R_add_assoc : forall a b c : R, (a + (b + c) = (a + b) + c)%real.
Proof. intros; cbn; ring. Qed.

Lemma R_add_0_l : forall a : R, (r_zero + a = a)%real.
Proof. intros; rewrite real_exact_zero; cbn; ring. Qed.

Lemma R_add_0_r : forall a : R, (a + r_zero = a)%real.
Proof. intros; rewrite real_exact_zero; cbn; ring. Qed.

Lemma total_R_cons (a : R) (l : list R) : total (a :: l) = (a + total l)%R.
Proof. reflexivity. Qed.

Lemma total_R_nil : total (@nil R) = 0%R.
Proof. unfold total. cbn [fold_right]. apply real_exact_zero. Qed.

Lemma total_R_app (l1 l2 : list R) : total (l1 ++ l2) = (total l1 + total l2)%R.
Proof. apply (total_app R_add_assoc R_add_0_l). Qed.

Lemma total_R_insert (l : list R) (i : nat) (old a : R) :
  l !! i = Some old -> total (<[i := (old + a)%R]> l) = (total l + a)%R.
Proof.
  revert i. induction l as [|b l IH]; intros [|i] Hi; try discriminate.
  - injection Hi as ->.
    change (total ((old + a)%R :: l) = (total (old :: l) + a)%R).
    rewrite !total_R_cons. lra.
  - change (total (b :: <[i := (old + a)%R]> l) = (total (b :: l) + a)%R).
    rewrite !total_R_cons. rewrite (IH i Hi). lra.
Qed.

Lemma total_R_replicate (n : nat) : total (replicate n (@r_zero R _)) = 0%R.
Proof.
  induction n as [|n IH]; cbn [replicate]; [apply total_R_nil|].
  rewrite total_R_cons, IH, real_exact_zero. lra.
Qed.

Section OverlapFacts.
Context {Real : Type} `{RealArith Real}.

(** One round of the loop, for a source index that is a face index. *)
Lemma CalculateFaceAreasFromOverlap_step (GetRows_is_size_t : bool)
    (meshOverlap : Mesh Real) (areas : list Real) (dTotalArea : Real)
    (i : nat) (ix : Z) (a : Real) :
  vecSourceFaceIx meshOverlap !! i = Some ix ->
  vecFaceArea meshOverlap !! i = Some a ->
  0 <= ix < Z.of_nat (length areas) ->
  Z.of_nat (length areas) < 2 ^ 31 ->
  exists old,
    areas !! Z.to_nat ix = Some old
    /\ CalculateFaceAreasFromOverlap_body GetRows_is_size_t meshOverlap
         (areas, dTotalArea) i
       = Ok (<[Z.to_nat ix := (old + a)%real]> areas, (dTotalArea + a)%real).
Proof.
  intros Hix Ha Hrange Hsmall.
  destruct (lookup_lt_is_Some_2 areas (Z.to_nat ix)) as [old Hold]; [lia|].
  exists old. split; [assumption|].
  unfold CalculateFaceAreasFromOverlap_body, vec_get. rewrite Hix, Ha.
  cbn [mbind Exn_bind].
  assert (Hbeyond : beyond_rows GetRows_is_size_t ix (length areas) = false).
  { unfold beyond_rows. destruct GetRows_is_size_t.
    - rewrite to_size_t_small by lia. rewrite Z.geb_leb. apply Z.leb_gt. lia.
    - rewrite Z.geb_leb. apply Z.leb_gt. lia. }
  rewrite Hbeyond. unfold get_at, put_at, vec_get, vec_put.
  destruct (Z.ltb_spec ix 0) as [|_]; [lia|].
  rewrite Hold. cbn [mbind Exn_bind].
  destruct (Nat.ltb_spec (Z.to_nat ix) (length areas)) as [_|]; [|lia].
  reflexivity.
Qed.

(** One round of the loop, for a source index that is no face index. *)
Lemma CalculateFaceAreasFromOverlap_stop (GetRows_is_size_t : bool)
    (meshOverlap : Mesh Real) (areas : list Real) (dTotalArea : Real)
    (i : nat) (ix : Z) (a : Real) :
  vecSourceFaceIx meshOverlap !! i = Some ix ->
  vecFaceArea meshOverlap !! i = Some a ->
  - 2 ^ 31 <= ix < 2 ^ 31 ->
  ~ 0 <= ix < Z.of_nat (length areas) ->
  exists e,
    CalculateFaceAreasFromOverlap_body GetRows_is_size_t meshOverlap
      (areas, dTotalArea) i = Err e
    /\ (Z.of_nat (length areas) <= ix ->
        e = Exception "Overlap Mesh FirstFaceIx contains invalid Face index").
Proof.
  intros Hix Ha Hint Hout.
  unfold CalculateFaceAreasFromOverlap_body, vec_get. rewrite Hix, Ha.
  cbn [mbind Exn_bind].
  destruct (Z.le_gt_cases (Z.of_nat (length areas)) ix) as [Hbig|Hsmall].
  - assert (Hbeyond : beyond_rows GetRows_is_size_t ix (length areas) = true).
    { unfold beyond_rows. destruct GetRows_is_size_t.
      - rewrite to_size_t_small by lia. apply Z.geb_le. lia.
      - apply Z.geb_le. lia. }
    rewrite Hbeyond. eexists. split; reflexivity.
  - assert (Hneg : ix < 0) by lia.
    destruct (beyond_rows GetRows_is_size_t ix (length areas)).
    + eexists. split; [reflexivity|lia].
    + unfold get_at. destruct (Z.ltb_spec ix 0) as [_|]; [|lia].
      cbn [mbind Exn_bind]. eexists. split; [reflexivity|lia].
Qed.

(** The rounds before the first source index that is no face index. *)
Lemma CalculateFaceAreasFromOverlap_prefix (GetRows_is_size_t : bool)
    (meshOverlap : Mesh Real) (nf k : nat) :
  (k <= length (vecSourceFaceIx meshOverlap))%nat ->
  (k <= length (vecFaceArea meshOverlap))%nat ->
  Z.of_nat nf < 2 ^ 31 ->
  Forall (fun ix => 0 <= ix < Z.of_nat nf)
    (take k (vecSourceFaceIx meshOverlap)) ->
  exists st,
    forM (CalculateFaceAreasFromOverlap_body GetRows_is_size_t meshOverlap)
      (seq 0 k) (replicate nf r_zero, r_zero) = Ok st
    /\ length (fst st) = nf.
Proof.
  intros Hsrc Harea Hsmall Hrange.
  apply (forM_seq_invariant (fun _ st => length (fst st) = nf) _ k 0).
  - intros j [areas tot] Hj Hlen. cbn [fst] in Hlen.
    destruct (lookup_lt_is_Some_2 (vecSourceFaceIx meshOverlap) j)
      as [ix Hix]; [lia|].
    destruct (lookup_lt_is_Some_2 (vecFaceArea meshOverlap) j)
      as [a Ha]; [lia|].
    assert (Hin : 0 <= ix < Z.of_nat nf).
    { rewrite Forall_lookup in Hrange. apply (Hrange j).
      rewrite lookup_take_lt by lia. exact Hix. }
    destruct (CalculateFaceAreasFromOverlap_step GetRows_is_size_t
                meshOverlap areas tot j ix a Hix Ha) as (old & _ & ->); [lia..|].
    eexists. split; [reflexivity|]. cbn [fst]. by rewrite length_insert.
  - cbn [fst]. apply length_replicate.
Qed.

Lemma Forall_first_failure {A} (P : A -> Prop) `{!forall a, Decision (P a)}
    (l : list A) :
  ~ Forall P l ->
  exists (i : nat) (a : A), l !! i = Some a /\ ~ P a /\ Forall P (take i l).
Proof.
  induction l as [|b l IH]; intros Hnot.
  - exfalso. apply Hnot. constructor.
  - destruct (decide (P b)) as [Hb|Hb].
    + destruct IH as (i & a & Hi & Ha & Hbefore).
      { intros Hl. apply Hnot. by constructor. }
      exists (S i), a. repeat split; [assumption..|].
      cbn [take]. by constructor.
    + exists 0%nat, b. repeat split; [assumption|constructor].
Qed.

(** The call with a source index, the first that is no face index, at
    position [i]. *)
Lemma CalculateFaceAreasFromOverlap_first_failure (GetRows_is_size_t : bool)
    (m meshOverlap : Mesh Real) (i : nat) (ix : Z) :
  vecFaceArea meshOverlap <> [] ->
  (length (faces meshOverlap) <= length (vecSourceFaceIx meshOverlap))%nat ->
  (length (faces meshOverlap) <= length (vecFaceArea meshOverlap))%nat ->
  Z.of_nat (length (faces m)) < 2 ^ 31 ->
  (i < length (faces meshOverlap))%nat ->
  vecSourceFaceIx meshOverlap !! i = Some ix ->
  - 2 ^ 31 <= ix < 2 ^ 31 ->
  Forall (fun ix => 0 <= ix < Z.of_nat (length (faces m)))
    (take i (vecSourceFaceIx meshOverlap)) ->
  ~ 0 <= ix < Z.of_nat (length (faces m)) ->
  exists e,
    CalculateFaceAreasFromOverlap GetRows_is_size_t m meshOverlap = Err e
    /\ (Z.of_nat (length (faces m)) <= ix ->
        e = Exception "Overlap Mesh FirstFaceIx contains invalid Face index").
Proof.
  intros Hne Hsrc Harea Hsmall Hi Hix Hint Hbefore Hout.
  unfold CalculateFaceAreasFromOverlap.
  destruct (vecFaceArea meshOverlap) as [|a0 ars] eqn:Hars; [contradiction|].
  rewrite <- Hars in *. clear Hne.
  assert (Hlen0 : (length (vecFaceArea meshOverlap) =? 0)%nat = false)
    by (rewrite Hars; reflexivity).
  rewrite Hlen0.
  replace (seq 0 (length (faces meshOverlap)))
    with (seq 0 i ++ i :: seq (S i) (length (faces meshOverlap) - S i)).
  2:{ symmetry.
      transitivity (seq 0 (i + S (length (faces meshOverlap) - S i)));
        [f_equal; lia|].
      rewrite seq_app. reflexivity. }
  rewrite forM_app.
  destruct (CalculateFaceAreasFromOverlap_prefix GetRows_is_size_t
              meshOverlap (length (faces m)) i) as ([areas tot] & -> & Hlen);
    [lia..|assumption|].
  cbn [fst] in Hlen. cbn [mbind Exn_bind forM].
  destruct (lookup_lt_is_Some_2 (vecFaceArea meshOverlap) i)
    as [a Ha]; [lia|].
  destruct (CalculateFaceAreasFromOverlap_stop GetRows_is_size_t meshOverlap
              areas tot i ix a Hix Ha Hint) as (e & -> & He).
  { by rewrite Hlen. }
  exists e. split; [reflexivity|]. by rewrite Hlen in He.
Qed.

(** X6. [CalculateFaceAreasFromOverlap] ends without error exactly when
    every source index of an overlap face is an index of a face of the
    mesh; an index that is too large is answered by the exception
    "Overlap Mesh FirstFaceIx contains invalid Face index" before
    anything is written at it. *)
Theorem CalculateFaceAreasFromOverlap_index_check (GetRows_is_size_t : bool)
    (m meshOverlap : Mesh Real) :
  vecFaceArea meshOverlap <> [] ->
  (length (faces meshOverlap) <= length (vecSourceFaceIx meshOverlap))%nat ->
  (length (faces meshOverlap) <= length (vecFaceArea meshOverlap))%nat ->
  Z.of_nat (length (faces m)) < 2 ^ 31 ->
  Forall (fun ix => - 2 ^ 31 <= ix < 2 ^ 31) (vecSourceFaceIx meshOverlap) ->
  (is_Ok (CalculateFaceAreasFromOverlap GetRows_is_size_t m meshOverlap) = true
   <-> Forall (fun ix => 0 <= ix < Z.of_nat (length (faces m)))
         (take (length (faces meshOverlap)) (vecSourceFaceIx meshOverlap)))
  /\ (forall (i : nat) (ix : Z),
        (i < length (faces meshOverlap))%nat ->
        vecSourceFaceIx meshOverlap !! i = Some ix ->
        Forall (fun ix => 0 <= ix < Z.of_nat (length (faces m)))
          (take i (vecSourceFaceIx meshOverlap)) ->
        Z.of_nat (length (faces m)) <= ix ->
        CalculateFaceAreasFromOverlap GetRows_is_size_t m meshOverlap
        = Err (Exception "Overlap Mesh FirstFaceIx contains invalid Face index")).
Proof.
  intros Hne Hsrc Harea Hsmall Hints. split; [split|].
  - intros Hok.
    destruct (decide (Forall (fun ix => 0 <= ix < Z.of_nat (length (faces m)))
                        (take (length (faces meshOverlap))
                           (vecSourceFaceIx meshOverlap)))) as [|Hnot];
      [assumption|exfalso].
    apply Forall_first_failure in Hnot as (i & ix & Hi & Hix & Hbefore);
      [|apply _].
    assert (Hlt : (i < length (faces meshOverlap))%nat).
    { apply lookup_lt_Some in Hi. rewrite length_take in Hi. lia. }
    rewrite lookup_take_lt in Hi by assumption.
    rewrite take_take in Hbefore.
    replace (i `min` length (faces meshOverlap))%nat with i in Hbefore by lia.
    destruct (CalculateFaceAreasFromOverlap_first_failure GetRows_is_size_t
                m meshOverlap i ix) as (e & He & _); try assumption.
    { rewrite Forall_lookup in Hints. by apply (Hints i). }
    rewrite He in Hok. discriminate.
  - intros Hall. unfold CalculateFaceAreasFromOverlap.
    destruct (vecFaceArea meshOverlap) as [|a0 ars] eqn:Hars; [contradiction|].
    rewrite <- Hars in *.
    assert (Hlen0 : (length (vecFaceArea meshOverlap) =? 0)%nat = false)
      by (rewrite Hars; reflexivity).
    rewrite Hlen0.
    destruct (CalculateFaceAreasFromOverlap_prefix GetRows_is_size_t
                meshOverlap (length (faces m)) (length (faces meshOverlap)))
      as (st & -> & _); [assumption..|].
    reflexivity.
  - intros i ix Hi Hix Hbefore Hbig.
    destruct (CalculateFaceAreasFromOverlap_first_failure GetRows_is_size_t
                m meshOverlap i ix) as (e & He & Hmsg); try assumption.
    { rewrite Forall_lookup in Hints. by apply (Hints i). }
    { lia. }
    rewrite He. f_equal. by apply Hmsg.
Qed.

End OverlapFacts.

Lemma CalculateFaceAreasFromOverlap_index_check_witness :
  (is_Ok (CalculateFaceAreasFromOverlap true two_faces
            (three_pieces [ 0.25%float; 0.5%float; 0.125%float ] [ 0; 1; 0 ]))
   = true
   <-> Forall (fun ix => 0 <= ix < 2) [ 0; 1; 0 ])
  /\ (forall (i : nat) (ix : Z),
        (i < 3)%nat ->
        [ 0; 1; 0 ] !! i = Some ix ->
        Forall (fun ix => 0 <= ix < 2) (take i [ 0; 1; 0 ]) ->
        2 <= ix ->
        CalculateFaceAreasFromOverlap true two_faces
          (three_pieces [ 0.25%float; 0.5%float; 0.125%float ] [ 0; 1; 0 ])
        = Err (Exception "Overlap Mesh FirstFaceIx contains invalid Face index")).
Proof.
  apply (CalculateFaceAreasFromOverlap_index_check true two_faces
           (three_pieces [ 0.25%float; 0.5%float; 0.125%float ] [ 0; 1; 0 ])).
  - discriminate.
  - cbn. lia.
  - cbn. lia.
  - cbn. lia.
  - repeat (constructor; [lia|]). constructor.
Defined.

Example CalculateFaceAreasFromOverlap_three_pieces :
  match CalculateFaceAreasFromOverlap false two_faces
          (three_pieces [ 0.25%float; 0.5%float; 0.125%float ] [ 0; 1; 0 ]) with
  | Ok (m', dTotalArea) => Some (vecFaceArea m', dTotalArea)
  | Err _ => None
  end
  = Some ([ 0.375%float; 0.5%float ], 0.875%float).
Proof. vm_compute. reflexivity. Qed.

Example CalculateFaceAreasFromOverlap_stray_piece :
  CalculateFaceAreasFromOverlap false two_faces
    (three_pieces [ 0.25%float; 0.5%float; 0.125%float ] [ 0; 2; 0 ])
  = Err (Exception "Overlap Mesh FirstFaceIx contains invalid Face index").
Proof. vm_compute. reflexivity. Qed.

(** The state of the loop of [CalculateFaceAreasFromOverlap] after [k]
    rounds, in exact arithmetic. *)
Lemma CalculateFaceAreasFromOverlap_rounds (GetRows_is_size_t : bool)
    (meshOverlap : Mesh R) (nf k : nat) :
  (k <= length (vecSourceFaceIx meshOverlap))%nat ->
  (k <= length (vecFaceArea meshOverlap))%nat ->
  Z.of_nat nf < 2 ^ 31 ->
  Forall (fun ix => 0 <= ix < Z.of_nat nf)
    (take k (vecSourceFaceIx meshOverlap)) ->
  exists st,
    forM (CalculateFaceAreasFromOverlap_body GetRows_is_size_t meshOverlap)
      (seq 0 k) (replicate nf r_zero, r_zero) = Ok st
    /\ length (fst st) = nf
    /\ snd st = total (take k (vecFaceArea meshOverlap))
    /\ total (fst st) = snd st
    /\ (forall f, (f < nf)%nat ->
          fst st !! f
          = Some (overlap_area_of (take k (vecSourceFaceIx meshOverlap))
                    (take k (vecFaceArea meshOverlap)) f)).
Proof.
  intros Hsrc Harea Hsmall Hrange.
  apply (forM_seq_invariant
           (fun j st =>
              length (fst st) = nf
              /\ snd st = total (take j (vecFaceArea meshOverlap))
              /\ total (fst st) = snd st
              /\ (forall f, (f < nf)%nat ->
                    fst st !! f
                    = Some (overlap_area_of
                              (take j (vecSourceFaceIx meshOverlap))
                              (take j (vecFaceArea meshOverlap)) f)))
           _ k 0).
  - intros j [areas tot] Hj (Hlen & Htot & Hsum & Hbucket).
    cbn [fst snd] in *.
    destruct (lookup_lt_is_Some_2 (vecSourceFaceIx meshOverlap) j)
      as [ix Hix]; [lia|].
    destruct (lookup_lt_is_Some_2 (vecFaceArea meshOverlap) j)
      as [a Ha]; [lia|].
    assert (Hin : 0 <= ix < Z.of_nat nf).
    { rewrite Forall_lookup in Hrange. apply (Hrange j).
      rewrite lookup_take_lt by lia. exact Hix. }
    destruct (CalculateFaceAreasFromOverlap_step GetRows_is_size_t
                meshOverlap areas tot j ix a Hix Ha)
      as (old & Hold & ->); [lia..|].
    eexists. split; [reflexivity|]. cbn [fst snd].
    rewrite (take_S_r _ _ _ Hix), (take_S_r _ _ _ Ha).
    split; [by rewrite length_insert|]. split.
    { rewrite total_R_app, Htot. cbn [r_add real_exact].
      rewrite total_R_cons, total_R_nil. lra. }
    split.
    { cbn [r_add real_exact].
      rewrite (total_R_insert areas _ old a Hold). by rewrite Hsum. }
    intros f Hf. unfold overlap_area_of.
    rewrite zip_with_app
      by (rewrite !length_take; lia).
    rewrite filter_app, map_app, total_R_app.
    specialize (Hbucket f Hf). unfold overlap_area_of in Hbucket.
    cbn [zip_with]. rewrite filter_cons, filter_nil. cbn [fst].
    destruct (decide (ix = Z.of_nat f)) as [->|Hne].
    + rewrite Nat2Z.id in *. rewrite list_lookup_insert_eq by lia.
      cbn [map snd]. rewrite total_R_cons, total_R_nil.
      rewrite Hbucket in Hold. injection Hold as <-.
      f_equal. cbn [r_add real_exact]. lra.
    + rewrite list_lookup_insert_ne by lia.
      cbn [map]. rewrite total_R_nil, Hbucket. f_equal. lra.
  - cbn [fst snd]. rewrite take_0. split; [apply length_replicate|].
    split; [by rewrite total_R_nil, real_exact_zero|].
    split; [by rewrite total_R_replicate, real_exact_zero|].
    intros f Hf. rewrite lookup_replicate_2 by assumption.
    unfold overlap_area_of. rewrite take_0.
    cbn [zip_with filter map]. rewrite filter_nil. cbn [map].
    by rewrite total_R_nil, real_exact_zero.
Qed.

(** X5. In exact arithmetic, for an overlap mesh whose source indices
    are indices of faces of the mesh, [CalculateFaceAreasFromOverlap]
    gives every face the sum of the areas of the overlap faces that name
    it as their source, and returns the sum of the areas of all overlap
    faces, which is the sum of the face areas it has set. *)
Theorem CalculateFaceAreasFromOverlap_conserves_area (GetRows_is_size_t : bool)
    (m meshOverlap : Mesh R) :
  vecFaceArea meshOverlap <> [] ->
  (length (faces meshOverlap) <= length (vecSourceFaceIx meshOverlap))%nat ->
  (length (faces meshOverlap) <= length (vecFaceArea meshOverlap))%nat ->
  Z.of_nat (length (faces m)) < 2 ^ 31 ->
  Forall (fun ix => 0 <= ix < Z.of_nat (length (faces m)))
    (take (length (faces meshOverlap)) (vecSourceFaceIx meshOverlap)) ->
  exists (m' : Mesh R) (dTotalArea : R),
    CalculateFaceAreasFromOverlap GetRows_is_size_t m meshOverlap
    = Ok (m', dTotalArea)
    /\ dTotalArea
       = total (take (length (faces meshOverlap)) (vecFaceArea meshOverlap))
    /\ total (vecFaceArea m') = dTotalArea
    /\ length (vecFaceArea m') = length (faces m)
    /\ (forall f, (f < length (faces m))%nat ->
          vecFaceArea m' !! f
          = Some (overlap_area_of
                    (take (length (faces meshOverlap))
                       (vecSourceFaceIx meshOverlap))
                    (take (length (faces meshOverlap))
                       (vecFaceArea meshOverlap)) f))
    /\ nodes m' = nodes m /\ faces m' = faces m.
Proof.
  intros Hne Hsrc Harea Hsmall Hall. unfold CalculateFaceAreasFromOverlap.
  destruct (vecFaceArea meshOverlap) as [|a0 ars] eqn:Hars; [contradiction|].
  rewrite <- Hars in *.
  assert (Hlen0 : (length (vecFaceArea meshOverlap) =? 0)%nat = false)
    by (rewrite Hars; reflexivity).
  rewrite Hlen0.
  destruct (CalculateFaceAreasFromOverlap_rounds GetRows_is_size_t
              meshOverlap (length (faces m)) (length (faces meshOverlap)))
    as ([areas tot] & -> & Hlen & Htot & Hsum & Hbucket); [assumption..|].
  cbn [fst snd] in *. exists (set_vecFaceArea m areas), tot.
  split; [reflexivity|]. cbn [vecFaceArea set_vecFaceArea nodes faces].
  auto 10.
Qed.

Lemma CalculateFaceAreasFromOverlap_conserves_area_witness :
  exists (m' : Mesh R) (dTotalArea : R),
    CalculateFaceAreasFromOverlap true two_faces
      (three_pieces [ 1%R; 2%R; 4%R ] [ 0; 1; 0 ])
    = Ok (m', dTotalArea)
    /\ dTotalArea = total (take 3 [ 1%R; 2%R; 4%R ])
    /\ total (vecFaceArea m') = dTotalArea
    /\ length (vecFaceArea m') = 2%nat
    /\ (forall f, (f < 2)%nat ->
          vecFaceArea m' !! f
          = Some (overlap_area_of (take 3 [ 0; 1; 0 ])
                    (take 3 [ 1%R; 2%R; 4%R ]) f))
    /\ nodes m' = [] /\ faces m' = [ octant_face; octant_face ].
Proof.
  apply (CalculateFaceAreasFromOverlap_conserves_area true two_faces
           (three_pieces [ 1%R; 2%R; 4%R ] [ 0; 1; 0 ])).
  - discriminate.
  - cbn. lia.
  - cbn. lia.
  - cbn. lia.
  - cbn. repeat (constructor; [lia|]). constructor.
Defined.

(** ** Mesh::ExchangeFirstAndSecondMesh *)

Lemma multimap_insert_perm (mm : list (Z * Z)) (k v : Z) :
  multimap_insert mm k v ≡ₚ (k, v) :: mm.
Proof.
  induction mm as [|[k' v'] mm IH]; cbn [multimap_insert]; [reflexivity|].
  destruct (k <? k'); [reflexivity|].
  rewrite IH. apply perm_swap.
Qed.

Lemma multimap_insert_sorted (mm : list (Z * Z)) (k v : Z) :
  StronglySorted key_then_position mm ->
  Forall (fun e => snd e < v) mm ->
  StronglySorted key_then_position (multimap_insert mm k v).
Proof.
  induction mm as [|[k' v'] mm IH]; intros Hsorted Hbelow;
    cbn [multimap_insert].
  - repeat constructor.
  - apply StronglySorted_inv in Hsorted as [Hsorted Hhead].
    apply Forall_cons in Hbelow as [Hv' Hbelow]. cbn [snd] in Hv'.
    destruct (Z.ltb_spec k k') as [Hlt|Hge].
    + constructor; [by constructor|].
      constructor; [left; exact Hlt|].
      eapply Forall_impl; [exact Hhead|].
      intros [k2 v2] Hk2. unfold key_then_position in *. cbn [fst snd] in *.
      lia.
    + constructor; [by apply IH|].
      rewrite multimap_insert_perm. constructor; [|assumption].
      unfold key_then_position. cbn [fst snd]. lia.
Qed.

Lemma indexed_snoc {A} (l : list A) (a : A) :
  indexed (l ++ [a]) = indexed l ++ [(Z.of_nat (length l), a)].
Proof.
  unfold indexed. rewrite length_app. cbn [length].
  rewrite Nat.add_1_r, seq_S, map_app. cbn [map Nat.add].
  rewrite zip_with_app by (by rewrite length_map, length_seq).
  reflexivity.
Qed.

Lemma reordering_map_snoc (tgt : list Z) (t : Z) :
  reordering_map (tgt ++ [t])
  = multimap_insert (reordering_map tgt) t (Z.of_nat (length tgt)).
Proof.
  unfold reordering_map. rewrite indexed_snoc, fold_left_app. reflexivity.
Qed.

(** The reordering map holds every position once, under its target
    index, in the order of the target indices and, among equal target
    indices, of the positions. *)
Lemma reordering_map_spec (tgt : list Z) :
  StronglySorted key_then_position (reordering_map tgt)
  /\ map (fun e => Z.to_nat (snd e)) (reordering_map tgt)
     ≡ₚ seq 0 (length tgt)
  /\ Forall (fun e => 0 <= snd e < Z.of_nat (length tgt)
                      /\ tgt !! Z.to_nat (snd e) = Some (fst e))
       (reordering_map tgt).
Proof.
  induction tgt as [|t tgt IH] using rev_ind.
  - repeat split; constructor.
  - destruct IH as (Hsorted & Hperm & Hall).
    rewrite reordering_map_snoc, length_app. cbn [length].
    split; [|split].
    + apply multimap_insert_sorted; [assumption|].
      eapply Forall_impl; [exact Hall|]. intros e He. cbn beta in He. lia.
    + rewrite multimap_insert_perm. cbn [map snd].
      rewrite Nat2Z.id, Hperm, Nat.add_1_r, seq_S. cbn [Nat.add].
      apply Permutation_cons_append.
    + rewrite multimap_insert_perm. constructor.
      * cbn [fst snd]. split; [lia|].
        rewrite Nat2Z.id. by rewrite lookup_app_r, Nat.sub_diag by lia.
      * eapply Forall_impl; [exact Hall|]. intros e [He1 He2].
        split; [lia|]. rewrite lookup_app_l by lia. exact He2.
Qed.

Lemma ExchangeFirstAndSecondMesh_loop (facesOld : list Face)
    (vecSourceFaceIxOld : list Z) (mm : list (Z * Z)) :
  forall (fs : list Face) (ss ts : list Z),
    Forall (fun e => 0 <= snd e < Z.of_nat (length facesOld)) mm ->
    length vecSourceFaceIxOld = length facesOld ->
    forM (ExchangeFirstAndSecondMesh_body facesOld vecSourceFaceIxOld)
      mm (fs, ss, ts)
    = Ok (fs ++ map (fun e => nth (Z.to_nat (snd e)) facesOld (mkFace [])) mm,
          ss ++ map fst mm,
          ts ++ map (fun e => nth (Z.to_nat (snd e)) vecSourceFaceIxOld 0) mm).
Proof.
  induction mm as [|[first second] mm IH]; intros fs ss ts Hall Hlen;
    cbn [forM map].
  - by rewrite !app_nil_r.
  - apply Forall_cons in Hall as [Hsecond Hall]. cbn [snd fst] in *.
    unfold ExchangeFirstAndSecondMesh_body at 1. unfold get_at, vec_get.
    destruct (Z.ltb_spec second 0) as [|_]; [lia|].
    destruct (lookup_lt_is_Some_2 facesOld (Z.to_nat second))
      as [face Hface]; [lia|].
    destruct (lookup_lt_is_Some_2 vecSourceFaceIxOld (Z.to_nat second))
      as [s Hs]; [lia|].
    rewrite Hface, Hs. cbn [mbind Exn_bind mret Exn_ret].
    rewrite IH by assumption.
    rewrite (nth_lookup_Some _ _ _ _ Hface), (nth_lookup_Some _ _ _ _ Hs).
    by rewrite <- !app_assoc.
Qed.

Lemma map_nth_seq_id {A} (l : list A) (d : A) :
  map (fun i => nth i l d) (seq 0 (length l)) = l.
Proof.
  induction l as [|a l IH] using rev_ind; [reflexivity|].
  rewrite length_app. cbn [length]. rewrite Nat.add_1_r, seq_S, map_app.
  cbn [map Nat.add]. rewrite app_nth2, Nat.sub_diag by lia. cbn [nth].
  f_equal. rewrite <- IH at 2. apply map_ext_in. intros i Hi.
  apply in_seq in Hi. apply app_nth1. lia.
Qed.

Lemma zip_map_map {A B C} (f : A -> B) (g : A -> C) (l : list A) :
  zip (map f l) (map g l) = map (fun a => (f a, g a)) l.
Proof. induction l as [|a l IH]; [reflexivity|]. cbn. by rewrite IH. Qed.

Section ExchangeFacts.
Context {Real : Type} `{RealArith Real}.

Lemma ExchangeFirstAndSecondMesh_spec (m : Mesh Real) :
  length (faces m) = length (vecSourceFaceIx m) ->
  length (faces m) = length (vecTargetFaceIx m) ->
  exists (m' : Mesh Real) (order : list nat),
    ExchangeFirstAndSecondMesh m = Ok m'
    /\ order ≡ₚ seq 0 (length (faces m))
    /\ faces m' = map (fun i => nth i (faces m) (mkFace [])) order
    /\ vecSourceFaceIx m' = map (fun i => nth i (vecTargetFaceIx m) 0) order
    /\ vecTargetFaceIx m' = map (fun i => nth i (vecSourceFaceIx m) 0) order
    /\ StronglySorted key_then_position
         (zip (vecSourceFaceIx m') (map Z.of_nat order))
    /\ nodes m' = nodes m.
Proof.
  intros Hsrc Htgt. unfold ExchangeFirstAndSecondMesh.
  rewrite <- Hsrc, <- Htgt, Nat.eqb_refl. cbn [negb orb].
  destruct (reordering_map_spec (vecTargetFaceIx m)) as (Hsorted & Hperm & Hall).
  rewrite ExchangeFirstAndSecondMesh_loop.
  2:{ eapply Forall_impl; [exact Hall|]. intros e [He _]. lia. }
  2:{ by symmetry. }
  cbn [mbind Exn_bind mret Exn_ret app].
  eexists _, (map (fun e => Z.to_nat (snd e))
                (reordering_map (vecTargetFaceIx m))).
  split; [reflexivity|].
  cbn [faces vecSourceFaceIx vecTargetFaceIx nodes set_faces
       set_vecSourceFaceIx set_vecTargetFaceIx].
  split; [by rewrite Htgt|]. rewrite !map_map.
  split; [reflexivity|]. split.
  { apply map_ext_Forall. eapply Forall_impl; [exact Hall|].
    intros e [_ He]. symmetry. by apply nth_lookup_Some. }
  split; [reflexivity|]. split; [|reflexivity].
  replace (zip (map fst (reordering_map (vecTargetFaceIx m)))
             (map (fun e => Z.of_nat (Z.to_nat (snd e)))
                (reordering_map (vecTargetFaceIx m))))
    with (reordering_map (vecTargetFaceIx m)); [assumption|].
  revert Hall. generalize (reordering_map (vecTargetFaceIx m)).
  induction 1 as [|[k v] mm [Hv _] _ IH]; [reflexivity|].
  cbn [map zip_with fst snd] in *. rewrite Z2Nat.id by lia. by rewrite <- IH.
Qed.

(** X7. When the face list and the two parent arrays are of one length,
    [ExchangeFirstAndSecondMesh] ends without error and sorts the faces
    by their target index, faces of one target index staying in their
    order: the new source indices are the old target indices in
    ascending order, and every face keeps its two parents, their roles
    exchanged. *)
Theorem ExchangeFirstAndSecondMesh_stable_sort (m : Mesh Real) :
  length (faces m) = length (vecSourceFaceIx m) ->
  length (faces m) = length (vecTargetFaceIx m) ->
  exists (m' : Mesh Real) (order : list nat),
    ExchangeFirstAndSecondMesh m = Ok m'
    /\ order ≡ₚ seq 0 (length (faces m))
    /\ faces m' = map (fun i => nth i (faces m) (mkFace [])) order
    /\ vecSourceFaceIx m' = map (fun i => nth i (vecTargetFaceIx m) 0) order
    /\ vecTargetFaceIx m' = map (fun i => nth i (vecSourceFaceIx m) 0) order
    /\ StronglySorted key_then_position
         (zip (vecSourceFaceIx m') (map Z.of_nat order))
    /\ nodes m' = nodes m.
Proof. apply ExchangeFirstAndSecondMesh_spec. Qed.

(** What one exchange does to the faces and their parents. *)
Lemma ExchangeFirstAndSecondMesh_parents (m : Mesh Real) :
  length (faces m) = length (vecSourceFaceIx m) ->
  length (faces m) = length (vecTargetFaceIx m) ->
  exists m' : Mesh Real,
    ExchangeFirstAndSecondMesh m = Ok m'
    /\ length (faces m') = length (vecSourceFaceIx m')
    /\ length (faces m') = length (vecTargetFaceIx m')
    /\ parents m' ≡ₚ map swap_parents (parents m)
    /\ nodes m' = nodes m.
Proof.
  intros Hsrc Htgt.
  destruct (ExchangeFirstAndSecondMesh_spec m Hsrc Htgt)
    as (m' & order & Hm' & Hperm & Hf & Hs & Ht & _ & Hnodes).
  exists m'. split; [assumption|].
  rewrite Hf, Hs, Ht, !length_map. repeat split; [|assumption].
  assert (Hp : parents m
               = map (fun i => (nth i (faces m) (mkFace []),
                                (nth i (vecSourceFaceIx m) 0,
                                 nth i (vecTargetFaceIx m) 0)))
                   (seq 0 (length (faces m)))).
  { rewrite <- (zip_map_map (fun i => nth i (faces m) (mkFace []))
                  (fun i => (nth i (vecSourceFaceIx m) 0,
                             nth i (vecTargetFaceIx m) 0))).
    rewrite <- (zip_map_map (fun i => nth i (vecSourceFaceIx m) 0)
                  (fun i => nth i (vecTargetFaceIx m) 0)).
    rewrite map_nth_seq_id. rewrite Hsrc, map_nth_seq_id.
    rewrite <- Hsrc, Htgt, map_nth_seq_id. reflexivity. }
  rewrite Hp. unfold parents. rewrite Hf, Hs, Ht.
  rewrite !zip_map_map, map_map.
  unfold swap_parents. cbn [fst snd].
  by apply Permutation_map.
Qed.

(** X8. Two calls of [ExchangeFirstAndSecondMesh] in a row end without
    error and give back every face with its parent on the source mesh
    and its parent on the target mesh: the faces with their parents are
    those of the mesh before, in another order. *)
Theorem ExchangeFirstAndSecondMesh_twice (m : Mesh Real) :
  length (faces m) = length (vecSourceFaceIx m) ->
  length (faces m) = length (vecTargetFaceIx m) ->
  exists m' m'' : Mesh Real,
    ExchangeFirstAndSecondMesh m = Ok m'
    /\ ExchangeFirstAndSecondMesh m' = Ok m''
    /\ parents m'' ≡ₚ parents m
    /\ nodes m'' = nodes m.
Proof.
  intros Hsrc Htgt.
  destruct (ExchangeFirstAndSecondMesh_parents m Hsrc Htgt)
    as (m' & Hm' & Hsrc' & Htgt' & Hparents' & Hnodes').
  destruct (ExchangeFirstAndSecondMesh_parents m' Hsrc' Htgt')
    as (m'' & Hm'' & _ & _ & Hparents'' & Hnodes'').
  exists m', m''. split; [assumption|]. split; [assumption|].
  split; [|congruence].
  rewrite Hparents'', Hparents', map_map.
  rewrite <- (map_id (parents m)) at 2.
  apply eq_subrelation; [apply _|].
  apply map_ext. by intros [face [s t]].
Qed.

End ExchangeFacts.

Lemma ExchangeFirstAndSecondMesh_stable_sort_witness :
  exists (m' : Mesh float) (order : list nat),
    ExchangeFirstAndSecondMesh four_pieces = Ok m'
    /\ order ≡ₚ seq 0 4
    /\ faces m' = map (fun i => nth i (faces (@four_pieces float)) (mkFace [])) order
    /\ vecSourceFaceIx m' = map (fun i => nth i [ 2; 0; 2; 0 ] 0) order
    /\ vecTargetFaceIx m' = map (fun i => nth i [ 0; 0; 1; 1 ] 0) order
    /\ StronglySorted key_then_position
         (zip (vecSourceFaceIx m') (map Z.of_nat order))
    /\ nodes m' = [].
Proof.
  apply (ExchangeFirstAndSecondMesh_stable_sort four_pieces); reflexivity.
Defined.

Lemma ExchangeFirstAndSecondMesh_twice_witness :
  exists m' m'' : Mesh float,
    ExchangeFirstAndSecondMesh four_pieces = Ok m'
    /\ ExchangeFirstAndSecondMesh m' = Ok m''
    /\ parents m'' ≡ₚ parents (@four_pieces float)
    /\ nodes m'' = [].
Proof.
  apply (ExchangeFirstAndSecondMesh_twice four_pieces); reflexivity.
Defined.

Example ExchangeFirstAndSecondMesh_four_pieces :
  match ExchangeFirstAndSecondMesh (@four_pieces float) with
  | Ok m' => Some (faces m', vecSourceFaceIx m', vecTargetFaceIx m')
  | Err _ => None
  end
  = Some ([ quad 4 7 6 5; quad 1 5 6 2; quad 0 1 2 3; quad 0 4 5 1 ],
          [ 0; 0; 2; 2 ], [ 0; 1; 0; 1 ]).
Proof. vm_compute. reflexivity. Qed.

Example ExchangeFirstAndSecondMesh_lengths_differ :
  ExchangeFirstAndSecondMesh (@two_faces float) = Err (Exception "").
Proof. vm_compute. reflexivity. Qed.


(** ** General purpose functions *)

Lemma R_leb_true_iff (a b : R) : R_leb a b = true <-> (a <= b)%R.
Proof. unfold R_leb. destruct (Rle_dec a b); split; auto; discriminate. Qed.

Lemma R_leb_false_iff (a b : R) : R_leb a b = false <-> (b < a)%R.
Proof.
  unfold R_leb. destruct (Rle_dec a b); split; auto; try discriminate; lra.
Qed.

(** Turns the outcome of the comparisons into inequalities. *)
Ltac rbool :=
  repeat match goal with
         | H : R_ltb _ _ = true |- _ => apply R_ltb_true_iff in H
         | H : R_ltb _ _ = false |- _ => apply R_ltb_false_iff in H
         | H : R_leb _ _ = true |- _ => apply R_leb_true_iff in H
         | H : R_leb _ _ = false |- _ => apply R_leb_false_iff in H
         end.

Ltac rcase b := let H := fresh "Hc" in destruct b eqn:H; rbool.

Lemma IsPositivelyOrientedEdge_exact (nodeBegin nodeEnd : Node R) :
  IsPositivelyOrientedEdge nodeBegin nodeEnd
  = if R_ltb (Rabs (x nodeBegin - x nodeEnd)) ReferenceTolerance
       && R_ltb (Rabs (y nodeBegin - y nodeEnd)) ReferenceTolerance
       && R_ltb (Rabs (z nodeBegin - z nodeEnd)) ReferenceTolerance
    then Err (Exception "Latitude line of zero length")
    else if R_leb 0 (y nodeBegin) && R_leb 0 (y nodeEnd) then
      Ok (R_ltb (x nodeEnd) (x nodeBegin))
    else if R_leb (y nodeBegin) 0 && R_leb (y nodeEnd) 0 then
      Ok (R_ltb (x nodeBegin) (x nodeEnd))
    else if R_leb 0 (x nodeBegin) && R_leb 0 (x nodeEnd) then
      Ok (R_ltb (y nodeBegin) (y nodeEnd))
    else if R_leb (x nodeBegin) 0 && R_leb (x nodeEnd) 0 then
      Ok (R_ltb (y nodeEnd) (y nodeBegin))
    else Err (Exception "Arc length too large to determine orientation.").
Proof.
  unfold IsPositivelyOrientedEdge.
  cbn [r_fabs r_sub r_ltb r_leb real_exact]. rewrite real_exact_zero.
  reflexivity.
Qed.

(** X9. In exact arithmetic [IsPositivelyOrientedEdge] does not call an
    edge and the same edge reversed both positively oriented, and it
    throws for an edge exactly when it throws, the same exception, for
    the edge reversed. *)
Theorem IsPositivelyOrientedEdge_reversed (nodeBegin nodeEnd : Node R) :
  (IsPositivelyOrientedEdge nodeBegin nodeEnd = Ok true ->
   IsPositivelyOrientedEdge nodeEnd nodeBegin = Ok false)
  /\ (forall e : Error,
        IsPositivelyOrientedEdge nodeBegin nodeEnd = Err e
        <-> IsPositivelyOrientedEdge nodeEnd nodeBegin = Err e).
Proof.
  rewrite !IsPositivelyOrientedEdge_exact.
  rewrite (Rabs_minus_sym (x nodeEnd)), (Rabs_minus_sym (y nodeEnd)),
    (Rabs_minus_sym (z nodeEnd)).
  destruct (R_ltb (Rabs (x nodeBegin - x nodeEnd)) ReferenceTolerance
            && R_ltb (Rabs (y nodeBegin - y nodeEnd)) ReferenceTolerance
            && R_ltb (Rabs (z nodeBegin - z nodeEnd)) ReferenceTolerance).
  { split; [discriminate|reflexivity]. }
  rcase (R_leb 0 (y nodeBegin)); rcase (R_leb 0 (y nodeEnd)); cbn [andb].
  { split; [|split; discriminate].
    intros [= Hlt]. rbool. f_equal. apply R_ltb_false_iff. lra. }
  all: rcase (R_leb (y nodeBegin) 0); rcase (R_leb (y nodeEnd) 0); cbn [andb];
    try lra.
  all: try (split; [|split; discriminate];
            intros [= Hlt]; rbool; f_equal; apply R_ltb_false_iff; lra).
  all: rcase (R_leb 0 (x nodeBegin)); rcase (R_leb 0 (x nodeEnd)); cbn [andb];
    try lra.
  all: try (split; [|split; discriminate];
            intros [= Hlt]; rbool; f_equal; apply R_ltb_false_iff; lra).
  all: rcase (R_leb (x nodeBegin) 0); rcase (R_leb (x nodeEnd) 0); cbn [andb];
    try lra.
  all: try (split; [|split; discriminate];
            intros [= Hlt]; rbool; f_equal; apply R_ltb_false_iff; lra).
  all: split; [discriminate|reflexivity].
Qed.

Lemma DotProduct_exact (a b : Node R) :
  DotProduct a b = (x a * x b + y a * y b + z a * z b)%R.
Proof. reflexivity. Qed.

Lemma constant_latitude_direction_tangent (nodeBegin nodeEnd nodeDir d : Node R) :
  constant_latitude_direction nodeBegin nodeEnd nodeDir = Ok d ->
  DotProduct d nodeBegin = 0%R /\ z d = 0%R.
Proof.
  unfold constant_latitude_direction.
  destruct (IsPositivelyOrientedEdge nodeBegin nodeEnd) as [[]|];
    cbn [mbind Exn_bind mret Exn_ret]; intros [= <-];
    rewrite DotProduct_exact; cbn [x y z r_opp real_exact];
    change (R_lit 0 0) with (@r_zero R real_exact);
    rewrite real_exact_zero; split; lra.
Qed.

(** X10. In exact arithmetic the direction that [GetLocalDirection]
    gives for a great circle arc or for a line of constant latitude is
    tangent to the sphere: it is orthogonal to the node the arc begins
    at, in the overload with a reference node, for a great circle arc,
    to the reference node.  For a great circle arc the call does not
    throw. *)
Theorem GetLocalDirection_tangent
    (nodeBegin nodeEnd nodeRef nodeDir : Node R) :
  DotProduct nodeBegin nodeBegin <> 0%R ->
  DotProduct nodeRef nodeRef <> 0%R ->
  (exists d,
     GetLocalDirection nodeBegin nodeEnd Type_GreatCircleArc nodeDir = Ok d
     /\ DotProduct d nodeBegin = 0%R)
  /\ (exists d,
        GetLocalDirection_ref nodeBegin nodeEnd nodeRef Type_GreatCircleArc
          nodeDir = Ok d
        /\ DotProduct d nodeRef = 0%R)
  /\ (forall d,
        GetLocalDirection nodeBegin nodeEnd Type_ConstantLatitude nodeDir = Ok d
        \/ GetLocalDirection_ref nodeBegin nodeEnd nodeRef
             Type_ConstantLatitude nodeDir = Ok d ->
        DotProduct d nodeBegin = 0%R /\ z d = 0%R).
Proof.
  intros Hbegin Href. split; [|split].
  - eexists. split; [reflexivity|].
    rewrite DotProduct_exact in *.
    cbn [x y z Node_sub r_sub r_mul r_div r_add real_exact].
    rewrite !DotProduct_exact. unfold Node_sub.
    cbn [x y z r_sub real_exact]. field. exact Hbegin.
  - eexists. split; [reflexivity|].
    rewrite DotProduct_exact in *.
    cbn [x y z Node_sub r_sub r_mul r_div r_add real_exact].
    rewrite !DotProduct_exact. unfold Node_sub.
    cbn [x y z r_sub real_exact]. field. exact Href.
  - intros d [Hd|Hd];
      exact (constant_latitude_direction_tangent _ _ _ _ Hd).
Qed.

Lemma GetLocalDirection_tangent_witness :
  (exists d,
     GetLocalDirection axis_x_exact axis_y_exact Type_GreatCircleArc
       origin_exact = Ok d
     /\ DotProduct d axis_x_exact = 0%R)
  /\ (exists d,
        GetLocalDirection_ref axis_x_exact axis_y_exact axis_z_exact
          Type_GreatCircleArc origin_exact = Ok d
        /\ DotProduct d axis_z_exact = 0%R)
  /\ (forall d,
        GetLocalDirection axis_x_exact axis_y_exact Type_ConstantLatitude
          origin_exact = Ok d
        \/ GetLocalDirection_ref axis_x_exact axis_y_exact axis_z_exact
             Type_ConstantLatitude origin_exact = Ok d ->
        DotProduct d axis_x_exact = 0%R /\ z d = 0%R).
Proof.
  apply (GetLocalDirection_tangent axis_x_exact axis_y_exact axis_z_exact
           origin_exact);
    rewrite DotProduct_exact; cbn [x y z axis_x_exact axis_z_exact]; lra.
Defined.

Example IsPositivelyOrientedEdge_quarter_turn :
  IsPositivelyOrientedEdge axis_x axis_y = Ok true
  /\ IsPositivelyOrientedEdge axis_y axis_x = Ok false
  /\ IsPositivelyOrientedEdge axis_x axis_x
     = Err (Exception "Latitude line of zero length")
  /\ IsPositivelyOrientedEdge
       (mkNode 0.6%float 0.8%float 0%float)
       (mkNode (-0.6)%float (-0.8)%float 0%float)
     = Err (Exception "Arc length too large to determine orientation.").
Proof. vm_compute. repeat split. Qed.

Example GetLocalDirection_quarter_turn :
  GetLocalDirection axis_x axis_y Type_GreatCircleArc axis_z = Ok axis_y
  /\ GetLocalDirection axis_x axis_y Type_ConstantLatitude axis_z
     = Ok (mkNode (-0)%float 1%float 0%float)
  /\ GetLocalDirection axis_x axis_y 2 axis_z = Ok axis_z.
Proof. vm_compute. repeat split. Qed.

(** ** NodeTree::find_or_insert *)

Section FindOrInsertFacts.
Context {Real : Type} `{RealArith Real}.

(** The two ways [find_or_insert] ends without error: a stored point
    within the minimum spacing is found and the tree stays as it is, or
    there is none and the point is stored. *)
Lemma NodeTree_find_or_insert_inv (t t' : NodeTree Real) (node : Node Real)
    (index r : Z) :
  NodeTree_find_or_insert t node index = Ok (r, t') ->
  (kd_nearest_range3 (m_kdtree t) node (m_minimum_spacing t) <> []
   /\ t' = t /\ NodeTree_find t node = Ok r /\ 0 <= r < INT_MAX)
  \/ (kd_nearest_range3 (m_kdtree t) node (m_minimum_spacing t) = []
      /\ r = index
      /\ t' = mkNodeTree (m_minimum_spacing t)
                (kd_insert3 (m_kdtree t) node index) (m_size t + 1)).
Proof.
  unfold NodeTree_find_or_insert, NodeTree_find.
  destruct (kd_nearest_range3 (m_kdtree t) node (m_minimum_spacing t))
    as [|e0 res0] eqn:Hres.
  - cbn [length Z.of_nat Z.eqb mbind Exn_bind].
    change (negb (to_size_t (to_int (to_size_t InvalidNode))
                  =? to_size_t InvalidNode)) with false.
    cbn iota. intros [= <- <-]. right. auto.
  - rewrite <- Hres.
    assert (Hlen : (Z.of_nat (length (kd_nearest_range3 (m_kdtree t) node
                                        (m_minimum_spacing t))) =? 0) = false).
    { rewrite Hres. cbn [length]. apply Z.eqb_neq. lia. }
    rewrite Hlen.
    destruct (find_minimal_spec
                (kd_nearest_range3 (m_kdtree t) node (m_minimum_spacing t))
                (to_size_t INT_MAX)) as (Hle & _ & Hmem).
    set (iMinimalIndex :=
           find_minimal
             (kd_nearest_range3 (m_kdtree t) node (m_minimum_spacing t))
             (to_size_t INT_MAX)) in *.
    change (to_size_t INT_MAX) with INT_MAX in *.
    destruct (Z.eqb_spec iMinimalIndex INT_MAX) as [|Hne]; [discriminate|].
    assert (Hnonneg : 0 <= iMinimalIndex).
    { destruct Hmem as [->|(e & _ & ->)]; [unfold INT_MAX; lia|].
      unfold to_size_t. apply Z.mod_pos_bound. lia. }
    cbn [mbind Exn_bind].
    assert (Hrange : 0 <= iMinimalIndex < INT_MAX) by lia.
    unfold INT_MAX in Hrange.
    rewrite to_int_small by lia. rewrite (to_size_t_small iMinimalIndex) by lia.
    destruct (Z.eqb_spec iMinimalIndex (to_size_t InvalidNode)) as [Heq|_].
    { change (to_size_t InvalidNode) with (2 ^ 64 - 1) in Heq. lia. }
    cbn [negb]. intros [= <- <-]. left.
    split; [by rewrite Hres|]. split; [reflexivity|].
    split; [reflexivity|]. unfold INT_MAX. lia.
Qed.

Lemma spaced_apart_snoc (range : Real) (kdt : kdtree Real)
    (node : Node Real) (index : Z) :
  spaced_apart range kdt ->
  kd_nearest_range3 kdt node range = [] ->
  spaced_apart range (kd_insert3 kdt node index).
Proof.
  intros Hspaced Hnone i j p q Hij Hi Hj. unfold kd_insert3 in *.
  assert (Hjlen : (j < length (kdt ++ [(node, index)]))%nat)
    by (eapply lookup_lt_Some; eauto).
  rewrite length_app in Hjlen. cbn [length] in Hjlen.
  rewrite lookup_app_l in Hi by lia.
  destruct (decide (j < length kdt)%nat) as [Hlt|Hge].
  - rewrite lookup_app_l in Hj by lia. exact (Hspaced i j p q Hij Hi Hj).
  - rewrite lookup_app_r in Hj by lia.
    replace (j - length kdt)%nat with 0%nat in Hj by lia.
    injection Hj as <-. cbn [fst].
    destruct (dist_sq (fst p) node <=? range * range)%real eqn:Hin;
      [|reflexivity].
    exfalso. unfold kd_nearest_range3 in Hnone.
    assert (Hp : p ∈ filter
                   (fun e => (dist_sq (fst e) node <=? range * range)%real = true)
                   kdt).
    { apply list_elem_of_filter. split; [assumption|].
      eapply list_elem_of_lookup_2; eauto. }
    rewrite Hnone in Hp. by apply elem_of_nil in Hp.
Qed.

Lemma insert_all_invariants (points : list (Node Real * Z)) :
  forall t t' : NodeTree Real,
    insert_all t points = Ok t' ->
    spaced_apart (m_minimum_spacing t) (m_kdtree t) ->
    m_size t = Z.of_nat (length (m_kdtree t)) ->
    m_minimum_spacing t' = m_minimum_spacing t
    /\ spaced_apart (m_minimum_spacing t') (m_kdtree t')
    /\ m_size t' = Z.of_nat (length (m_kdtree t'))
    /\ (length (m_kdtree t') <= length (m_kdtree t) + length points)%nat.
Proof.
  induction points as [|[node index] points IH]; intros t t' Hall Hspaced Hsize.
  - cbn in Hall. injection Hall as <-. repeat split; auto. lia.
  - unfold insert_all in Hall. cbn [forM] in Hall.
    destruct (NodeTree_find_or_insert t node index) as [[r t1]|] eqn:Hins;
      [|discriminate].
    cbn [mbind Exn_bind mret Exn_ret snd] in Hall.
    apply NodeTree_find_or_insert_inv in Hins
      as [(_ & -> & _)|(Hnone & _ & ->)].
    + destruct (IH t t' Hall Hspaced Hsize) as (? & ? & ? & ?).
      repeat split; auto. cbn [length]. lia.
    + destruct (IH _ t' Hall) as (Hsp & ? & ? & Hlen).
      * cbn [m_minimum_spacing m_kdtree]. by apply spaced_apart_snoc.
      * cbn [m_size m_kdtree]. unfold kd_insert3. rewrite length_app.
        cbn [length]. lia.
      * cbn [m_minimum_spacing m_kdtree] in *. unfold kd_insert3 in Hlen.
        rewrite length_app in Hlen. cbn [length] in *.
        repeat split; auto. lia.
Qed.

(** X11. A tree that a sequence of [find_or_insert] calls has built
    from the empty tree holds no point within the minimum spacing of a
    point stored before it, as the range query tests it, and [m_size] is
    the number of points stored, which is at most the number of
    calls. *)
Theorem insert_all_spaced_apart (minimum_spacing : Real)
    (points : list (Node Real * Z)) (t : NodeTree Real) :
  insert_all (NodeTree_new minimum_spacing) points = Ok t ->
  spaced_apart minimum_spacing (m_kdtree t)
  /\ m_size t = Z.of_nat (length (m_kdtree t))
  /\ (length (m_kdtree t) <= length points)%nat.
Proof.
  intros Hall.
  destruct (insert_all_invariants points _ t Hall) as (Hsp & Hspaced & ? & ?).
  - intros i j p q _ Hi. cbn in Hi. discriminate.
  - reflexivity.
  - cbn [m_minimum_spacing NodeTree_new] in Hsp. rewrite Hsp in Hspaced.
    auto.
Qed.

End FindOrInsertFacts.

Lemma insert_all_spaced_apart_witness :
  spaced_apart 0.5%float (m_kdtree two_axes_tree)
  /\ m_size two_axes_tree = Z.of_nat (length (m_kdtree two_axes_tree))
  /\ (length (m_kdtree two_axes_tree) <= length three_points)%nat.
Proof.
  apply (insert_all_spaced_apart 0.5%float three_points two_axes_tree).
  vm_compute. reflexivity.
Defined.

Lemma dist_sq_self (node : Node R) : dist_sq node node = 0%R.
Proof. unfold dist_sq. cbn. ring. Qed.

(** X12. In exact arithmetic, after [find_or_insert] has answered for a
    point with an index, [find] answers for that point with the same
    index. *)
Theorem NodeTree_find_after_find_or_insert (t t' : NodeTree R)
    (node : Node R) (index r : Z) :
  0 <= index < INT_MAX ->
  NodeTree_find_or_insert t node index = Ok (r, t') ->
  NodeTree_find t' node = Ok r.
Proof.
  intros Hindex Hins.
  apply NodeTree_find_or_insert_inv in Hins
    as [(_ & -> & Hfind & _)|(Hnone & -> & ->)]; [assumption|].
  unfold NodeTree_find. cbn [m_kdtree m_minimum_spacing].
  unfold kd_insert3, kd_nearest_range3 in *.
  rewrite filter_app, Hnone, filter_cons, filter_nil. cbn [fst app].
  rewrite decide_True.
  2:{ rewrite dist_sq_self. cbn [r_leb r_mul real_exact].
      apply R_leb_true_iff. nra. }
  cbn [length Z.of_nat Z.eqb Pos.of_succ_nat].
  unfold find_minimal. cbn [fold_left snd].
  unfold INT_MAX in Hindex.
  rewrite (to_size_t_small index) by lia.
  change (to_size_t INT_MAX) with (2 ^ 31 - 1).
  destruct (Z.ltb_spec index (2 ^ 31 - 1)) as [_|]; [|lia].
  destruct (Z.eqb_spec index (2 ^ 31 - 1)) as [|_]; [lia|].
  reflexivity.
Qed.

Lemma NodeTree_find_after_find_or_insert_witness :
  NodeTree_find
    (mkNodeTree 1%R (kd_insert3 kd_create axis_x_exact 5) 1) axis_x_exact
  = Ok 5.
Proof.
  apply (NodeTree_find_after_find_or_insert (NodeTree_new 1%R) _
           axis_x_exact 5 5).
  - unfold INT_MAX. lia.
  - reflexivity.
Defined.

(** ** What the topology builder builds *)

Lemma forM_map {A B S : Type} (body : S -> B -> Exn S) (f : A -> B)
    (l : list A) :
  forall s : S, forM body (map f l) s = forM (fun s a => body s (f a)) l s.
Proof.
  induction l as [|a l IH]; intros s; cbn [map forM]; [reflexivity|].
  destruct (body s (f a)); [apply IH|reflexivity].
Qed.

Lemma forM_flat_map {A B S : Type} (body : S -> B -> Exn S)
    (g : A -> list B) (l : list A) :
  forall s : S,
    forM body (flat_map g l) s = forM (fun s a => forM body (g a) s) l s.
Proof.
  induction l as [|a l IH]; intros s; cbn [flat_map forM]; [reflexivity|].
  rewrite forM_app. destruct (forM body (g a) s); [apply IH|reflexivity].
Qed.

Lemma elem_of_indexed {A} (l : list A) (i : Z) (a : A) :
  (i, a) ∈ indexed l <-> exists k : nat, i = Z.of_nat k /\ l !! k = Some a.
Proof.
  unfold indexed. rewrite list_elem_of_lookup. split.
  - intros (k & Hk). apply lookup_zip_with_Some in Hk
      as (i' & a' & [= -> ->] & Hi & Ha).
    rewrite list_lookup_fmap in Hi.
    destruct (seq 0 (length l) !! k) as [k'|] eqn:Hseq; [|discriminate].
    apply lookup_seq in Hseq as [-> _]. injection Hi as <-. eauto.
  - intros (k & -> & Ha). exists k. apply lookup_zip_with_Some.
    exists (Z.of_nat k), a. split; [reflexivity|]. split; [|assumption].
    rewrite list_lookup_fmap, lookup_seq_lt by (eapply lookup_lt_Some; eauto).
    reflexivity.
Qed.

(** *** The reverse node array *)

Lemma elem_of_origin_uses (faces : list Face) (i n : Z) :
  (i, n) ∈ origin_uses faces
  <-> exists (k : nat) (face : Face) (e : Edge),
        faces !! k = Some face /\ e ∈ edges face
        /\ i = Z.of_nat k /\ node0 e = n.
Proof.
  unfold origin_uses. rewrite list_elem_of_In, in_flat_map. split.
  - intros ([i' face] & Hface & Hin).
    apply list_elem_of_In, elem_of_indexed in Hface as (k & -> & Hk).
    apply list_elem_of_In, list_elem_of_fmap in Hin as (e & [= -> ->] & He).
    eauto 10.
  - intros (k & face & e & Hk & He & -> & <-).
    exists (Z.of_nat k, face). split.
    + apply list_elem_of_In, elem_of_indexed. eauto.
    + apply list_elem_of_In, list_elem_of_fmap. eauto.
Qed.

Lemma ConstructReverseNodeArray_flat {Real} (m : Mesh Real) :
  ConstructReverseNodeArray m
  = (rev ← forM (fun rev u => revnodearray_insert rev (snd u) (fst u))
             (origin_uses (faces m))
             (replicate (length (nodes m)) ∅);
     mret (set_revnodearray m rev)).
Proof.
  unfold ConstructReverseNodeArray, origin_uses.
  rewrite forM_flat_map, map_const_replicate, length_resize.
  f_equal. apply forM_ext. intros rev [i face] _.
  by rewrite forM_map.
Qed.

Lemma revnodearray_insert_all (uses : list (Z * Z)) :
  forall rev : list (gset Z),
    (Forall (fun u => 0 <= snd u < Z.of_nat (length rev)) uses ->
     exists rev',
       forM (fun rev u => revnodearray_insert rev (snd u) (fst u)) uses rev
       = Ok rev'
       /\ length rev' = length rev
       /\ forall (n : nat) (s' : gset Z) (i : Z),
            rev' !! n = Some s' ->
            exists s, rev !! n = Some s
                      /\ (i ∈ s' <-> i ∈ s \/ (i, Z.of_nat n) ∈ uses))
    /\ (~ Forall (fun u => 0 <= snd u < Z.of_nat (length rev)) uses ->
        forM (fun rev u => revnodearray_insert rev (snd u) (fst u)) uses rev
        = Err (OutOfBounds "revnodearray")).
Proof.
  induction uses as [|[i0 n0] uses IH]; intros rev.
  - split.
    + intros _. exists rev. split; [reflexivity|]. split; [reflexivity|].
      intros n s' i Hs'. exists s'. split; [assumption|].
      split; [by left|]. intros [|Hin]; [assumption|].
      by apply elem_of_nil in Hin.
    + intros Hnot. exfalso. apply Hnot. constructor.
  - cbn [forM snd fst]. unfold revnodearray_insert at 1 3.
    destruct (Z.ltb_spec n0 0) as [Hneg|Hnonneg].
    { split; [|reflexivity].
      intros Hall. apply Forall_cons in Hall as [Hn0 _]. cbn [snd] in Hn0. lia. }
    destruct (rev !! Z.to_nat n0) as [s0|] eqn:Hs0.
    2:{ split; [|reflexivity].
        intros Hall. apply Forall_cons in Hall as [Hn0 _]. cbn [snd] in Hn0.
        apply lookup_ge_None in Hs0. lia. }
    assert (Hn0 : 0 <= n0 < Z.of_nat (length rev)).
    { apply lookup_lt_Some in Hs0. lia. }
    destruct (IH (<[Z.to_nat n0 := {[i0]} ∪ s0]> rev)) as [IHok IHerr].
    rewrite length_insert in IHok, IHerr. split.
    + intros Hall. apply Forall_cons in Hall as [_ Hall].
      destruct (IHok Hall) as (rev' & -> & Hlen & Hmem).
      exists rev'. split; [reflexivity|]. split; [assumption|].
      intros n s' i Hs'. destruct (Hmem n s' i Hs') as (s & Hs & Hiff).
      destruct (decide (n = Z.to_nat n0)) as [->|Hne].
      * rewrite list_lookup_insert_eq in Hs by lia. injection Hs as <-.
        exists s0. split; [assumption|]. rewrite Hiff.
        rewrite elem_of_cons, elem_of_union, elem_of_singleton.
        rewrite Z2Nat.id by lia. split.
        -- intros [[->|]|]; auto.
        -- intros [|[[= -> ]|]]; auto.
      * rewrite list_lookup_insert_ne in Hs by lia.
        exists s. split; [assumption|]. rewrite Hiff, elem_of_cons.
        split; [intros [|]; auto|].
        intros [|[[= -> Hn]|]]; auto. lia.
    + intros Hnot. apply IHerr. intros Hall. apply Hnot.
      constructor; assumption.
Qed.

(** X13. [ConstructReverseNodeArray] ends without error exactly when
    the origin of every edge of every face is an index of a node; it
    then gives every node the set of the faces that have an edge
    starting at it, and at an origin that is no index of a node it runs
    outside the array. *)
Theorem ConstructReverseNodeArray_incidence {Real : Type} (m : Mesh Real) :
  (Forall (fun face =>
             Forall (fun e => 0 <= node0 e < Z.of_nat (length (nodes m)))
               (edges face))
     (faces m) ->
   exists m' : Mesh Real,
     ConstructReverseNodeArray m = Ok m'
     /\ length (revnodearray m') = length (nodes m)
     /\ forall (n : nat) (s : gset Z) (i : Z),
          revnodearray m' !! n = Some s ->
          (i ∈ s <-> exists (k : nat) (face : Face) (e : Edge),
                       faces m !! k = Some face /\ e ∈ edges face
                       /\ i = Z.of_nat k /\ node0 e = Z.of_nat n))
  /\ (~ Forall (fun face =>
                  Forall (fun e => 0 <= node0 e < Z.of_nat (length (nodes m)))
                    (edges face))
          (faces m) ->
      ConstructReverseNodeArray m = Err (OutOfBounds "revnodearray")).
Proof.
  rewrite ConstructReverseNodeArray_flat.
  destruct (revnodearray_insert_all (origin_uses (faces m))
              (replicate (length (nodes m)) ∅)) as [Hok Herr].
  rewrite length_replicate in Hok, Herr.
  assert (Hiff :
    Forall (fun u => 0 <= snd u < Z.of_nat (length (nodes m)))
      (origin_uses (faces m))
    <-> Forall (fun face =>
                  Forall (fun e => 0 <= node0 e < Z.of_nat (length (nodes m)))
                    (edges face))
          (faces m)).
  { rewrite !Forall_forall. split.
    - intros Hall face Hface. apply Forall_forall. intros e He.
      apply list_elem_of_lookup in Hface as [k Hk].
      apply (Hall (Z.of_nat k, node0 e)).
      apply elem_of_origin_uses. eauto 10.
    - intros Hall [i n] Hin.
      apply elem_of_origin_uses in Hin as (k & face & e & Hk & He & -> & <-).
      cbn [snd]. apply list_elem_of_lookup_2 in Hk.
      specialize (Hall face Hk). rewrite Forall_forall in Hall. auto. }
  split.
  - intros Hall. apply Hiff in Hall.
    destruct (Hok Hall) as (rev' & -> & Hlen & Hmem).
    eexists. split; [reflexivity|].
    cbn [mret Exn_ret revnodearray set_revnodearray].
    split; [assumption|].
    intros n s i Hs. destruct (Hmem n s i Hs) as (s0 & Hs0 & ->).
    apply lookup_replicate in Hs0 as [-> _].
    rewrite elem_of_origin_uses. split.
    + intros [Hempty|]; [|assumption]. by apply elem_of_empty in Hempty.
    + auto.
  - intros Hnot. rewrite Herr; [reflexivity|]. by rewrite Hiff.
Qed.

(** *** The edge map *)

(** Filing the face [i] under the edge of a step. *)
Lemma ConstructEdgeMap_face_steps (edge_key : Edge -> Z * Z) (i : Z)
    (face : Face) (em : gmap (Z * Z) FacePair) :
  ConstructEdgeMap_face edge_key AddFace_uncapped i face em
  = Ok (fold_left
          (fun em ab =>
             if fst ab =? snd ab then em
             else <[edge_key (mkEdge (fst ab) (snd ab) Type_Default) :=
                      default [] (em !! edge_key (mkEdge (fst ab) (snd ab)
                                                    Type_Default)) ++ [i]]> em)
          (boundary_steps face) em).
Proof.
  unfold ConstructEdgeMap_face, boundary_steps.
  assert (Hsteps : forall (ks : list nat) (em : gmap (Z * Z) FacePair),
    Forall (fun k => k < length (edges face))%nat ks ->
    forM (fun em k =>
            a ← Face_at face k;
            b ← Face_at face ((k + 1) mod length (edges face))%nat;
            if a =? b then mret em
            else
              let edge := mkEdge a b Type_Default in
              let facepair : FacePair := [] in
              let fp := match em !! edge_key edge with
                        | Some fp => fp
                        | None => facepair
                        end in
              fp' ← AddFace_uncapped fp i;
              mret (<[edge_key edge := fp']> em)) ks em
    = Ok (fold_left
            (fun em ab =>
               if fst ab =? snd ab then em
               else <[edge_key (mkEdge (fst ab) (snd ab) Type_Default) :=
                        default [] (em !! edge_key (mkEdge (fst ab) (snd ab)
                                                      Type_Default)) ++ [i]]> em)
            (map (fun k => (nth k (origins face) 0,
                            nth ((k + 1) mod length (edges face))
                              (origins face) 0)) ks) em)).
  { induction ks as [|k ks IH]; intros em0 Hks; [reflexivity|].
    apply Forall_cons in Hks as [Hk Hks]. cbn [forM map fold_left fst snd].
    assert (Hk2 : ((k + 1) mod length (edges face) < length (edges face))%nat)
      by (apply Nat.mod_upper_bound; lia).
    assert (Hat : forall j, (j < length (edges face))%nat ->
                            Face_at face j = Ok (nth j (origins face) 0)).
    { intros j Hj. unfold Face_at, origins.
      destruct (lookup_lt_is_Some_2 _ _ Hj) as [e He]. rewrite He.
      f_equal. symmetry. apply nth_lookup_Some.
      by rewrite list_lookup_fmap, He. }
    rewrite (Hat k Hk), (Hat _ Hk2). cbn [mbind Exn_bind].
    destruct (nth k (origins face) 0
              =? nth ((k + 1) mod length (edges face)) (origins face) 0).
    - cbn [mret Exn_ret]. by apply IH.
    - unfold AddFace_uncapped. cbn [mbind Exn_bind mret Exn_ret].
      rewrite IH by assumption. reflexivity. }
  apply Hsteps. apply Forall_forall. intros k Hk.
  apply elem_of_seq in Hk. lia.
Qed.

Lemma fold_left_skip {A S : Type} (f : S -> A -> S) (skip : A -> bool)
    (l : list A) :
  forall s : S,
    fold_left (fun s a => if skip a then s else f s a) l s
    = fold_left f (filter (fun a => skip a = false) l) s.
Proof.
  induction l as [|a l IH]; intros s; [reflexivity|].
  cbn [fold_left]. rewrite filter_cons.
  destruct (skip a) eqn:Hskip.
  - rewrite decide_False by (by intros [=]). apply IH.
  - rewrite decide_True by reflexivity. cbn [fold_left]. apply IH.
Qed.

Lemma filter_steps (l : list (Z * Z)) :
  filter (fun ab => (fst ab =? snd ab) = false) l
  = filter (fun ab => fst ab <> snd ab) l.
Proof.
  apply list_filter_iff. intros [a b]. cbn [fst snd].
  rewrite Z.eqb_neq. reflexivity.
Qed.

(** The edge map after the uses of a list have been filed. *)
Lemma filed_lookup (edge_key : Edge -> Z * Z) (uses : list (Z * (Z * Z)))
    (key : Z * Z) :
  forall em : gmap (Z * Z) FacePair,
    fold_left
      (fun em u =>
         <[edge_key (mkEdge (fst (snd u)) (snd (snd u)) Type_Default) :=
             default [] (em !! edge_key (mkEdge (fst (snd u)) (snd (snd u))
                                           Type_Default)) ++ [fst u]]> em)
      uses em !! key
    = match map fst
              (filter (fun u => edge_key (mkEdge (fst (snd u)) (snd (snd u))
                                            Type_Default) = key) uses) with
      | [] => em !! key
      | l => Some (default [] (em !! key) ++ l)
      end.
Proof.
  induction uses as [|[i [a b]] uses IH]; intros em; [reflexivity|].
  cbn [fold_left fst snd]. rewrite IH, filter_cons. cbn [fst snd].
  destruct (decide (edge_key (mkEdge a b Type_Default) = key)) as [->|Hne].
  - rewrite lookup_insert_eq. cbn [map fst default].
    destruct (map fst _) as [|i' l]; [reflexivity|].
    f_equal. change (Datatypes.id ?l) with l.
    by rewrite <- (app_assoc _ [i]).
  - by rewrite lookup_insert_ne.
Qed.

Lemma ConstructEdgeMap_filed {Real} (edge_key : Edge -> Z * Z) (m : Mesh Real) :
  ConstructEdgeMap edge_key AddFace_uncapped m
  = Ok (set_edgemap m
          (fold_left
             (fun em u =>
                <[edge_key (mkEdge (fst (snd u)) (snd (snd u)) Type_Default) :=
                    default [] (em !! edge_key (mkEdge (fst (snd u))
                                                  (snd (snd u)) Type_Default))
                    ++ [fst u]]> em)
             (edge_uses (faces m)) ∅)).
Proof.
  rewrite ConstructEdgeMap_spec. unfold edge_uses.
  generalize (∅ : gmap (Z * Z) FacePair).
  induction (indexed (faces m)) as [|[i face] l IH]; intros em;
    [reflexivity|].
  cbn [forM flat_map]. rewrite ConstructEdgeMap_face_steps.
  rewrite fold_left_app, fold_left_skip, filter_steps.
  rewrite <- (IH _). clear IH. do 3 f_equal.
  generalize (filter (fun ab : Z * Z => fst ab <> snd ab) (boundary_steps face)).
  intros steps. revert em.
  induction steps as [|ab steps IHs]; intros em; [reflexivity|].
  cbn [fold_left map fst snd]. apply IHs.
Qed.

(** X14. With pairs that take any number of faces,
    [ConstructEdgeMap] files under the key of every edge the faces that
    have a step between two different nodes along it, in the order of
    the faces and once for each such step, and it files nothing else;
    the steps of a face lead from the origin of an edge to the origin of
    the edge after it. *)
Theorem ConstructEdgeMap_faces_along {Real : Type} (edge_key : Edge -> Z * Z)
    (m : Mesh Real) :
  exists m' : Mesh Real,
    ConstructEdgeMap edge_key AddFace_uncapped m = Ok m'
    /\ (forall key : Z * Z,
          edgemap m' !! key
          = match faces_along edge_key (faces m) key with
            | [] => None
            | l => Some l
            end)
    /\ nodes m' = nodes m /\ faces m' = faces m.
Proof.
  rewrite ConstructEdgeMap_filed. eexists. split; [reflexivity|].
  split; [|split; reflexivity].
  intros key. cbn [edgemap set_edgemap]. rewrite filed_lookup.
  unfold faces_along. rewrite lookup_empty. reflexivity.
Qed.

(** The uses of edges are the steps between two different nodes. *)
Lemma elem_of_edge_uses (faces : list Face) (i a b : Z) :
  (i, (a, b)) ∈ edge_uses faces
  <-> exists (k j : nat) (face : Face),
        faces !! k = Some face /\ i = Z.of_nat k
        /\ (j < length (edges face))%nat
        /\ a = nth j (origins face) 0
        /\ b = nth ((j + 1) mod length (edges face)) (origins face) 0
        /\ a <> b.
Proof.
  unfold edge_uses. rewrite list_elem_of_In, in_flat_map. split.
  - intros ([i' face] & Hface & Hin).
    apply list_elem_of_In, elem_of_indexed in Hface as (k & -> & Hk).
    apply list_elem_of_In, list_elem_of_fmap in Hin as ([a' b'] & Heq & Hab).
    injection Heq as -> -> ->.
    apply list_elem_of_filter in Hab as [Hne Hab].
    unfold boundary_steps in Hab.
    apply list_elem_of_fmap in Hab as (j & [= -> ->] & Hj).
    apply elem_of_seq in Hj. cbn [fst snd] in Hne.
    exists k, j, face. repeat split; auto. lia.
  - intros (k & j & face & Hk & -> & Hj & -> & -> & Hne).
    exists (Z.of_nat k, face). split.
    + apply list_elem_of_In, elem_of_indexed. eauto.
    + apply list_elem_of_In, list_elem_of_fmap. eexists (_, _).
      split; [reflexivity|]. apply list_elem_of_filter. split; [exact Hne|].
      unfold boundary_steps. apply list_elem_of_fmap. exists j.
      split; [reflexivity|]. apply elem_of_seq. lia.
Qed.

Example faces_along_two_triangles :
  faces_along edge_key_undirected (faces two_triangles) (1, 2) = [ 0; 1 ]
  /\ faces_along edge_key_directed (faces two_triangles) (1, 2) = [ 0 ]
  /\ faces_along edge_key_directed (faces two_triangles) (2, 1) = [ 1 ]
  /\ faces_along edge_key_directed (faces two_triangles) (0, 3) = [].
Proof. vm_compute. repeat split. Qed.

(** ** What Mesh::Validate accepts *)

Lemma forM_unit_Ok_iff {A : Type} (check : A -> Exn unit) (l : list A) :
  forM (fun _ a => check a) l tt = Ok tt <-> Forall (fun a => check a = Ok tt) l.
Proof.
  induction l as [|a l IH]; cbn [forM].
  - split; [constructor|reflexivity].
  - destruct (check a) as [[]|e] eqn:Ha.
    + rewrite IH. split; [by constructor|].
      intros Hall. by apply Forall_cons in Hall as [_ Hall].
    + split; [discriminate|].
      intros Hall. apply Forall_cons in Hall as [Hc _]. congruence.
Qed.

Section ValidateFacts.
Context {Real : Type} `{RealArith Real}.

(** The search for the next non-zero edge ends at an edge whenever there
    is a non-zero edge. *)
Lemma next_nonzero_edge_found (candidates : list (nat * Edge)) (k : nat)
    (e : Edge) :
  (k, e) ∈ candidates -> node0 e <> node1 e ->
  exists jNext, next_nonzero_edge candidates = Ok jNext.
Proof.
  induction candidates as [|[k' e'] candidates IH]; intros Hin Hnz.
  - by apply elem_of_nil in Hin.
  - cbn [next_nonzero_edge].
    destruct (Z.eqb_spec (node0 e') (node1 e')) as [Hz|]; [|eauto].
    apply elem_of_cons in Hin as [[= -> ->]|Hin]; [contradiction|auto].
Qed.

Lemma elem_of_edges_round_from (face : Face) (jStart j : nat) (e : Edge) :
  edges face !! j = Some e -> (j, e) ∈ edges_round_from face jStart.
Proof.
  intros He. unfold edges_round_from.
  assert (Hin : (j, e) ∈ zip (seq 0 (length (edges face))) (edges face)).
  { apply list_elem_of_lookup. exists j.
    rewrite lookup_zip_with, He.
    rewrite lookup_seq_lt by (eapply lookup_lt_Some; eauto). reflexivity. }
  rewrite <- (take_drop jStart) in Hin.
  apply elem_of_app in Hin as [Hin|Hin]; apply elem_of_app; auto.
Qed.

(** The checks at a non-zero edge. *)
Lemma Validate_edge_Ok_iff (nodes : NodeVector Real) (face : Face) (j : nat)
    (edge0 : Edge) :
  edges face !! j = Some edge0 -> node0 edge0 <> node1 edge0 ->
  Validate_edge nodes face j = Ok tt <-> corner_passes nodes face j.
Proof.
  intros Hj Hnz. unfold Validate_edge, corner_passes.
  destruct (next_nonzero_edge_found
              (edges_round_from face ((j + 1) mod length (edges face)))
              j edge0) as [jNext ->];
    [by apply elem_of_edges_round_from|assumption|].
  cbn [mbind Exn_bind]. unfold vec_get. rewrite Hj. cbn [mbind Exn_bind].
  assert (Hlt : ((j + 1) mod length (edges face) < length (edges face))%nat).
  { apply Nat.mod_upper_bound. apply lookup_lt_Some in Hj. lia. }
  destruct (lookup_lt_is_Some_2 _ _ Hlt) as [edge1 Hedge1].
  rewrite Hedge1. cbn [mbind Exn_bind].
  destruct (Z.eqb_spec (node1 edge0) (node0 edge1)) as [Hcyc|Hcyc]; cbn [negb].
  2:{ split; [discriminate|].
      intros (e0 & e1 & n0 & n1 & n2 & [= <-] & [= <-] & Hc & _).
      contradiction. }
  destruct (node_at nodes (node0 edge0)) as [n0|] eqn:Hn0;
    cbn [mbind Exn_bind].
  2:{ split; [discriminate|].
      intros (e0 & e1 & m0 & m1 & m2 & [= <-] & [= <-] & _ & Hm0 & _).
      rewrite Hn0 in Hm0. discriminate. }
  destruct (node_at nodes (node1 edge0)) as [n1|] eqn:Hn1;
    cbn [mbind Exn_bind].
  2:{ split; [discriminate|].
      intros (e0 & e1 & m0 & m1 & m2 & [= <-] & [= <-] & _ & _ & Hm1 & _).
      rewrite Hn1 in Hm1. discriminate. }
  destruct (node_at nodes (node1 edge1)) as [n2|] eqn:Hn2;
    cbn [mbind Exn_bind].
  2:{ split; [discriminate|].
      intros (e0 & e1 & m0 & m1 & m2 & [= <-] & [= <-] & _ & _ & _ & Hm2 & _).
      rewrite Hn2 in Hm2. discriminate. }
  cbv zeta.
  destruct (DotProduct n1 (CrossProduct (Node_sub n0 n1) (Node_sub n2 n1))
            >? r_zero)%real eqn:Hdot.
  - split; [discriminate|].
    intros (e0 & e1 & m0 & m1 & m2 & [= <-] & [= <-] & _ & Hm0 & Hm1 & Hm2
            & Hd).
    rewrite Hn0 in Hm0. rewrite Hn1 in Hm1. rewrite Hn2 in Hm2.
    injection Hm0 as <-. injection Hm1 as <-. injection Hm2 as <-.
    rewrite Hdot in Hd. discriminate.
  - split; [|reflexivity]. intros _.
    exists edge0, edge1, n0, n1, n2. auto 10.
Qed.

(** The loop over the edges of a face, from position [j] on. *)
Lemma Validate_edges_Ok_iff (nodes : NodeVector Real) (face : Face)
    (rest : list Edge) :
  forall j : nat,
    rest = drop j (edges face) ->
    Validate_edges nodes face rest j = Ok tt
    <-> forall (k : nat) (e : Edge),
          (j <= k)%nat -> edges face !! k = Some e -> node0 e <> node1 e ->
          corner_passes nodes face k.
Proof.
  induction rest as [|e0 rest IH]; intros j Hrest.
  - split; [|reflexivity]. intros _ k e Hk He.
    apply lookup_lt_Some in He.
    assert (Hlen : length (drop j (edges face)) = 0%nat) by (by rewrite <- Hrest).
    rewrite length_drop in Hlen. lia.
  - assert (Hj : edges face !! j = Some e0).
    { rewrite <- (Nat.add_0_r j), <- lookup_drop, <- Hrest. reflexivity. }
    assert (Hrest' : rest = drop (S j) (edges face)).
    { rewrite (drop_S _ _ _ Hj) in Hrest. by injection Hrest. }
    cbn [Validate_edges]. specialize (IH (S j) Hrest').
    destruct (Z.eqb_spec (node0 e0) (node1 e0)) as [Hz|Hnz].
    + rewrite IH. split.
      * intros Hall k e Hk He Hne.
        destruct (decide (k = j)) as [->|]; [congruence|].
        apply (Hall k e); [lia|assumption..].
      * intros Hall k e Hk. apply Hall. lia.
    + destruct (Validate_edge nodes face j) as [[]|err] eqn:Hedge;
        cbn [mbind Exn_bind].
      * apply (Validate_edge_Ok_iff nodes face j e0 Hj Hnz) in Hedge.
        rewrite IH. split.
        -- intros Hall k e Hk He Hne.
           destruct (decide (k = j)) as [->|]; [assumption|].
           apply (Hall k e); [lia|assumption..].
        -- intros Hall k e Hk. apply Hall. lia.
      * split; [discriminate|]. intros Hall. exfalso.
        assert (Hok : Validate_edge nodes face j = Ok tt).
        { apply (Validate_edge_Ok_iff nodes face j e0 Hj Hnz).
          by apply (Hall j e0). }
        congruence.
Qed.

(** X15. On a mesh whose faces name nodes of the mesh only,
    [Mesh::Validate] returns normally exactly when every node has
    magnitude 1 up to the tolerance and every edge of every face, zero
    edges apart, passes the checks of its corner against the edge that
    follows it in the face: the edge ends where that edge begins, and
    the corner does not turn clockwise. *)
Theorem Validate_Ok_iff (m : Mesh Real) :
  faces_in_range (length (nodes m)) (faces m) ->
  Validate m = Ok tt
  <-> Forall unit_magnitude (nodes m)
      /\ Forall (fun face =>
                   forall (j : nat) (e : Edge),
                     edges face !! j = Some e -> node0 e <> node1 e ->
                     corner_passes (nodes m) face j)
           (faces m).
Proof.
  intros _. unfold Validate.
  pose proof (forM_unit_Ok_iff
                (fun node : Node Real =>
                   if (r_fabs (Magnitude node - r_one) >? ReferenceTolerance)%real
                   then Err (Exception
                               "Mesh validation failed: Node of non-unit magnitude detected")
                   else Ok tt) (nodes m)) as Hnodes.
  cbv zeta.
  destruct (forM _ (nodes m) tt) as [[]|err] eqn:Hloop; cbn [mbind Exn_bind].
  - rewrite forM_unit_Ok_iff.
    assert (Hunit : Forall unit_magnitude (nodes m)).
    { eapply Forall_impl; [apply Hnodes; reflexivity|].
      intros node Hnode. unfold unit_magnitude. cbn beta in Hnode.
      by destruct (_ >? _)%real. }
    split.
    + intros Hfaces. split; [assumption|].
      eapply Forall_impl; [exact Hfaces|]. intros face Hface j e Hj Hnz.
      cbn beta in Hface.
      apply (proj1 (Validate_edges_Ok_iff (nodes m) face (edges face) 0%nat
                      eq_refl) Hface j e); [lia|assumption..].
    + intros [_ Hfaces]. eapply Forall_impl; [exact Hfaces|].
      intros face Hface. cbn beta in *.
      apply (Validate_edges_Ok_iff (nodes m) face (edges face) 0%nat);
        [reflexivity|].
      intros k e _. apply Hface.
  - split; [discriminate|]. intros [Hunit _].
    assert (Hok : @Err unit err = Ok tt); [|discriminate].
    apply Hnodes. eapply Forall_impl; [exact Hunit|].
    intros node Hnode. unfold unit_magnitude in Hnode. by rewrite Hnode.
Qed.

Lemma Validate_edge_errors (nodes : NodeVector Real) (face : Face) (j : nat)
    (edge0 : Edge) (e : Error) :
  edges face !! j = Some edge0 -> node0 edge0 <> node1 edge0 ->
  Validate_edge nodes face j = Err e ->
  e = Exception "Mesh validation failed: Edge cyclicity error"
  \/ e = Exception "Mesh validation failed: Clockwise or concave face detected"
  \/ e = OutOfBounds "NodeVector".
Proof.
  intros Hj Hnz. unfold Validate_edge.
  destruct (next_nonzero_edge_found
              (edges_round_from face ((j + 1) mod length (edges face)))
              j edge0) as [jNext ->];
    [by apply elem_of_edges_round_from|assumption|].
  cbn [mbind Exn_bind]. unfold vec_get. rewrite Hj. cbn [mbind Exn_bind].
  assert (Hlt : ((j + 1) mod length (edges face) < length (edges face))%nat).
  { apply Nat.mod_upper_bound. apply lookup_lt_Some in Hj. lia. }
  destruct (lookup_lt_is_Some_2 _ _ Hlt) as [edge1 ->].
  cbn [mbind Exn_bind].
  destruct (negb (node1 edge0 =? node0 edge1)); [intros [= <-]; auto|].
  assert (Hat : forall ix err, node_at nodes ix = Err err ->
                               err = OutOfBounds "NodeVector").
  { intros ix err. unfold node_at. destruct (ix <? 0); [by intros [= <-]|].
    destruct (nodes !! Z.to_nat ix); [discriminate|by intros [= <-]]. }
  destruct (node_at nodes (node0 edge0)) as [n0|err] eqn:Hn0;
    cbn [mbind Exn_bind]; [|intros [= <-]; eauto].
  destruct (node_at nodes (node1 edge0)) as [n1|err] eqn:Hn1;
    cbn [mbind Exn_bind]; [|intros [= <-]; eauto].
  destruct (node_at nodes (node1 edge1)) as [n2|err] eqn:Hn2;
    cbn [mbind Exn_bind]; [|intros [= <-]; eauto].
  cbv zeta. destruct (_ >? _)%real; [intros [= <-]; auto|discriminate].
Qed.

Lemma Validate_edges_errors (nodes : NodeVector Real) (face : Face)
    (rest : list Edge) (e : Error) :
  forall j : nat,
    rest = drop j (edges face) ->
    Validate_edges nodes face rest j = Err e ->
    e = Exception "Mesh validation failed: Edge cyclicity error"
    \/ e = Exception "Mesh validation failed: Clockwise or concave face detected"
    \/ e = OutOfBounds "NodeVector".
Proof.
  induction rest as [|e0 rest IH]; intros j Hrest; [discriminate|].
  assert (Hj : edges face !! j = Some e0).
  { rewrite <- (Nat.add_0_r j), <- lookup_drop, <- Hrest. reflexivity. }
  assert (Hrest' : rest = drop (S j) (edges face)).
  { rewrite (drop_S _ _ _ Hj) in Hrest. by injection Hrest. }
  cbn [Validate_edges].
  destruct (Z.eqb_spec (node0 e0) (node1 e0)) as [Hz|Hnz]; [by apply IH|].
  destruct (Validate_edge nodes face j) as [[]|err] eqn:Hedge;
    cbn [mbind Exn_bind]; [by apply IH|].
  intros [= <-]. by apply (Validate_edge_errors nodes face j e0).
Qed.

(** X16. The errors that [Mesh::Validate] ends with are the three
    exceptions for a node of non-unit magnitude, for an edge that does
    not end where the next begins and for a clockwise corner, and the
    access to a node that the mesh does not have; the exception "No edge
    information on Face" is never thrown, since the search for the next
    non-zero edge starts behind a non-zero edge and comes upon it. *)
Theorem Validate_errors (m : Mesh Real) (e : Error) :
  Validate m = Err e ->
  e = Exception "Mesh validation failed: Node of non-unit magnitude detected"
  \/ e = Exception "Mesh validation failed: Edge cyclicity error"
  \/ e = Exception "Mesh validation failed: Clockwise or concave face detected"
  \/ e = OutOfBounds "NodeVector".
Proof.
  unfold Validate. cbv zeta.
  destruct (forM _ (nodes m) tt) as [[]|err] eqn:Hloop; cbn [mbind Exn_bind].
  - intros Hfaces. right.
    apply forM_Err_inv in Hfaces as ([] & face & _ & Hface).
    by apply (Validate_edges_errors (nodes m) face (edges face) e 0%nat).
  - intros [= <-]. left.
    apply forM_Err_inv in Hloop as ([] & node & _ & Hnode).
    destruct (_ >? _)%real; [by injection Hnode|discriminate].
Qed.

End ValidateFacts.

Lemma Validate_Ok_iff_witness :
  Validate octant_mesh = Ok tt
  <-> Forall unit_magnitude (nodes octant_mesh)
      /\ Forall (fun face =>
                   forall (j : nat) (e : Edge),
                     edges face !! j = Some e -> node0 e <> node1 e ->
                     corner_passes (nodes octant_mesh) face j)
           (faces octant_mesh).
Proof.
  apply (Validate_Ok_iff octant_mesh).
  repeat constructor; vm_compute; congruence.
Defined.

Lemma Validate_errors_witness :
  Exception "Mesh validation failed: Clockwise or concave face detected"
  = Exception "Mesh validation failed: Node of non-unit magnitude detected"
  \/ Exception "Mesh validation failed: Clockwise or concave face detected"
     = Exception "Mesh validation failed: Edge cyclicity error"
  \/ Exception "Mesh validation failed: Clockwise or concave face detected"
     = Exception "Mesh validation failed: Clockwise or concave face detected"
  \/ Exception "Mesh validation failed: Clockwise or concave face detected"
     = OutOfBounds "NodeVector".
Proof.
  apply (Validate_errors octant_mesh_clockwise).
  vm_compute. reflexivity.
Defined.


(** ** More on Mesh::RemoveCoincidentNodes *)

Lemma forM_seq_invariant_Ok {S : Type} (I : nat -> S -> Prop)
    (body : S -> nat -> Exn S) (c : nat) :
  forall (a : nat) (s s' : S),
    (forall k s s', (a <= k < a + c)%nat -> I k s -> body s k = Ok s' ->
                    I (Datatypes.S k) s') ->
    I a s ->
    forM body (seq a c) s = Ok s' -> I (a + c)%nat s'.
Proof.
  induction c as [|c IH]; intros a s s' Hbody Hs; cbn [seq forM].
  - intros [= <-]. by rewrite Nat.add_0_r.
  - destruct (body s a) as [s1|] eqn:Hs1; [|discriminate].
    intros Hrest.
    replace (a + Datatypes.S c)%nat with (Datatypes.S a + c)%nat by lia.
    apply (IH (Datatypes.S a) s1 s'); [|by apply (Hbody a s s1); [lia|..]|assumption].
    intros k s0 s0' Hk. apply Hbody. lia.
Qed.

Lemma mapM_Ok_Forall2 {A B : Type} (f : A -> Exn B) (l : list A) :
  forall bs, mapM f l = Ok bs -> Forall2 (fun a b => f a = Ok b) l bs.
Proof.
  induction l as [|a l IH]; intros bs; cbn [mapM].
  - intros [= <-]. constructor.
  - destruct (f a) as [b|] eqn:Hb; [|discriminate].
    destruct (mapM f l) as [bs'|]; [|discriminate].
    intros [= <-]. constructor; auto.
Qed.

Section DedupShape.
Context {Real : Type} `{RealArith Real}.

Lemma RemoveCoincidentNodes_body_uniques (nodes : NodeVector Real)
    (st st' : DedupState) (k : nat) :
  RemoveCoincidentNodes_body nodes st k = Ok st' ->
  (length (vecUniques st) <= length (vecUniques st')
   <= Datatypes.S (length (vecUniques st)))%nat.
Proof.
  unfold RemoveCoincidentNodes_body.
  destruct (vec_get "nodes" nodes k) as [node|]; [|discriminate].
  cbn [mbind Exn_bind].
  destruct (kd_nearest3 (kdt st) node) as [[nodeNearest ix]|]; [|discriminate].
  cbv zeta. destruct (_ <? _)%real; intros [= <-]; cbn [vecUniques].
  - lia.
  - rewrite length_app. cbn [length]. lia.
Qed.

(** X17. [RemoveCoincidentNodes] never adds a node: when it ends
    without error it has left the mesh as it was, or the mesh has fewer
    nodes than before; the number of faces, the number of edges of every
    face and the type of every edge are as before. *)
Theorem RemoveCoincidentNodes_shape (m m' : Mesh Real) :
  RemoveCoincidentNodes m = Ok m' ->
  (m' = m \/ (length (nodes m') < length (nodes m))%nat)
  /\ Forall2 (fun face face' => map type (edges face') = map type (edges face))
       (faces m) (faces m').
Proof.
  unfold RemoveCoincidentNodes.
  destruct (vec_get "nodes[0]" (nodes m) 0) as [n0|] eqn:Hn0; [|discriminate].
  cbn [mbind Exn_bind].
  destruct (forM _ _ _) as [st|] eqn:Hloop; [|discriminate].
  cbn [mbind Exn_bind].
  assert (Hbound : (length (vecUniques st) <= length (nodes m))%nat).
  { assert (Hpos : (1 <= length (nodes m))%nat).
    { unfold vec_get in Hn0. destruct (nodes m); [discriminate|cbn; lia]. }
    pose proof (forM_seq_invariant_Ok
                  (fun k st => (length (vecUniques st) <= k)%nat)
                  (RemoveCoincidentNodes_body (nodes m))
                  (length (nodes m) - 1) 1
                  (mkDedupState (kd_insert3 kd_create n0 0) [0] [0]) st)
      as Hinv.
    cbv beta in Hinv.
    replace (1 + (length (nodes m) - 1))%nat with (length (nodes m)) in Hinv
      by lia.
    eapply Hinv; [|cbn [vecUniques length]; lia|exact Hloop].
    intros k s s' _ Hs Hbody.
    apply RemoveCoincidentNodes_body_uniques in Hbody. lia. }
  destruct (Nat.eqb_spec (length (vecUniques st)) (length (nodes m)))
    as [Heq|Hne].
  - intros [= <-]. split; [by left|].
    apply Forall2_same_length_lookup. split; [reflexivity|].
    intros i face face' Hi Hi'. congruence.
  - destruct (mapM _ (vecUniques st)) as [nodes'|] eqn:Hnodes; [|discriminate].
    cbn [mbind Exn_bind].
    destruct (mapM _ (faces m)) as [faces'|] eqn:Hfaces; [|discriminate].
    cbn [mbind Exn_bind]. intros [= <-].
    cbn [nodes faces set_nodes set_faces]. split.
    + right. apply mapM_length in Hnodes. lia.
    + apply mapM_Ok_Forall2 in Hfaces.
      eapply Forall2_impl; [exact Hfaces|].
      intros face face' Hface. cbn beta in Hface.
      destruct (mapM _ (edges face)) as [edges'|] eqn:Hedges; [|discriminate].
      cbn [mbind Exn_bind mret Exn_ret] in Hface. injection Hface as <-.
      cbn [edges]. apply mapM_Ok_Forall2 in Hedges.
      clear -Hedges. induction Hedges as [|edge edge' es es' Hedge _ IH];
        [reflexivity|].
      cbn [map]. rewrite IH. f_equal.
      destruct (int_at _ _ (node0 edge)); [|discriminate].
      destruct (int_at _ _ (node1 edge)); [|discriminate].
      cbn [mbind Exn_bind mret Exn_ret] in Hedge. by injection Hedge as <-.
Qed.

End DedupShape.

Lemma RemoveCoincidentNodes_shape_witness :
  (set_faces
     (set_nodes empty_mesh
        [ mkNode 1%float 0%float 0%float; mkNode 0%float 1%float 0%float ])
     [ mkFace [ mkEdge 0 1 Type_Default; mkEdge 1 0 Type_Default;
                mkEdge 0 0 Type_Default ] ]
   = repeated_corner_mesh
   \/ (length
         (nodes
            (set_faces
               (set_nodes empty_mesh
                  [ mkNode 1%float 0%float 0%float;
                    mkNode 0%float 1%float 0%float ])
               [ mkFace [ mkEdge 0 1 Type_Default; mkEdge 1 0 Type_Default;
                          mkEdge 0 0 Type_Default ] ]))
       < length (nodes repeated_corner_mesh))%nat)
  /\ Forall2 (fun face face' => map type (edges face') = map type (edges face))
       (faces repeated_corner_mesh)
       (faces
          (set_faces
             (set_nodes empty_mesh
                [ mkNode 1%float 0%float 0%float;
                  mkNode 0%float 1%float 0%float ])
             [ mkFace [ mkEdge 0 1 Type_Default; mkEdge 1 0 Type_Default;
                        mkEdge 0 0 Type_Default ] ])).
Proof.
  apply (RemoveCoincidentNodes_shape repeated_corner_mesh).
  vm_compute. reflexivity.
Defined.

(** The pass over a node list whose nodes are apart: every node is kept. *)
Lemma dedup_step_apart (nodes : NodeVector R) (k : nat) (st : DedupState) :
  (forall i j a b, i <> j -> nodes !! i = Some a -> nodes !! j = Some b ->
     (ReferenceTolerance <= Magnitude (Node_sub a b))%R) ->
  (1 <= k < length nodes)%nat ->
  Z.of_nat (length nodes) < 2 ^ 31 ->
  dedup_invariant nodes k st /\ length (vecUniques st) = k ->
  exists st', RemoveCoincidentNodes_body nodes st k = Ok st'
              /\ dedup_invariant nodes (S k) st'
              /\ length (vecUniques st') = S k.
Proof.
  intros Hapart Hk Hsmall [Hinv Hlen].
  destruct (dedup_step nodes k st Hk Hsmall Hinv) as (st' & Hbody & Hinv').
  exists st'. split; [assumption|]. split; [assumption|].
  unfold RemoveCoincidentNodes_body in Hbody.
  destruct (lookup_lt_is_Some_2 nodes k) as [node Hnode]; [lia|].
  unfold vec_get in Hbody. rewrite Hnode in Hbody. cbn [mbind Exn_bind] in Hbody.
  destruct (kd_nearest3_nearest (kdt st) node) as (best & Hbest & Hin & _).
  { intros Hnil. pose proof (inv_tree_length _ _ _ Hinv) as Htree.
    rewrite Hnil in Htree. cbn in Htree. lia. }
  rewrite Hbest in Hbody.
  destruct (dedup_invariant_entry nodes k st best Hinv Hin)
    as (jb & Hjb & _ & Hjlt).
  destruct (lookup_lt_is_Some_2 _ _ Hjlt) as [u Hu].
  destruct (inv_tree _ _ _ Hinv jb u Hu) as (Hurange & p & Hp & Hkd).
  rewrite Hkd in Hjb. injection Hjb as <-. cbv zeta in Hbody.
  cbn [r_ltb real_exact] in Hbody.
  destruct (R_ltb (Magnitude (Node_sub node p)) ReferenceTolerance) eqn:Hclose.
  - exfalso. apply R_ltb_true_iff in Hclose.
    pose proof (Hapart k (Z.to_nat u) node p ltac:(lia) Hnode Hp). lra.
  - injection Hbody as <-. cbn [vecUniques]. rewrite length_app, Hlen.
    cbn [length]. lia.
Qed.

(** X18. In exact arithmetic [RemoveCoincidentNodes] leaves a mesh as
    it is whose nodes lie, any two of them, at least the reference
    tolerance apart, as the nodes do that a pass has left. *)
Theorem RemoveCoincidentNodes_apart_unchanged (m : Mesh R) :
  nodes m <> [] ->
  Z.of_nat (length (nodes m)) < 2 ^ 31 ->
  (forall i j a b, i <> j ->
     nodes m !! i = Some a -> nodes m !! j = Some b ->
     (ReferenceTolerance <= Magnitude (Node_sub a b))%R) ->
  RemoveCoincidentNodes m = Ok m.
Proof.
  intros Hne Hsmall Hapart. unfold RemoveCoincidentNodes.
  destruct (nodes m) as [|n0 rest] eqn:Hnodes; [congruence|].
  change (vec_get "nodes[0]" (n0 :: rest) 0%nat) with (Ok n0).
  cbn [mbind Exn_bind].
  destruct (forM_seq_invariant
              (fun k st => dedup_invariant (n0 :: rest) k st
                           /\ length (vecUniques st) = k)
              (RemoveCoincidentNodes_body (n0 :: rest))
              (length (n0 :: rest) - 1) 1
              (mkDedupState (kd_insert3 kd_create n0 0) [0] [0]))
    as (st & -> & _ & Hlen).
  { intros k s Hk Hs.
    destruct (dedup_step_apart (n0 :: rest) k s Hapart) as (s' & ? & ? & ?);
      [cbn [length] in *; lia|assumption..|eauto]. }
  { split; [apply dedup_initial|reflexivity]. }
  cbn [mbind Exn_bind]. rewrite Hlen.
  replace (1 + (length (n0 :: rest) - 1))%nat with (length (n0 :: rest))
    by (cbn [length]; lia).
  by rewrite Nat.eqb_refl.
Qed.

Lemma RemoveCoincidentNodes_apart_unchanged_witness :
  RemoveCoincidentNodes two_axes_mesh_exact = Ok two_axes_mesh_exact.
Proof.
  apply (RemoveCoincidentNodes_apart_unchanged two_axes_mesh_exact).
  - discriminate.
  - vm_compute. reflexivity.
  - assert (Hfar : (ReferenceTolerance <= sqrt 2)%R).
    { rewrite ReferenceTolerance_exact.
      pose proof (sqrt_le_1_alt 1 2 ltac:(lra)) as Hle.
      rewrite sqrt_1 in Hle. lra. }
    intros [|[|i]] [|[|j]] a b Hij; try discriminate; try congruence;
      intros [= <-] [= <-]; rewrite Magnitude_dist_sq;
      (replace (dist_sq _ _) with 2%R; [exact Hfar|]);
      unfold dist_sq, axis_x_exact, axis_y_exact; cbn; lra.
Defined.

(** ** The quadrature of a face *)

Lemma fold_left_nonneg {A} (f : R -> A -> R) (l : list A) :
  (forall acc a, (0 <= acc)%R -> (0 <= f acc a)%R) ->
  forall init : R, (0 <= init)%R -> (0 <= fold_left f l init)%R.
Proof.
  intros Hf. induction l as [|a l IH]; intros init Hinit; [assumption|].
  cbn [fold_left]. apply IH. by apply Hf.
Qed.

Lemma nth_nonneg (dW : list R) (p : nat) :
  Forall (fun w => (0 <= w)%R) dW -> (0 <= nth p dW r_zero)%R.
Proof.
  intros Hall. destruct (nth_in_or_default p dW r_zero) as [Hin| ->].
  - rewrite Forall_forall in Hall. apply Hall. by apply list_elem_of_In.
  - rewrite real_exact_zero. lra.
Qed.

Lemma quadrature_term_nonneg (dG dW : list R) (node1 node2 node3 : Node R)
    (p q : nat) :
  Forall (fun w => (0 <= w)%R) dW ->
  (0 <= quadrature_term dG dW node1 node2 node3 p q)%R.
Proof.
  intros Hall. unfold quadrature_term. cbv zeta.
  cbn [r_mul r_sqrt real_exact].
  apply Rmult_le_pos; [apply Rmult_le_pos; by apply nth_nonneg|].
  apply sqrt_pos.
Qed.

(** X19. In exact arithmetic, with weights that are not negative, the
    area that the quadrature gives a face is not negative. *)
Theorem CalculateFaceArea_nonnegative (dG dW : list R) (face : Face)
    (nodes : NodeVector R) (area : R) :
  Forall (fun w => (0 <= w)%R) dW ->
  CalculateFaceArea dG dW face nodes = Ok area ->
  (0 <= area)%R.
Proof.
  intros Hall. unfold CalculateFaceArea, CalculateFaceAreaQuadratureMethod.
  apply (forM_invariant (fun dFaceArea : R => (0 <= dFaceArea)%R));
    [|rewrite real_exact_zero; lra].
  intros dFaceArea j dFaceArea' _ Hnonneg Hbody. cbn beta in Hbody.
  destruct (Face_at face 0) as [ix1|]; [|discriminate].
  cbn [mbind Exn_bind] in Hbody.
  destruct (node_at nodes ix1) as [node1|]; [|discriminate].
  cbn [mbind Exn_bind] in Hbody.
  destruct (Face_at face (j + 1)) as [ix2|]; [|discriminate].
  cbn [mbind Exn_bind] in Hbody.
  destruct (node_at nodes ix2) as [node2|]; [|discriminate].
  cbn [mbind Exn_bind] in Hbody.
  destruct (Face_at face (j + 2)) as [ix3|]; [|discriminate].
  cbn [mbind Exn_bind] in Hbody.
  destruct (node_at nodes ix3) as [node3|]; [|discriminate].
  cbn [mbind Exn_bind mret Exn_ret] in Hbody. injection Hbody as <-.
  apply fold_left_nonneg; [|assumption].
  intros acc p Hacc. apply fold_left_nonneg; [|assumption].
  intros acc' q Hacc'. apply Rplus_le_le_0_compat; [assumption|].
  exact (quadrature_term_nonneg dG dW node1 node2 node3 p q Hall).
Qed.

Lemma CalculateFaceArea_nonnegative_witness :
  exists area : R,
    CalculateFaceArea two_point_dG_exact two_point_dW_exact octant_face
      octant_nodes_exact = Ok area
    /\ (0 <= area)%R.
Proof.
  eexists. split; [reflexivity|].
  apply (CalculateFaceArea_nonnegative two_point_dG_exact two_point_dW_exact
           octant_face octant_nodes_exact).
  - repeat (constructor; [lra|]). constructor.
  - reflexivity.
Defined.

(** ** Faces under construction *)

Lemma prev_position (n j k : nat) :
  (j < n)%nat -> (k < n)%nat ->
  ((j + n - 1) mod n = k <-> (k + 1) mod n = j)%nat.
Proof.
  intros Hj Hk. destruct j as [|j].
  - replace (0 + n - 1)%nat with (n - 1)%nat by lia.
    rewrite (Nat.mod_small (n - 1)) by lia.
    destruct (decide (k = n - 1)%nat) as [->|Hne].
    + replace (n - 1 + 1)%nat with n by lia. rewrite Nat.Div0.mod_same. lia.
    + rewrite Nat.mod_small by lia. lia.
  - replace (S j + n - 1)%nat with (j + 1 * n)%nat by lia.
    rewrite Nat.Div0.mod_add, (Nat.mod_small j) by lia.
    destruct (decide (k = n - 1)%nat) as [->|Hne].
    + replace (n - 1 + 1)%nat with n by lia. rewrite Nat.Div0.mod_same. lia.
    + rewrite Nat.mod_small by lia. lia.
Qed.

Lemma Face_new_partial (f t : nat -> Z) (n : nat) :
  Face_new n = partial_polygon f t n 0 0.
Proof.
  unfold Face_new, partial_polygon. f_equal.
  replace n with (length (seq 0 n)) at 1 by apply length_seq.
  rewrite <- map_const_replicate.
  apply map_ext. intros k.
  destruct ((k + 1) mod n <? 0)%nat eqn:Hlt; [|reflexivity].
  apply Nat.ltb_lt in Hlt. lia.
Qed.

Lemma partial_polygon_closed (f t : nat -> Z) (n : nat) :
  partial_polygon f t n n n = closed_polygon f t n.
Proof.
  unfold partial_polygon, closed_polygon. f_equal.
  apply map_ext_in. intros k Hk. apply in_seq in Hk.
  assert (Hmod : ((k + 1) mod n < n)%nat) by (apply Nat.mod_upper_bound; lia).
  destruct (Nat.ltb_spec k n); [|lia].
  destruct (Nat.ltb_spec ((k + 1) mod n) n); [|lia].
  reflexivity.
Qed.

Lemma partial_polygon_closed_default (f : nat -> Z) (n jt : nat) :
  partial_polygon f (fun _ => Type_Default) n n jt
  = closed_polygon f (fun _ => Type_Default) n.
Proof.
  unfold partial_polygon, closed_polygon. f_equal.
  apply map_ext_in. intros k Hk. apply in_seq in Hk.
  assert (Hmod : ((k + 1) mod n < n)%nat) by (apply Nat.mod_upper_bound; lia).
  destruct (Nat.ltb_spec k n); [|lia].
  destruct (Nat.ltb_spec ((k + 1) mod n) n); [|lia].
  by destruct (k <? jt)%nat.
Qed.

Lemma partial_polygon_length (f t : nat -> Z) (n jn jt : nat) :
  length (edges (partial_polygon f t n jn jt)) = n.
Proof. cbn [edges partial_polygon]. by rewrite length_map, length_seq. Qed.

Ltac ltb_cases :=
  repeat match goal with
         | |- context [(?a <? ?b)%nat] => destruct (Nat.ltb_spec a b)
         end;
  try lia; try reflexivity.

Lemma Face_SetNode_partial (f t : nat -> Z) (n jn jt : nat) :
  (jn < n)%nat ->
  Face_SetNode (partial_polygon f t n jn jt) jn (f jn)
  = Ok (partial_polygon f t n (S jn) jt).
Proof.
  intros Hjn. unfold Face_SetNode. rewrite partial_polygon_length.
  destruct (Nat.ltb_spec jn n); [|lia].
  unfold partial_polygon at 2. do 2 f_equal. cbn [edges partial_polygon].
  apply list_eq. intros k.
  assert (Hprev : ((jn + n - 1) mod n < n)%nat)
    by (apply Nat.mod_upper_bound; lia).
  destruct (decide (k < n)%nat) as [Hk|Hk].
  2:{ rewrite !lookup_ge_None_2; [reflexivity|..];
        rewrite ?length_alter, length_map, length_seq; lia. }
  pose proof (prev_position n jn k Hjn Hk) as Hpos.
  rewrite list_lookup_fmap, lookup_seq_lt by lia.
  cbn [fmap option_fmap option_map].
  destruct (decide (k = (jn + n - 1) mod n)%nat) as [Hkp|Hkp].
  - assert (Hnext : ((k + 1) mod n = jn)%nat) by (apply Hpos; lia).
    rewrite Hkp at 1. rewrite list_lookup_alter_eq, <- Hkp.
    destruct (decide (k = jn)) as [->|Hkj].
    + rewrite list_lookup_alter_eq.
      rewrite list_lookup_fmap, lookup_seq_lt by lia.
      cbn [fmap option_fmap option_map node0 node1 type Nat.add].
      rewrite Hnext. ltb_cases.
    + rewrite list_lookup_alter_ne by lia.
      rewrite list_lookup_fmap, lookup_seq_lt by lia.
      cbn [fmap option_fmap option_map node0 node1 type Nat.add].
      rewrite Hnext. ltb_cases.
  - rewrite list_lookup_alter_ne by lia.
    assert (Hnext : ((k + 1) mod n <> jn)%nat)
      by (intros Hc; apply Hkp; symmetry; by apply Hpos).
    destruct (decide (k = jn)) as [->|Hkj].
    + rewrite list_lookup_alter_eq.
      rewrite list_lookup_fmap, lookup_seq_lt by lia.
      cbn [fmap option_fmap option_map node0 node1 type Nat.add].
      ltb_cases.
    + rewrite list_lookup_alter_ne by lia.
      rewrite list_lookup_fmap, lookup_seq_lt by lia.
      cbn [fmap option_fmap option_map Nat.add].
      ltb_cases.
Qed.

Lemma Face_set_type_partial (f t : nat -> Z) (n jn jt : nat) :
  (jt < n)%nat ->
  Face_set_type (partial_polygon f t n jn jt) jt (t jt)
  = Ok (partial_polygon f t n jn (S jt)).
Proof.
  intros Hjt. unfold Face_set_type. rewrite partial_polygon_length.
  destruct (Nat.ltb_spec jt n); [|lia].
  unfold partial_polygon at 2. do 2 f_equal. cbn [edges partial_polygon].
  apply list_eq. intros k.
  destruct (decide (k < n)%nat) as [Hk|Hk].
  2:{ rewrite !lookup_ge_None_2; [reflexivity|..];
        rewrite ?length_alter, length_map, length_seq; lia. }
  rewrite list_lookup_fmap, lookup_seq_lt by lia.
  cbn [fmap option_fmap option_map Nat.add].
  destruct (decide (k = jt)) as [->|Hkj].
  - rewrite list_lookup_alter_eq, list_lookup_fmap, lookup_seq_lt by lia.
    cbn [fmap option_fmap option_map node0 node1 type Nat.add].
    ltb_cases.
  - rewrite list_lookup_alter_ne by lia.
    rewrite list_lookup_fmap, lookup_seq_lt by lia.
    cbn [fmap option_fmap option_map Nat.add].
    ltb_cases.
Qed.

Lemma closed_polygon_closed (f t : nat -> Z) (n : nat) :
  closed_face (closed_polygon f t n).
Proof.
  intros k e e'. cbn [edges closed_polygon].
  rewrite length_map, length_seq. intros He He'.
  assert (Hk : (k < n)%nat).
  { apply lookup_lt_Some in He. by rewrite length_map, length_seq in He. }
  assert (Hmod : ((k + 1) mod n < n)%nat) by (apply Nat.mod_upper_bound; lia).
  rewrite list_lookup_fmap, lookup_seq_lt in He, He' by lia.
  cbn in He, He'. injection He as <-. injection He' as <-. reflexivity.
Qed.

(** ** The ICON reader *)

Lemma to_int_range (v : Z) : - 2 ^ 31 <= to_int v < 2 ^ 31.
Proof.
  unfold to_int. pose proof (Z.mod_pos_bound (v + 2 ^ 31) (2 ^ 32)). lia.
Qed.

Lemma read_ints_range {Real} (var : NcVar Real) (n : nat) :
  Forall (fun v => - 2 ^ 31 <= v < 2 ^ 31) (read_ints var n).
Proof.
  unfold read_ints, resize. apply Forall_app. split.
  - apply Forall_take, Forall_forall. intros v Hv.
    apply list_elem_of_fmap in Hv as (w & -> & _). apply to_int_range.
  - apply Forall_replicate. lia.
Qed.

Lemma nth_range (l : list Z) (i : nat) :
  Forall (fun v => - 2 ^ 31 <= v < 2 ^ 31) l -> - 2 ^ 31 <= nth i l 0 < 2 ^ 31.
Proof.
  intros Hall. destruct (nth_in_or_default i l 0) as [Hin| ->]; [|lia].
  rewrite Forall_forall in Hall. apply Hall. by apply list_elem_of_In.
Qed.

(** The faces that the loop over the cells leaves: cell [i] is the
    closed polygon over the vertices that the buffer lists for it, and
    every one of these is a vertex of the file. *)
Lemma ICON_faces_spec (strFile : string) (nNodes lVerticesPerCell nCell : nat)
    (dVertexOfCellBuf : list Z) (faces1 : list Face) :
  Forall (fun v => - 2 ^ 31 <= v < 2 ^ 31) dVertexOfCellBuf ->
  ICON_faces strFile nNodes lVerticesPerCell nCell dVertexOfCellBuf
    (replicate nCell (Face_new lVerticesPerCell)) = Ok faces1 ->
  length faces1 = nCell
  /\ forall i : nat, (i < nCell)%nat ->
       faces1 !! i
       = Some (closed_polygon
                 (fun j => nth (j * nCell + i) dVertexOfCellBuf 0 - 1)
                 (fun _ => Type_Default) lVerticesPerCell)
       /\ forall j : nat, (j < lVerticesPerCell)%nat ->
            1 <= nth (j * nCell + i) dVertexOfCellBuf 0 <= Z.of_nat nNodes.
Proof.
  intros Hints Hfaces. unfold ICON_faces in Hfaces.
  set (f := fun (i j : nat) => nth (j * nCell + i) dVertexOfCellBuf 0 - 1).
  set (t := fun _ : nat => Type_Default).
  eapply (forM_seq_invariant_Ok
    (fun i faces =>
       length faces = nCell
       /\ (forall i', (i' < i)%nat ->
             faces !! i' = Some (closed_polygon (f i') t lVerticesPerCell)
             /\ forall j, (j < lVerticesPerCell)%nat ->
                  1 <= nth (j * nCell + i') dVertexOfCellBuf 0
                  <= Z.of_nat nNodes)
       /\ (forall i', (i <= i' < nCell)%nat ->
             faces !! i' = Some (Face_new lVerticesPerCell)))) in Hfaces.
  - destruct Hfaces as (Hlen & Hdone & _).
    split; [assumption|]. intros i Hi. apply Hdone. lia.
  - (* one cell *)
    intros i faces faces' Hi (Hlen & Hdone & Htodo) Hcell.
    eapply (forM_seq_invariant_Ok
      (fun j faces0 =>
         length faces0 = nCell
         /\ faces0 !! i = Some (partial_polygon (f i) t lVerticesPerCell j 0)
         /\ (forall i', i' <> i -> faces0 !! i' = faces !! i')
         /\ forall j', (j' < j)%nat ->
              1 <= nth (j' * nCell + i) dVertexOfCellBuf 0 <= Z.of_nat nNodes))
      in Hcell.
    + destruct Hcell as (Hlen' & Hi' & Hother & Hrange).
      split; [assumption|]. split.
      * intros i' Hi''. destruct (decide (i' = i)) as [->|Hne].
        -- rewrite Hi', Nat.add_0_l. unfold t.
           rewrite partial_polygon_closed_default.
           split; [reflexivity|]. intros j Hj. apply Hrange. lia.
        -- rewrite Hother by assumption. apply Hdone. lia.
      * intros i' Hi''. rewrite Hother by lia. apply Htodo. lia.
    + (* one vertex *)
      intros j faces0 faces0' Hj (Hlen0 & Hface & Hother & Hrange) Hstep.
      destruct ((nth (j * nCell + i) dVertexOfCellBuf 0 <? 1)
                || (Z.of_nat nNodes <? nth (j * nCell + i) dVertexOfCellBuf 0))
        eqn:Hcheck; [discriminate|].
      apply orb_false_iff in Hcheck as [Hlo Hhi].
      apply Z.ltb_ge in Hlo, Hhi.
      unfold vec_get in Hstep. rewrite Hface in Hstep.
      cbn [mbind Exn_bind] in Hstep.
      pose proof (nth_range dVertexOfCellBuf (j * nCell + i) Hints) as Hint.
      rewrite to_int_small in Hstep by lia.
      change (nth (j * nCell + i) dVertexOfCellBuf 0 - 1) with (f i j) in Hstep.
      rewrite Face_SetNode_partial in Hstep by lia.
      cbn [mbind Exn_bind] in Hstep. unfold vec_put in Hstep.
      destruct (Nat.ltb_spec i (length faces0)); [|lia].
      injection Hstep as <-.
      split; [by rewrite length_insert|].
      split; [by rewrite list_lookup_insert_eq by lia|].
      split.
      * intros i' Hne. rewrite list_lookup_insert_ne by lia. by apply Hother.
      * intros j' Hj'. destruct (decide (j' = j)) as [->|]; [lia|].
        apply Hrange. lia.
    + split; [assumption|]. split.
      * rewrite <- (Face_new_partial (f i) t). apply Htodo. lia.
      * split; [reflexivity|]. intros j' Hj'. lia.
  - split; [apply length_replicate|]. split; [intros i' Hi'; lia|].
    intros i' Hi'. apply lookup_replicate_2. lia.
Qed.

Section IconFacts.
Context {Real : Type} `{RealArith Real}.

Lemma ICON_coordinate_length (ncFile : NcFile Real) (strFile name : string)
    (nVertex : nat) (buf : list Real) :
  io_result (ICON_coordinate ncFile strFile name nVertex) = Ok buf ->
  length buf = nVertex.
Proof.
  unfold ICON_coordinate. destruct (get_var ncFile name); [|discriminate].
  destruct (negb _); [discriminate|]. destruct (negb _); [discriminate|].
  cbn. intros [= <-]. apply length_resize.
Qed.

Lemma closed_polygon_in_range (f t : nat -> Z) (n nNodes : nat) :
  (forall j, (j < n)%nat -> 0 <= f j < Z.of_nat nNodes) ->
  Forall (fun edge => 0 <= node0 edge < Z.of_nat nNodes
                      /\ 0 <= node1 edge < Z.of_nat nNodes)
    (edges (closed_polygon f t n)).
Proof.
  intros Hf. cbn [edges closed_polygon]. apply Forall_forall. intros e He.
  apply list_elem_of_fmap in He as (k & -> & Hk). apply elem_of_seq in Hk.
  cbn [node0 node1]. split; apply Hf; [lia|].
  apply Nat.mod_upper_bound. lia.
Qed.

(** X20. When the ICON branch of the reader ends without error, on a
    mesh that had no faces, the mesh has as many nodes as the dimension
    "vertex" and as many faces as the dimension "cell" say, every face is
    a closed polygon, and every node index of a face is an index of a
    node: a vertex id outside 1..vertex does not get past the reader. *)
Theorem Read_ICON_well_formed (ncFile : NcFile Real) (strFile : string)
    (m m' : Mesh Real) :
  faces m = [] ->
  io_result (Read_ICON ncFile strFile m) = Ok m' ->
  faces_in_range (length (nodes m')) (faces m')
  /\ Forall closed_face (faces m')
  /\ exists dimVertex dimCell : Z,
       get_dim ncFile "vertex" = Some dimVertex
       /\ get_dim ncFile "cell" = Some dimCell
       /\ length (nodes m') = Z.to_nat dimVertex
       /\ length (faces m') = Z.to_nat dimCell.
Proof.
  intros Hempty. unfold Read_ICON.
  destruct (get_dim ncFile "vertex") as [dimVertex|]; [|discriminate].
  cbv zeta. rewrite io_result_bind.
  destruct (io_result (ICON_coordinate ncFile strFile "cartesian_x_vertices" _))
    as [bufX|] eqn:HX; [|discriminate].
  rewrite io_result_bind.
  destruct (io_result (ICON_coordinate ncFile strFile "cartesian_y_vertices" _))
    as [bufY|] eqn:HY; [|discriminate].
  rewrite io_result_bind.
  destruct (io_result (ICON_coordinate ncFile strFile "cartesian_z_vertices" _))
    as [bufZ|] eqn:HZ; [|discriminate].
  apply ICON_coordinate_length in HX, HY, HZ.
  destruct (get_var ncFile "vertex_of_cell") as [varVertexOfCell|];
    [|discriminate].
  destruct (negb _); [discriminate|]. destruct (negb _); [discriminate|].
  destruct (get_dim ncFile "cell") as [dimCell|]; [|discriminate].
  rewrite io_result_bind. cbn [lift io_result].
  rewrite Hempty.
  replace (resize (Z.to_nat dimCell) (Face_new _) [])
    with (replicate (Z.to_nat dimCell)
            (Face_new (Z.to_nat (nth 0 (map snd (var_dims varVertexOfCell)) 0)))).
  2:{ unfold resize. rewrite take_nil. cbn [app length].
      by rewrite Nat.sub_0_r. }
  match goal with
  | |- context [ICON_faces ?s ?n ?l ?c ?b ?f] =>
      destruct (ICON_faces s n l c b f) as [faces1|] eqn:Hfaces;
        [|discriminate]
  end.
  cbn [mret IO_ret io_result]. intros [= <-].
  cbn [nodes faces set_nodes set_faces].
  apply ICON_faces_spec in Hfaces as [Hlen Hcells]; [|apply read_ints_range].
  assert (Hnodes : length (zip_with (fun n v => mkNode (x n) (y n) v)
                     (zip_with (fun n v => mkNode (x n) v (z n))
                        (zip_with (fun n v => mkNode v (y n) (z n))
                           (resize (Z.to_nat dimVertex)
                              (mkNode r_zero r_zero r_zero) (nodes m)) bufX)
                        bufY) bufZ) = Z.to_nat dimVertex).
  { rewrite !length_zip_with, length_resize. lia. }
  rewrite Hnodes in *.
  assert (Hface : forall face, face ∈ faces1 ->
            closed_face face
            /\ Forall (fun edge =>
                         0 <= node0 edge < Z.of_nat (Z.to_nat dimVertex)
                         /\ 0 <= node1 edge < Z.of_nat (Z.to_nat dimVertex))
                 (edges face)).
  { intros face Hin. apply list_elem_of_lookup in Hin as [i Hi].
    assert (Hilt : (i < Z.to_nat dimCell)%nat)
      by (rewrite <- Hlen; eapply lookup_lt_Some; eauto).
    destruct (Hcells i Hilt) as [Hpoly Hrange].
    rewrite Hpoly in Hi. injection Hi as <-.
    split; [apply closed_polygon_closed|].
    apply closed_polygon_in_range. intros j Hj. specialize (Hrange j Hj). lia. }
  split; [|split].
  - apply Forall_forall. intros face Hin. by apply Hface.
  - apply Forall_forall. intros face Hin. by apply Hface.
  - exists dimVertex, dimCell. auto.
Qed.

End IconFacts.

Lemma Read_ICON_well_formed_witness :
  faces_in_range (length (nodes octant_mesh)) (faces octant_mesh)
  /\ Forall closed_face (faces octant_mesh)
  /\ exists dimVertex dimCell : Z,
       get_dim (icon_file [1; 2; 3]) "vertex" = Some dimVertex
       /\ get_dim (icon_file [1; 2; 3]) "cell" = Some dimCell
       /\ length (nodes octant_mesh) = Z.to_nat dimVertex
       /\ length (faces octant_mesh) = Z.to_nat dimCell.
Proof.
  apply (Read_ICON_well_formed (icon_file [1; 2; 3]) "icon.nc" empty_mesh
           octant_mesh).
  - reflexivity.
  - vm_compute. reflexivity.
Defined.

(** ** The SCRIP reader *)

Lemma Face_SetNode_all (f : nat -> Z) (n : nat) :
  forM (fun face j => Face_SetNode face j (f j)) (seq 0 n) (Face_new n)
  = Ok (closed_polygon f (fun _ => Type_Default) n).
Proof.
  destruct (forM_seq_invariant
              (fun j face => face = partial_polygon f (fun _ => Type_Default) n j 0)
              (fun face j => Face_SetNode face j (f j)) n 0 (Face_new n))
    as (face & -> & ->).
  - intros j face Hj ->. eexists. split; [|reflexivity].
    apply Face_SetNode_partial. lia.
  - apply Face_new_partial.
  - by rewrite Nat.add_0_l, partial_polygon_closed_default.
Qed.

Lemma vec_put_Ok {A} (what : string) (v : list A) (i : nat) (a : A) :
  (i < length v)%nat -> vec_put what v i a = Ok (<[i := a]> v).
Proof.
  intros Hi. unfold vec_put. by destruct (Nat.ltb_spec i (length v)); [|lia].
Qed.

Section ScripFacts.
Context {Real : Type} `{RealArith Real}.
Variable r_cos : Real -> Real.
Variable r_sin : Real -> Real.

(** The loop over the faces of a SCRIP file: face [i] is the closed
    polygon over the nodes [i * nGridCorners], ..., and these nodes are
    the corners of the face in the file. *)
Lemma SCRIP_faces_spec (nGridSize nGridCorners : nat)
    (fLon fLat : bool) (dCornerLon dCornerLat : list Real) (m : Mesh Real) :
  Z.of_nat (nGridSize * nGridCorners) < 2 ^ 31 ->
  length (faces m) = nGridSize ->
  length (nodes m) = (nGridSize * nGridCorners)%nat ->
  exists m' : Mesh Real,
    SCRIP_faces r_cos r_sin nGridSize nGridCorners fLon fLat
      dCornerLon dCornerLat m = Ok m'
    /\ length (faces m') = nGridSize
    /\ length (nodes m') = (nGridSize * nGridCorners)%nat
    /\ vecMask m' = vecMask m
    /\ (forall i, (i < nGridSize)%nat ->
          faces m' !! i
          = Some (closed_polygon (fun j => Z.of_nat (i * nGridCorners + j))
                    (fun _ => Type_Default) nGridCorners))
    /\ (forall i j, (i < nGridSize)%nat -> (j < nGridCorners)%nat ->
          nodes m' !! (i * nGridCorners + j)%nat
          = Some (SCRIP_corner r_cos r_sin fLon fLat
                    (nth (i * nGridCorners + j) dCornerLon r_zero)
                    (nth (i * nGridCorners + j) dCornerLat r_zero))).
Proof.
  intros Hsmall Hfaces Hnodes. unfold SCRIP_faces.
  destruct (forM_seq_invariant
    (fun i m' =>
       length (faces m') = nGridSize
       /\ length (nodes m') = (nGridSize * nGridCorners)%nat
       /\ vecMask m' = vecMask m
       /\ (forall i', (i' < i)%nat ->
             faces m' !! i'
             = Some (closed_polygon (fun j => Z.of_nat (i' * nGridCorners + j))
                       (fun _ => Type_Default) nGridCorners))
       /\ (forall i' j, (i' < i)%nat -> (j < nGridCorners)%nat ->
             nodes m' !! (i' * nGridCorners + j)%nat
             = Some (SCRIP_corner r_cos r_sin fLon fLat
                       (nth (i' * nGridCorners + j) dCornerLon r_zero)
                       (nth (i' * nGridCorners + j) dCornerLat r_zero))))
    (fun m i =>
      let ixNode := (i * nGridCorners)%nat in
      faceNew ← forM (fun face j =>
                    Face_SetNode face j (to_int (Z.of_nat (ixNode + j))))
                  (seq 0 nGridCorners) (Face_new nGridCorners);
      faces' ← vec_put "faces" (faces m) i faceNew;
      nodes' ← forM (fun nodes j =>
                   let dLon := nth (i * nGridCorners + j) dCornerLon r_zero in
                   let dLat := nth (i * nGridCorners + j) dCornerLat r_zero in
                   vec_put "nodes" nodes (ixNode + j)
                     (SCRIP_corner r_cos r_sin fLon fLat dLon dLat))
                 (seq 0 nGridCorners) (nodes m);
      mret (set_nodes (set_faces m faces') nodes'))
    nGridSize 0 m) as (m' & Hm' & Hinv).
  - intros i m0 Hi (Hlen & Hnlen & Hmask & Hdone & Hcorners). cbv zeta.
    assert (Hbound : (i * nGridCorners + nGridCorners
                      <= nGridSize * nGridCorners)%nat) by nia.
    rewrite (forM_ext _ (fun face j =>
               Face_SetNode face j (Z.of_nat (i * nGridCorners + j)))).
    2:{ intros face j Hj. apply elem_of_seq in Hj.
        rewrite to_int_small by lia. reflexivity. }
    rewrite Face_SetNode_all. cbn [mbind Exn_bind].
    rewrite (vec_put_Ok "faces") by lia. cbn [mbind Exn_bind].
    destruct (forM_seq_invariant
      (fun j nodes0 =>
         length nodes0 = (nGridSize * nGridCorners)%nat
         /\ (forall k, (k < i * nGridCorners)%nat -> nodes0 !! k = nodes m0 !! k)
         /\ forall j', (j' < j)%nat ->
              nodes0 !! (i * nGridCorners + j')%nat
              = Some (SCRIP_corner r_cos r_sin fLon fLat
                        (nth (i * nGridCorners + j') dCornerLon r_zero)
                        (nth (i * nGridCorners + j') dCornerLat r_zero)))
      (fun nodes j =>
         vec_put "nodes" nodes (i * nGridCorners + j)
           (SCRIP_corner r_cos r_sin fLon fLat
              (nth (i * nGridCorners + j) dCornerLon r_zero)
              (nth (i * nGridCorners + j) dCornerLat r_zero)))
      nGridCorners 0 (nodes m0)) as (nodes' & -> & Hn1 & Hn2 & Hn3).
    + intros j nodes0 Hj (Hl & Hbefore & Hset).
      rewrite vec_put_Ok by lia. eexists. split; [reflexivity|].
      split; [by rewrite length_insert|]. split.
      * intros k Hk. rewrite list_lookup_insert_ne by lia. by apply Hbefore.
      * intros j' Hj'. destruct (decide (j' = j)) as [->|Hne].
        -- by rewrite list_lookup_insert_eq by lia.
        -- rewrite list_lookup_insert_ne by lia. apply Hset. lia.
    + split; [assumption|]. split; [reflexivity|]. intros j' Hj'. lia.
    + cbn [mbind Exn_bind mret Exn_ret]. eexists. split; [reflexivity|].
      cbn [faces nodes vecMask set_faces set_nodes].
      split; [by rewrite length_insert|]. split; [assumption|].
      split; [assumption|]. split.
      * intros i' Hi'. destruct (decide (i' = i)) as [->|Hne].
        -- by rewrite list_lookup_insert_eq by lia.
        -- rewrite list_lookup_insert_ne by lia. apply Hdone. lia.
      * intros i' j Hi' Hj. destruct (decide (i' = i)) as [->|Hne].
        -- apply Hn3. lia.
        -- rewrite Hn2 by nia. apply Hcorners; lia.
  - split; [assumption|]. split; [assumption|]. split; [reflexivity|].
    split; intros; lia.
  - exists m'. split; [exact Hm'|]. rewrite Nat.add_0_l in Hinv.
    destruct Hinv as (? & ? & ? & ? & ?). auto 10.
Qed.

(** X21. When the SCRIP branch of the reader ends without error and
    has not been asked to remove coincident nodes, the mesh has
    grid_size faces and grid_size * grid_corners nodes, and face [i] is
    the closed polygon over the nodes [i * grid_corners], ...,
    [i * grid_corners + grid_corners - 1]: every face has nodes of its
    own, and no node index is shared between two faces. *)
Theorem Read_SCRIP_private_nodes (ncFile : NcFile Real) (strFile : string)
    (m m' : Mesh Real) (gs gc : Z) :
  get_dim ncFile "grid_size" = Some gs ->
  get_dim ncFile "grid_corners" = Some gc ->
  0 <= gs < 2 ^ 31 -> 0 <= gc < 2 ^ 31 -> gs * gc < 2 ^ 31 ->
  io_result (Read_SCRIP r_cos r_sin ncFile strFile false m) = Ok m' ->
  length (faces m') = Z.to_nat gs
  /\ length (nodes m') = (Z.to_nat gs * Z.to_nat gc)%nat
  /\ forall i : nat, (i < Z.to_nat gs)%nat ->
       faces m' !! i
       = Some (closed_polygon (fun j => Z.of_nat (i * Z.to_nat gc + j))
                 (fun _ => Type_Default) (Z.to_nat gc)).
Proof.
  intros Hgs Hgc Hgsr Hgcr Hprod. unfold Read_SCRIP.
  rewrite io_result_bind. cbn [emit io_result]. cbv zeta.
  destruct (get_var ncFile "grid_corner_lat") as [varLat|]; [|discriminate].
  destruct (get_var ncFile "grid_corner_lon") as [varLon|]; [|discriminate].
  rewrite Hgs, Hgc. rewrite !to_int_small by lia.
  rewrite io_result_bind.
  set (m1 := set_nodes _ _).
  assert (Hm1 : length (faces m1) = Z.to_nat gs
                /\ length (nodes m1) = (Z.to_nat gs * Z.to_nat gc)%nat).
  { unfold m1. cbn [faces nodes set_nodes set_faces].
    by rewrite !length_resize. }
  match goal with
  | |- context [io_result ?mask] =>
      assert (Hmask : forall m2, io_result mask = Ok m2 ->
                length (faces m2) = Z.to_nat gs
                /\ length (nodes m2) = (Z.to_nat gs * Z.to_nat gc)%nat);
        [|destruct (io_result mask) as [m2|] eqn:Hm2; [|discriminate]]
  end.
  { intros m2. destruct (get_var ncFile "grid_imask") as [varMask|].
    - destruct (negb _); [discriminate|]. destruct (negb _); [discriminate|].
      cbn. by intros [= <-].
    - cbn. by intros [= <-]. }
  destruct (Hmask m2 eq_refl) as [Hf2 Hn2].
  rewrite io_result_bind. cbn [lift io_result].
  destruct (SCRIP_faces_spec (Z.to_nat gs) (Z.to_nat gc)
              (units_are_degrees varLon) (units_are_degrees varLat)
              (read_reals varLon (Z.to_nat gs * Z.to_nat gc))
              (read_reals varLat (Z.to_nat gs * Z.to_nat gc)) m2)
    as (m3 & -> & Hf3 & Hn3 & _ & Hpoly & _); [nia|assumption..|].
  rewrite io_result_bind. cbn [mret IO_ret io_result].
  rewrite io_result_bind. cbn [emit mret IO_ret io_result].
  intros [= <-]. auto.
Qed.

End ScripFacts.

Lemma Read_SCRIP_private_nodes_witness :
  exists m' : Mesh R,
    io_result (Read_SCRIP cos sin scrip_file "grid.nc" false empty_mesh) = Ok m'
    /\ length (faces m') = Z.to_nat 2
    /\ length (nodes m') = (Z.to_nat 2 * Z.to_nat 3)%nat
    /\ forall i : nat, (i < Z.to_nat 2)%nat ->
         faces m' !! i
         = Some (closed_polygon (fun j => Z.of_nat (i * Z.to_nat 3 + j))
                   (fun _ => Type_Default) (Z.to_nat 3)).
Proof.
  eexists. split; [reflexivity|].
  apply (Read_SCRIP_private_nodes cos sin scrip_file "grid.nc" empty_mesh _ 2 3);
    try reflexivity; lia.
Defined.

